(** * Release radar: the discovery pipeline of [app.py]

    A shallow embedding of the Spotify client ([SpotifyAPI]) and of the
    [generate_playlist] route of [app.py], with the properties of the
    pipeline stated over it.

    - JSON data received from the service is a [pyval]; subscripting,
      truthiness, iteration and slicing follow Python and raise the
      exception Python raises.
    - The remote service is a function of the calls made so far and of the
      call being made; the pipeline runs in a monad that threads the call
      log and propagates exceptions.
    - [while True] runs on fuel; running out of fuel is the outcome
      [OutOfFuel], which no [try]/[except] catches. *)

From Stdlib Require Import ZArith String Ascii Bool Lia Arith FinFun List.
Import ListNotations.
Local Open Scope string_scope.
Local Open Scope list_scope.
Set Warnings "-register-all".

(* ================================================================= *)
(** ** Python values and exceptions *)

(** Values decoded from JSON bodies.  Numbers are integers: no field this
    pipeline reads is fractional.  A [PDict] keeps its items in insertion
    order, as Python dictionaries do. *)
Inductive pyval : Type :=
| PNone
| PBool (b : bool)
| PInt (n : Z)
| PStr (s : string)
| PList (l : list pyval)
| PDict (d : list (string * pyval)).

Inductive exn : Type :=
| KeyError
| TypeError
| IndexError
| ValueError
| OverflowError
| ConnectionError
| JSONDecodeError.

(** Outcome of running a piece of Python code. *)
Inductive result (A : Type) : Type :=
| Ok (a : A)
| Raise (e : exn)
| OutOfFuel.
Arguments Ok {A} a.
Arguments Raise {A} e.
Arguments OutOfFuel {A}.

Module Py.

(** [bool(v)], as used by [if v] and [not v]. *)
Definition truthy (v : pyval) : bool :=
  match v with
  | PNone => false
  | PBool b => b
  | PInt n => negb (n =? 0)%Z
  | PStr s => negb (Nat.eqb (String.length s) 0)
  | PList l => negb (Nat.eqb (List.length l) 0)
  | PDict d => negb (Nat.eqb (List.length d) 0)
  end.

Fixpoint lookup (k : string) (d : list (string * pyval)) : option pyval :=
  match d with
  | [] => None
  | (k', v) :: d' => if String.eqb k k' then Some v else lookup k d'
  end.

(** [v[k]] for a string key [k]. *)
Definition getitem (v : pyval) (k : string) : result pyval :=
  match v with
  | PDict d => match lookup k d with
               | Some x => Ok x
               | None => Raise KeyError
               end
  | _ => Raise TypeError
  end.

(** [v[0]].  The keys of a decoded JSON object are strings, so an
    integer key is never found in a dictionary. *)
Definition getitem0 (v : pyval) : result pyval :=
  match v with
  | PList (x :: _) => Ok x
  | PList [] => Raise IndexError
  | PStr (String c _) => Ok (PStr (String c EmptyString))
  | PStr EmptyString => Raise IndexError
  | PDict _ => Raise KeyError
  | _ => Raise TypeError
  end.

Fixpoint chars (s : string) : list pyval :=
  match s with
  | EmptyString => []
  | String c s' => PStr (String c EmptyString) :: chars s'
  end.

(** The elements [for x in v] visits (also what [list.extend(v)]
    appends): the items of a list, the characters of a string, the keys
    of a dictionary. *)
Definition iter (v : pyval) : result (list pyval) :=
  match v with
  | PList l => Ok l
  | PStr s => Ok (chars s)
  | PDict d => Ok (map (fun kv => PStr (fst kv)) d)
  | _ => Raise TypeError
  end.

Fixpoint string_firstn (n : nat) (s : string) : string :=
  match n, s with
  | S n', String c s' => String c (string_firstn n' s')
  | _, _ => EmptyString
  end.

(** [v[:n]].  Slicing a dictionary raises (TypeError up to Python 3.11,
    KeyError from 3.12 on, where slices are hashable). *)
Definition slice_to (n : nat) (v : pyval) : result pyval :=
  match v with
  | PList l => Ok (PList (firstn n l))
  | PStr s => Ok (PStr (string_firstn n s))
  | _ => Raise TypeError
  end.

(** [len(v)]. *)
Definition len (v : pyval) : result nat :=
  match v with
  | PStr s => Ok (String.length s)
  | PList l => Ok (List.length l)
  | PDict d => Ok (List.length d)
  | _ => Raise TypeError
  end.

(** [hash(v)] succeeds: lists and dictionaries are unhashable. *)
Definition hashable (v : pyval) : bool :=
  match v with
  | PList _ | PDict _ => false
  | _ => true
  end.

(** [l[i:j]] on a list. *)
Definition slice {A} (i j : nat) (l : list A) : list A :=
  firstn (j - i) (skipn i l).

(** [range(start, stop, step)] for a positive step; [fuel] bounds the
    number of elements produced. *)
Fixpoint range_from (fuel start stop step : nat) : list nat :=
  match fuel with
  | O => []
  | S fuel' =>
      if Nat.ltb start stop
      then start :: range_from fuel' (start + step) stop step
      else []
  end.

Definition range (start stop step : nat) : list nat :=
  range_from stop start stop step.

End Py.

(* ================================================================= *)
(** ** The remote service and the call log *)

(** The endpoints [make_request] is called with.  An endpoint built with
    an f-string keeps the interpolated value as its argument:
    [ArtistRelated a] is [f'/artists/{a}/related-artists']. *)
Inductive endpoint : Type :=
| MeFollowing                        (* '/me/following' *)
| ArtistRelated (artist_id : pyval)  (* f'/artists/{artist_id}/related-artists' *)
| ArtistAlbums (artist_id : pyval)   (* f'/artists/{artist_id}/albums' *)
| AlbumTracks (album_id : pyval)     (* f'/albums/{album_id}/tracks' *)
| Me.                                (* '/me' *)

(** The URLs [requests.post] is called with. *)
Inductive post_url : Type :=
| UserPlaylists (user_id : pyval)        (* f"{base_url}/users/{user_id}/playlists" *)
| PlaylistTracks (playlist_id : pyval).  (* f"{base_url}/playlists/{playlist_id}/tracks" *)

(** One HTTP call, with the bearer token of its Authorization header. *)
Inductive call : Type :=
| GET (e : endpoint) (access_token : string)
      (params : option (list (string * pyval)))
| POST (u : post_url) (access_token : string) (json : pyval).

(** What [requests] hands back: the status code and the decoded body,
    [None] when [response.json()] cannot decode it. *)
Record response : Type := mkResponse {
  status_code : Z;
  json : option pyval
}.

(** The service answers a call knowing the calls made before it; [None]
    is a transport failure, on which [requests] raises. *)
Definition service : Type := list call -> call -> option response.

(** Computations: the log of calls made so far is threaded through, and
    an exception or fuel exhaustion ends the computation, keeping the
    log. *)
Definition M (A : Type) : Type := list call -> result A * list call.

Definition ret {A} (a : A) : M A := fun log => (Ok a, log).

Definition bind {A B} (m : M A) (f : A -> M B) : M B :=
  fun log =>
    match m log with
    | (Ok a, log') => f a log'
    | (Raise e, log') => (Raise e, log')
    | (OutOfFuel, log') => (OutOfFuel, log')
    end.

Definition lift {A} (r : result A) : M A := fun log => (r, log).

Notation "x <- m ;; k" := (bind m (fun x => k))
  (at level 61, m at next level, right associativity).
Notation "m ;;; k" := (bind m (fun _ => k))
  (at level 61, right associativity).

(** [for x in l: s = body x s], the loop-carried variables being [s]. *)
Fixpoint for_each {A S} (l : list A) (body : A -> S -> M S) (s : S) : M S :=
  match l with
  | [] => ret s
  | x :: l' => s' <- body x s ;; for_each l' body s'
  end.

(* ================================================================= *)
(** ** class SpotifyAPI *)

Section SpotifyAPI.

Variable remote : service.

(** [requests.get] / [requests.post]: the call is logged, the service
    answers, a transport failure raises. *)
Definition perform (c : call) : M response :=
  fun log =>
    match remote log c with
    | Some r => (Ok r, log ++ [c])
    | None => (Raise ConnectionError, log ++ [c])
    end.

Definition response_json (r : response) : M pyval :=
  match json r with
  | Some v => ret v
  | None => lift (Raise JSONDecodeError)
  end.

Definition make_request (e : endpoint) (access_token : string)
    (params : option (list (string * pyval))) : M pyval :=
  resp <- perform (GET e access_token params) ;;
  if (status_code resp =? 401)%Z
  then ret PNone
  else response_json resp.

(** The parameters of one page request of [get_followed_artists]. *)
Definition following_params (limit : Z) (after : pyval)
  : list (string * pyval) :=
  [("type", PStr "artist"); ("limit", PInt limit)]
    ++ (if Py.truthy after then [("after", after)] else []).

(** The [while True] loop of [get_followed_artists]; [artists] and
    [after] are its variables. *)
Fixpoint get_followed_artists_loop (fuel : nat) (access_token : string)
    (limit : Z) (artists : list pyval) (after : pyval)
  : M (list pyval) :=
  match fuel with
  | O => lift OutOfFuel
  | S fuel' =>
      data <- make_request MeFollowing access_token
                (Some (following_params limit after)) ;;
      if negb (Py.truthy data) then ret artists
      else
        page <- lift (Py.getitem data "artists") ;;
        items <- lift (Py.getitem page "items") ;;
        new <- lift (Py.iter items) ;;
        let artists := artists ++ new in
        page <- lift (Py.getitem data "artists") ;;
        next <- lift (Py.getitem page "next") ;;
        if negb (Py.truthy next) then ret artists
        else
          page <- lift (Py.getitem data "artists") ;;
          cursors <- lift (Py.getitem page "cursors") ;;
          after <- lift (Py.getitem cursors "after") ;;
          get_followed_artists_loop fuel' access_token limit artists after
  end.

Definition get_followed_artists (fuel : nat) (access_token : string)
    (limit : Z) : M (list pyval) :=
  get_followed_artists_loop fuel access_token limit [] PNone.

Definition get_related_artists (access_token : string) (artist_id : pyval)
  : M pyval :=
  data <- make_request (ArtistRelated artist_id) access_token None ;;
  if Py.truthy data then lift (Py.getitem data "artists")
  else ret (PList []).

Definition get_artist_albums (access_token : string) (artist_id : pyval)
    (limit : Z) : M pyval :=
  let params := [("include_groups", PStr "album,single");
                 ("market", PStr "US");
                 ("limit", PInt limit)] in
  data <- make_request (ArtistAlbums artist_id) access_token (Some params) ;;
  if Py.truthy data then lift (Py.getitem data "items")
  else ret (PList []).

Definition get_album_tracks (access_token : string) (album_id : pyval)
  : M pyval :=
  data <- make_request (AlbumTracks album_id) access_token None ;;
  if Py.truthy data then lift (Py.getitem data "items")
  else ret (PList []).

Definition create_playlist (access_token : string) (user_id : pyval)
    (name description : string) : M pyval :=
  let data := PDict [("name", PStr name);
                     ("description", PStr description);
                     ("public", PBool false)] in
  resp <- perform (POST (UserPlaylists user_id) access_token data) ;;
  response_json resp.

(** The batches [track_uris[i:i+100]] for [i] in
    [range(0, len(track_uris), 100)]. *)
Definition batches (track_uris : list pyval) : list (list pyval) :=
  map (fun i => Py.slice i (i + 100) track_uris)
      (Py.range 0 (List.length track_uris) 100).

Definition add_tracks_to_playlist (access_token : string)
    (playlist_id : pyval) (track_uris : list pyval) : M unit :=
  for_each (Py.range 0 (List.length track_uris) 100)
    (fun i _ =>
       let batch := Py.slice i (i + 100) track_uris in
       let data := PDict [("uris", PList batch)] in
       perform (POST (PlaylistTracks playlist_id) access_token data) ;;;
       ret tt)
    tt.

Definition get_user_profile (access_token : string) : M pyval :=
  make_request Me access_token None.

End SpotifyAPI.

(* ================================================================= *)
(** ** datetime *)

Module Datetime.

Local Open Scope Z_scope.

(** A naive [datetime] is its position on the proleptic Gregorian time
    line, in microseconds, day 1 being 0001-01-01: the quantity that
    comparison and [timedelta] arithmetic are defined on. *)
Definition datetime : Type := Z.

Definition MINYEAR : Z := 1.
Definition MAXYEAR : Z := 9999.
Definition MAXORDINAL : Z := 3652059.

Definition us_per_second : Z := 1000000.
Definition us_per_day : Z := 86400 * us_per_second.

Definition is_leap (year : Z) : bool :=
  (year mod 4 =? 0) && (negb (year mod 100 =? 0) || (year mod 400 =? 0)).

Definition DAYS_IN_MONTH : list Z :=
  [-1; 31; 28; 31; 30; 31; 30; 31; 31; 30; 31; 30; 31].

Definition DAYS_BEFORE_MONTH : list Z :=
  [-1; 0; 31; 59; 90; 120; 151; 181; 212; 243; 273; 304; 334].

Definition days_in_month (year month : Z) : Z :=
  if (month =? 2) && is_leap year then 29
  else nth (Z.to_nat month) DAYS_IN_MONTH 0.

Definition days_before_year (year : Z) : Z :=
  let y := year - 1 in
  y * 365 + y / 4 - y / 100 + y / 400.

Definition days_before_month (year month : Z) : Z :=
  nth (Z.to_nat month) DAYS_BEFORE_MONTH 0
  + (if (month >? 2) && is_leap year then 1 else 0).

Definition ymd2ord (year month day : Z) : Z :=
  days_before_year year + days_before_month year month + day.

(** [datetime(year, month, day)], midnight of that day. *)
Definition of_ymd (year month day : Z) : datetime :=
  ymd2ord year month day * us_per_day.

(** The range check of the [datetime] constructor. *)
Definition make (year month day : Z) : result datetime :=
  if (MINYEAR <=? year) && (year <=? MAXYEAR)
     && (1 <=? month) && (month <=? 12)
     && (1 <=? day) && (day <=? days_in_month year month)
  then Ok (of_ymd year month day)
  else Raise ValueError.

(** [t - timedelta(days=days, seconds=seconds)]. *)
Definition sub_timedelta (t : datetime) (days seconds : Z)
  : result datetime :=
  let r := t - days * us_per_day - seconds * us_per_second in
  if (1 <=? r / us_per_day) && (r / us_per_day <=? MAXORDINAL)
  then Ok r
  else Raise OverflowError.

(** [a >= b]. *)
Definition ge (a b : datetime) : bool := b <=? a.

Definition digit (c : ascii) : option Z :=
  let n := Z.of_nat (nat_of_ascii c) in
  if (48 <=? n) && (n <=? 57) then Some (n - 48) else None.

Definition digit_in (lo hi : Z) (c : ascii) : option Z :=
  match digit c with
  | Some n => if (lo <=? n) && (n <=? hi) then Some n else None
  | None => None
  end.

(** [%Y]: four digits. *)
Definition parse_Y (s : string) : option (Z * string) :=
  match s with
  | String a (String b (String c (String d rest))) =>
      match digit a, digit b, digit c, digit d with
      | Some a, Some b, Some c, Some d =>
          Some (1000 * a + 100 * b + 10 * c + d, rest)
      | _, _, _, _ => None
      end
  | _ => None
  end.

(** [%m]: [1[0-2]|0[1-9]|[1-9]], the alternatives tried in this
    order. *)
Definition parse_m (s : string) : option (Z * string) :=
  match s with
  | String a rest =>
      let two :=
        match rest with
        | String b rest' =>
            match digit_in 1 1 a, digit_in 0 2 b with
            | Some _, Some b => Some (10 + b, rest')
            | _, _ =>
                match digit_in 0 0 a, digit_in 1 9 b with
                | Some _, Some b => Some (b, rest')
                | _, _ => None
                end
            end
        | EmptyString => None
        end in
      match two with
      | Some r => Some r
      | None => match digit_in 1 9 a with
                | Some a => Some (a, rest)
                | None => None
                end
      end
  | EmptyString => None
  end.

(** [%d]: [3[0-1]|[1-2]\d|0[1-9]|[1-9]| [1-9]], the alternatives tried
    in this order. *)
Definition parse_d (s : string) : option (Z * string) :=
  match s with
  | String a rest =>
      let two_digits :=
        match rest with
        | String b rest' =>
            match digit_in 3 3 a, digit_in 0 1 b with
            | Some _, Some b => Some (30 + b, rest')
            | _, _ =>
                match digit_in 1 2 a, digit b with
                | Some a, Some b => Some (10 * a + b, rest')
                | _, _ =>
                    match digit_in 0 0 a, digit_in 1 9 b with
                    | Some _, Some b => Some (b, rest')
                    | _, _ => None
                    end
                end
            end
        | EmptyString => None
        end in
      match two_digits with
      | Some r => Some r
      | None =>
          match digit_in 1 9 a with
          | Some a => Some (a, rest)
          | None =>
              match rest with
              | String b rest' =>
                  if Ascii.eqb a " "%char
                  then match digit_in 1 9 b with
                       | Some b => Some (b, rest')
                       | None => None
                       end
                  else None
              | EmptyString => None
              end
          end
      end
  | EmptyString => None
  end.

Definition expect (c : ascii) (s : string) : option string :=
  match s with
  | String a rest => if Ascii.eqb a c then Some rest else None
  | EmptyString => None
  end.

(** [datetime.strptime(s, '%Y')]: the format must match a prefix of
    [s] and leave nothing unconverted; the date is then range
    checked. *)
Definition strptime_Y (s : string) : result datetime :=
  match parse_Y s with
  | Some (y, EmptyString) => make y 1 1
  | _ => Raise ValueError
  end.

(** [datetime.strptime(s, '%Y-%m-%d')]. *)
Definition strptime_Ymd (s : string) : result datetime :=
  match parse_Y s with
  | Some (y, s1) =>
      match expect "-" s1 with
      | Some s2 =>
          match parse_m s2 with
          | Some (m, s3) =>
              match expect "-" s3 with
              | Some s4 =>
                  match parse_d s4 with
                  | Some (d, EmptyString) => make y m d
                  | _ => Raise ValueError
                  end
              | None => Raise ValueError
              end
          | None => Raise ValueError
          end
      | None => Raise ValueError
      end
  | None => Raise ValueError
  end.

End Datetime.
Import Datetime.


(* ================================================================= *)
(** ** The /generate-playlist route *)

(** A Python [set] of artist identifiers, kept as the sequence of values
    added to it.  The order in which Python iterates over the set is a
    function of that sequence which the language leaves unspecified: it
    is the parameter [set_iter] of the pipeline. *)
Definition pyset : Type := list pyval.

Definition set_add (s : pyset) (v : pyval) : result pyset :=
  if Py.hashable v then Ok (s ++ [v]) else Raise TypeError.

(** The three readings of [datetime.now()] of one run: the instant the
    window is computed from, and the dates formatted with
    [strftime('%Y-%m-%d')] into the playlist name and description. *)
Record clock : Type := mkClock {
  now : datetime;
  date_in_name : string;
  date_in_description : string
}.

(** What the route returns. *)
Inductive reply : Type :=
| NotAuthenticated   (* jsonify({'error': 'Not authenticated'}), 401 *)
| NothingFound       (* jsonify({'message': 'No recent releases found from the last week'}) *)
| Success (playlist_name : string) (playlist_url : pyval)
          (tracks_added : nat) (tracks : list pyval)
                     (* jsonify({'success': True, ...}) *)
| Failed (e : exn).  (* jsonify({'error': f'Failed to generate playlist: {str(e)}'}), 500 *)

(** [try: m  except Exception as e: return ..., 500]. *)
Definition try_except (m : M reply) : M reply :=
  fun log =>
    match m log with
    | (Raise e, log') => (Ok (Failed e), log')
    | r => r
    end.

Definition rbind {A B} (r : result A) (f : A -> result B) : result B :=
  match r with
  | Ok a => f a
  | Raise e => Raise e
  | OutOfFuel => OutOfFuel
  end.

(** [[f(x) for x in l]]. *)
Fixpoint comprehension {A B} (f : A -> result B) (l : list A)
  : result (list B) :=
  match l with
  | [] => Ok []
  | x :: l' =>
      rbind (f x) (fun y => rbind (comprehension f l') (fun ys => Ok (y :: ys)))
  end.

(** [datetime.strptime(v, '%Y-%m-%d' if len(v) == 10 else '%Y')]. *)
Definition parse_release_date (v : pyval) : result datetime :=
  rbind (Py.len v) (fun n =>
    match v with
    | PStr s => if Nat.eqb n 10 then strptime_Ymd s else strptime_Y s
    | _ => Raise TypeError
    end).

(** The dictionary appended to [recent_tracks] for one track. *)
Definition track_record (uri name artist album release_date : pyval)
  : pyval :=
  PDict [("uri", uri); ("name", name); ("artist", artist);
         ("album", album); ("release_date", release_date)].

Section Pipeline.

Variable remote : service.
Variable set_iter : pyset -> list pyval.
Variable clk : clock.
Variable fuel : nat.

(** Body of [for related in related_artists[:5]]. *)
Definition add_related (related : pyval) (all_artists : pyset) : M pyset :=
  id <- lift (Py.getitem related "id") ;;
  lift (set_add all_artists id).

(** Body of [for artist in followed_artists]. *)
Definition expand_seed (access_token : string) (artist : pyval)
    (all_artists : pyset) : M pyset :=
  id <- lift (Py.getitem artist "id") ;;
  all_artists <- lift (set_add all_artists id) ;;
  id <- lift (Py.getitem artist "id") ;;
  related_artists <- get_related_artists remote access_token id ;;
  top <- lift (Py.slice_to 5 related_artists) ;;
  top <- lift (Py.iter top) ;;
  for_each top add_related all_artists.

(** Lines 228-235: the set of followed and related artists. *)
Definition expand (access_token : string) (followed_artists : list pyval)
  : M pyset :=
  for_each followed_artists (expand_seed access_token) [].

(** Body of [for track in tracks]. *)
Definition append_track (album track : pyval) (recent_tracks : list pyval)
  : M (list pyval) :=
  uri <- lift (Py.getitem track "uri") ;;
  name <- lift (Py.getitem track "name") ;;
  artists <- lift (Py.getitem album "artists") ;;
  first <- lift (Py.getitem0 artists) ;;
  artist <- lift (Py.getitem first "name") ;;
  album_name <- lift (Py.getitem album "name") ;;
  release_date <- lift (Py.getitem album "release_date") ;;
  ret (recent_tracks
         ++ [track_record uri name artist album_name release_date]).

(** Lines 251-259: the tracks of a qualifying album. *)
Definition flatten (access_token : string) (album : pyval)
    (recent_tracks : list pyval) : M (list pyval) :=
  album_id <- lift (Py.getitem album "id") ;;
  tracks <- get_album_tracks remote access_token album_id ;;
  tracks <- lift (Py.iter tracks) ;;
  for_each tracks (append_track album) recent_tracks.

(** Body of [for album in albums]. *)
Definition check_album (access_token : string) (one_week_ago : datetime)
    (album : pyval) (recent_tracks : list pyval) : M (list pyval) :=
  v <- lift (Py.getitem album "release_date") ;;
  v <- lift (Py.getitem album "release_date") ;;
  release_date <- lift (parse_release_date v) ;;
  if Datetime.ge release_date one_week_ago
  then flatten access_token album recent_tracks
  else ret recent_tracks.

(** Body of [for artist_id in list(all_artists)[:50]]. *)
Definition check_artist (access_token : string) (one_week_ago : datetime)
    (artist_id : pyval) (recent_tracks : list pyval) : M (list pyval) :=
  albums <- get_artist_albums remote access_token artist_id 10 ;;
  albums <- lift (Py.iter albums) ;;
  for_each albums (check_album access_token one_week_ago) recent_tracks.

(** Lines 243-259. *)
Definition recent_releases (access_token : string) (all_artists : pyset)
    (one_week_ago : datetime) : M (list pyval) :=
  for_each (firstn 50 (set_iter all_artists))
    (check_artist access_token one_week_ago) [].

(** Lines 224-259: the list [recent_tracks] the route builds. *)
Definition discover (access_token : string) : M (list pyval) :=
  followed_artists <- get_followed_artists remote fuel access_token 50 ;;
  all_artists <- expand access_token followed_artists ;;
  one_week_ago <- lift (sub_timedelta (now clk) 7 0) ;;
  recent_releases access_token all_artists one_week_ago.

(** Lines 264-286: the playlist is created and filled. *)
Definition materialize (access_token : string) (recent_tracks : list pyval)
  : M reply :=
  user_profile <- get_user_profile remote access_token ;;
  let playlist_name :=
    String.append "Weekly Discoveries - " (date_in_name clk) in
  let playlist_description :=
    String.append
      "Recent releases from your followed artists and their related artists (last 7 days). Generated on "
      (date_in_description clk) in
  user_id <- lift (Py.getitem user_profile "id") ;;
  playlist <- create_playlist remote access_token user_id
                playlist_name playlist_description ;;
  track_uris <- lift (comprehension (fun track => Py.getitem track "uri")
                        recent_tracks) ;;
  playlist_id <- lift (Py.getitem playlist "id") ;;
  add_tracks_to_playlist remote access_token playlist_id track_uris ;;;
  urls <- lift (Py.getitem playlist "external_urls") ;;
  url <- lift (Py.getitem urls "spotify") ;;
  ret (Success playlist_name url (List.length recent_tracks)
         (firstn 10 recent_tracks)).

(** The route: [session] holds the access token, if any. *)
Definition generate_playlist (session : option string) : M reply :=
  match session with
  | None => ret NotAuthenticated
  | Some access_token =>
      try_except
        (recent_tracks <- discover access_token ;;
         match recent_tracks with
         | [] => ret NothingFound
         | _ :: _ => materialize access_token recent_tracks
         end)
  end.

End Pipeline.

(* ================================================================= *)
(** ** Definitions used to state the properties *)

(** The call that writes one batch. *)
Definition add_call (access_token : string) (playlist_id : pyval)
    (batch : list pyval) : call :=
  POST (PlaylistTracks playlist_id) access_token
       (PDict [("uris", PList batch)]).


(** A service that accepts every call and answers with an empty object. *)
Definition accepting : service :=
  fun _ _ => Some (mkResponse 200 (Some (PDict []))).

(** [n] track URIs, all different. *)
Definition sample_uri_strings (n : nat) : list string :=
  map (fun k => String.append "spotify:track:"
                  (String (ascii_of_nat k) EmptyString))
      (seq 0 n).

Definition sample_uris (n : nat) : list pyval :=
  map PStr (sample_uri_strings n).

Fixpoint distinctb (l : list string) : bool :=
  match l with
  | [] => true
  | x :: r => negb (existsb (String.eqb x) r) && distinctb r
  end.

(** [only P m]: running [m] appends to the log only calls that satisfy
    [P], whatever the outcome. *)
Definition only {A} (P : call -> Prop) (m : M A) : Prop :=
  forall log, exists ext, snd (m log) = log ++ ext /\ Forall P ext.

(** The outcome of [make_request] on the answer of the service. *)
Definition decode (r : option response) : result pyval :=
  match r with
  | None => Raise ConnectionError
  | Some resp =>
      if (status_code resp =? 401)%Z then Ok PNone
      else match json resp with
           | Some v => Ok v
           | None => Raise JSONDecodeError
           end
  end.

(** An album released on 2024-03-15. *)
Definition album_0315 : pyval :=
  PDict [("id", PStr "album1"); ("name", PStr "Album One");
         ("release_date", PStr "2024-03-15");
         ("artists", PList [PDict [("name", PStr "Artist One")]])].

(** The page request of the followed-artists walk. *)
Definition following_call (access_token : string) (limit : Z)
    (after : pyval) : call :=
  GET MeFollowing access_token (Some (following_params limit after)).

(** The parameters [get_artist_albums] sends. *)
Definition albums_params (limit : Z) : list (string * pyval) :=
  [("include_groups", PStr "album,single"); ("market", PStr "US");
   ("limit", PInt limit)].

(** [now] is a [datetime] from 0001-01-08 on, so that [now] minus 7 days
    is a [datetime] too. *)
Definition a_week_exists (now : datetime) : Prop :=
  (8 * us_per_day <= now < (MAXORDINAL + 1) * us_per_day)%Z.

(** Field [k] of a raw record, [None] when it has none. *)
Definition field (k : string) (v : pyval) : pyval :=
  match Py.getitem v k with
  | Ok x => x
  | _ => PNone
  end.

(** [a == b] on hashable values; [True] and [False] are the integers 1
    and 0. *)
Definition pyval_eqb (a b : pyval) : bool :=
  let int_of (x : bool) : Z := if x then 1%Z else 0%Z in
  match a, b with
  | PNone, PNone => true
  | PBool x, PBool y => Bool.eqb x y
  | PInt x, PInt y => (x =? y)%Z
  | PBool x, PInt y => (int_of x =? y)%Z
  | PInt x, PBool y => (x =? int_of y)%Z
  | PStr x, PStr y => String.eqb x y
  | _, _ => false
  end.

(** Iteration in order of first insertion, one of the orders a set can
    have. *)
Fixpoint insertion_order_from (seen : list pyval) (s : pyset) : list pyval :=
  match s with
  | [] => []
  | v :: s' =>
      if existsb (pyval_eqb v) seen then insertion_order_from seen s'
      else v :: insertion_order_from (v :: seen) s'
  end.

Definition insertion_order (s : pyset) : list pyval :=
  insertion_order_from [] s.

(** A service whose every answer is 401 Unauthorized. *)
Definition unauthorized : service :=
  fun _ _ => Some (mkResponse 401 (Some (PDict [("error",
     PDict [("status", PInt 401);
            ("message", PStr "The access token expired")])]))).

(** A service that lists one followed artist and answers every other
    call with an error object (status 429, too many requests). *)
Definition throttled : service :=
  fun _ c =>
    match c with
    | GET MeFollowing _ _ =>
        Some (mkResponse 200 (Some (PDict [("artists",
          PDict [("items", PList [PDict [("id", PStr "artist1");
                                         ("name", PStr "Artist One")]]);
                 ("next", PNone);
                 ("cursors", PDict [("after", PNone)])])])))
    | _ =>
        Some (mkResponse 429 (Some (PDict [("error",
          PDict [("status", PInt 429);
                 ("message", PStr "API rate limit exceeded")])])))
    end.

Definition sample_clock : clock :=
  mkClock (of_ymd 2024 3 22) "2024-03-22" "2024-03-22".

(** *** A paginated listing

    The followed-artists listing of the service, as the walk sees it:
    [items] are served [page_size] at a time; the answer for a page that
    is not the last carries a true [next] and the cursor of the next
    page, the answer for the last page carries [None] for both. *)
Section Listing.

Variable items : list pyval.
Variable page_size : nat.
Variable cursor : nat -> pyval.
Variable next_url : nat -> pyval.

Definition page_items (k : nat) : list pyval :=
  firstn page_size (skipn (k * page_size) items).

Definition has_more (k : nat) : bool :=
  Nat.ltb (S k * page_size) (length items).

Definition page_json (k : nat) : pyval :=
  PDict [("artists",
    PDict [("items", PList (page_items k));
           ("next", if has_more k then next_url k else PNone);
           ("cursors",
             PDict [("after", if has_more k then cursor k else PNone)]);
           ("total", PInt (Z.of_nat (length items)))])].

(** The value of [after] when page [k] is requested. *)
Definition page_after (k : nat) : pyval :=
  match k with
  | O => PNone
  | S j => cursor j
  end.

Definition page_call (access_token : string) (k : nat) : call :=
  following_call access_token (Z.of_nat page_size) (page_after k).

(** Index of the last page. *)
Definition last_page : nat := (length items - 1) / page_size.

(** A service that serves the listing, with the page index as cursor. *)
Definition listing_service (cursor_index : pyval -> nat) : service :=
  fun _ c =>
    match c with
    | GET MeFollowing _ (Some params) =>
        let k := match Py.lookup "after" params with
                 | Some v => S (cursor_index v)
                 | None => O
                 end in
        Some (mkResponse 200 (Some (page_json k)))
    | _ => None
    end.

End Listing.

Definition index_cursor (k : nat) : pyval := PInt (Z.of_nat (S k)).

Definition index_of_cursor (v : pyval) : nat :=
  match v with
  | PInt n => Nat.pred (Z.to_nat n)
  | _ => O
  end.

Definition sample_next (k : nat) : pyval :=
  PStr "https://api.spotify.com/v1/me/following?type=artist".

Definition artist_obj (id name : string) : pyval :=
  PDict [("id", PStr id); ("name", PStr name)].

Definition five_artists : list pyval :=
  [artist_obj "a1" "One"; artist_obj "a2" "Two"; artist_obj "a3" "Three";
   artist_obj "a4" "Four"; artist_obj "a5" "Five"].

(** The related-artists call for an artist. *)
Definition related_call (access_token : string) (artist_id : pyval) : call :=
  GET (ArtistRelated artist_id) access_token None.

(** The album listing call for an artist, as the route makes it. *)
Definition albums_call (access_token : string) (artist_id : pyval) : call :=
  GET (ArtistAlbums artist_id) access_token (Some (albums_params 10)).

Definition tracks_call (access_token : string) (album_id : pyval) : call :=
  GET (AlbumTracks album_id) access_token None.

Definition is_albums_call (c : call) : bool :=
  match c with
  | GET (ArtistAlbums _) _ _ => true
  | _ => false
  end.

Definition is_get (c : call) : Prop :=
  match c with
  | GET _ _ _ => True
  | POST _ _ _ => False
  end.

(** A record with a hashable [id]. *)
Definition has_id (v : pyval) : Prop :=
  exists id, Py.getitem v "id" = Ok id /\ Py.hashable id = true.

(** What the expansion adds to the set for one followed artist whose
    related artists are [related]. *)
Definition seed_members (artist : pyval) (related : list pyval)
  : list pyval :=
  field "id" artist :: map (field "id") (firstn 5 related).

Definition is_Ok {A} (r : result A) : Prop :=
  match r with
  | Ok _ => True
  | _ => False
  end.

(** *** A service with a wide fan-out

    Ten followed artists ["a"] to ["j"] on one page; every artist has six
    related artists, its own name followed by ["1"] to ["6"]; nobody has
    released anything. *)
Definition letter (k : nat) : string :=
  String (ascii_of_nat (97 + k)) EmptyString.

Definition ten_artists : list pyval :=
  map (fun k => artist_obj (letter k) (letter k)) (seq 0 10).

Definition six_related (id : pyval) : list pyval :=
  match id with
  | PStr s =>
      map (fun d => artist_obj (String.append s d) (String.append s d))
          ["1"; "2"; "3"; "4"; "5"; "6"]
  | _ => []
  end.

Definition fanout : service :=
  fun _ c =>
    match c with
    | GET MeFollowing _ _ =>
        Some (mkResponse 200 (Some (PDict [("artists",
          PDict [("items", PList ten_artists); ("next", PNone);
                 ("cursors", PDict [("after", PNone)])])])))
    | GET (ArtistRelated id) _ _ =>
        Some (mkResponse 200
                (Some (PDict [("artists", PList (six_related id))])))
    | GET (ArtistAlbums _) _ _ =>
        Some (mkResponse 200 (Some (PDict [("items", PList [])])))
    | _ => Some (mkResponse 404 (Some (PDict [("error", PStr "not found")])))
    end.

(** *** A long catalog

    An artist with twelve releases: ten from 2020 and then two from
    2024-03-20.  The album listing honours the [limit] parameter. *)
Definition album_obj (id date : string) : pyval :=
  PDict [("id", PStr id); ("name", PStr id); ("release_date", PStr date);
         ("artists", PList [PDict [("name", PStr "Artist One")]])].

Definition twelve_albums : list pyval :=
  map (fun k => album_obj (String.append "old" (letter k)) "2020-01-01")
      (seq 0 10)
  ++ [album_obj "new1" "2024-03-20"; album_obj "new2" "2024-03-20"].

Definition limit_of (params : option (list (string * pyval))) : nat :=
  match params with
  | Some p => match Py.lookup "limit" p with
              | Some (PInt n) => Z.to_nat n
              | _ => 20
              end
  | None => 20
  end.

Definition long_catalog : service :=
  fun _ c =>
    match c with
    | GET (ArtistAlbums _) _ params =>
        Some (mkResponse 200 (Some (PDict [("items",
          PList (firstn (limit_of params) twelve_albums))])))
    | GET (AlbumTracks _) _ _ =>
        Some (mkResponse 200 (Some (PDict [("items",
          PList [PDict [("uri", PStr "spotify:track:t1");
                        ("name", PStr "Track One")]])])))
    | _ => Some (mkResponse 404 (Some (PDict [("error", PStr "not found")])))
    end.

(** *** A complete run

    Two followed artists, each with two related artists; of the six,
    only ["r1"] has a release inside the window, an album of two tracks
    released on 2024-03-15; the run takes place on 2024-03-18. *)
Definition two_tracks : list pyval :=
  [PDict [("uri", PStr "spotify:track:t1"); ("name", PStr "Track One")];
   PDict [("uri", PStr "spotify:track:t2"); ("name", PStr "Track Two")]].

Definition scenario : service :=
  fun _ c =>
    let ok v := Some (mkResponse 200 (Some v)) in
    match c with
    | GET MeFollowing _ _ =>
        ok (PDict [("artists",
              PDict [("items", PList [artist_obj "f1" "F One";
                                      artist_obj "f2" "F Two"]);
                     ("next", PNone);
                     ("cursors", PDict [("after", PNone)])])])
    | GET (ArtistRelated (PStr id)) _ _ =>
        ok (PDict [("artists", PList
              (if String.eqb id "f1"
               then [artist_obj "r1" "R One"; artist_obj "r2" "R Two"]
               else if String.eqb id "f2"
               then [artist_obj "r3" "R Three"; artist_obj "r4" "R Four"]
               else []))])
    | GET (ArtistAlbums (PStr id)) _ _ =>
        ok (PDict [("items", PList
              (if String.eqb id "r1" then [album_0315]
               else [album_obj "old" "2020-01-01"]))])
    | GET (AlbumTracks _) _ _ => ok (PDict [("items", PList two_tracks)])
    | GET Me _ _ => ok (PDict [("id", PStr "user1")])
    | POST (UserPlaylists _) _ _ =>
        Some (mkResponse 201 (Some (PDict
          [("id", PStr "playlist1");
           ("external_urls",
             PDict [("spotify",
                     PStr "https://open.spotify.com/playlist/playlist1")])])))
    | POST (PlaylistTracks _) _ _ =>
        Some (mkResponse 201 (Some (PDict [("snapshot_id", PStr "s1")])))
    | _ => None
    end.

Definition scenario_clock : clock :=
  mkClock (of_ymd 2024 3 18) "2024-03-18" "2024-03-18".

Definition is_post (c : call) : bool :=
  match c with
  | POST _ _ _ => true
  | GET _ _ _ => false
  end.

(* ================================================================= *)
(** ** Definitions used to state further properties *)

(** [data] is a page of the followed-artists listing that holds the
    artists [new], a true [next] and the cursor [after]. *)
Definition page_with_next (data : pyval) (new : list pyval) (after : pyval)
  : Prop :=
  Py.truthy data = true
  /\ exists page items next cursors,
       Py.getitem data "artists" = Ok page
       /\ Py.getitem page "items" = Ok items
       /\ Py.iter items = Ok new
       /\ Py.getitem page "next" = Ok next
       /\ Py.truthy next = true
       /\ Py.getitem page "cursors" = Ok cursors
       /\ Py.getitem cursors "after" = Ok after.

(** A page with a true [next]. *)
Definition linked_page (items : list pyval) (after : pyval) : pyval :=
  PDict [("artists",
    PDict [("items", PList items);
           ("next", PStr "https://api.spotify.com/v1/me/following?after=x");
           ("cursors", PDict [("after", after)])])].

(** A service whose listing never ends: every page has a [next]. *)
Definition endless : service :=
  fun _ _ =>
    Some (mkResponse 200
            (Some (linked_page [artist_obj "a1" "One"] (PStr "a1")))).

(** A service that hands out an empty cursor with its first page and
    ends the listing on the second request. *)
Definition empty_cursor : service :=
  fun h _ =>
    match h with
    | [] =>
        Some (mkResponse 200
                (Some (linked_page [artist_obj "a1" "One"] (PStr ""))))
    | _ => Some (mkResponse 200 (Some (page_json five_artists 50
                                         index_cursor sample_next 0)))
    end.

(** One of the dictionaries the route appends to [recent_tracks]. *)
Definition is_track_record (v : pyval) : Prop :=
  exists uri name artist album release_date,
    v = track_record uri name artist album release_date.

(** The call that creates the playlist. *)
Definition create_call (access_token : string) (user_id : pyval)
    (name description : string) : call :=
  POST (UserPlaylists user_id) access_token
       (PDict [("name", PStr name); ("description", PStr description);
               ("public", PBool false)]).

Definition me_call (access_token : string) : call :=
  GET Me access_token None.

Definition playlist_name (clk : clock) : string :=
  String.append "Weekly Discoveries - " (date_in_name clk).

Definition playlist_description (clk : clock) : string :=
  String.append
    "Recent releases from your followed artists and their related artists (last 7 days). Generated on "
    (date_in_description clk).

(** The outcome of making the calls [cs] one after the other, stopping
    at the first that fails in transport. *)
Fixpoint write_outcome (remote : service) (cs : list call)
    (log : list call) : result unit * list call :=
  match cs with
  | [] => (Ok tt, log)
  | c :: cs' =>
      match remote log c with
      | Some _ => write_outcome remote cs' (log ++ [c])
      | None => (Raise ConnectionError, log ++ [c])
      end
  end.

(** A service that accepts two write calls and is unreachable at the
    third. *)
Definition drops_third_write : service :=
  fun h c =>
    match c with
    | POST (PlaylistTracks _) _ _ =>
        if Nat.ltb (length (filter is_post h)) 2
        then Some (mkResponse 201 (Some (PDict [("snapshot_id", PStr "s")])))
        else None
    | _ => Some (mkResponse 200 (Some (PDict [])))
    end.

(** The answer of the service to [create_playlist], decoded whatever
    its status. *)
Definition created (r : option response) : result pyval :=
  match r with
  | None => Raise ConnectionError
  | Some resp =>
      match json resp with
      | Some v => Ok v
      | None => Raise JSONDecodeError
      end
  end.

(** A service that knows the user but refuses to create playlists
    (status 403 with an error object). *)
Definition create_refused : service :=
  fun _ c =>
    match c with
    | GET Me _ _ => Some (mkResponse 200 (Some (PDict [("id", PStr "user1")])))
    | POST (UserPlaylists _) _ _ =>
        Some (mkResponse 403 (Some (PDict [("error",
          PDict [("status", PInt 403);
                 ("message", PStr "Insufficient client scope")])])))
    | _ => Some (mkResponse 200 (Some (PDict [])))
    end.

(** A service whose answer to the creation has an [id] but no
    [external_urls]. *)
Definition no_urls : service :=
  fun _ c =>
    match c with
    | GET Me _ _ => Some (mkResponse 200 (Some (PDict [("id", PStr "user1")])))
    | POST (UserPlaylists _) _ _ =>
        Some (mkResponse 201 (Some (PDict [("id", PStr "playlist1")])))
    | _ => Some (mkResponse 200 (Some (PDict [])))
    end.

Definition two_records : list pyval :=
  [track_record (PStr "spotify:track:t1") (PStr "Track One")
     (PStr "Artist One") (PStr "Album One") (PStr "2024-03-15");
   track_record (PStr "spotify:track:t2") (PStr "Track Two")
     (PStr "Artist One") (PStr "Album One") (PStr "2024-03-15")].

(** The reply of a successful run for the playlist [playlist]. *)
Definition success_reply (clk : clock) (playlist : pyval)
    (recent_tracks : list pyval) : result reply :=
  rbind (Py.getitem playlist "external_urls") (fun urls =>
  rbind (Py.getitem urls "spotify") (fun url =>
    Ok (Success (playlist_name clk) url (length recent_tracks)
          (firstn 10 recent_tracks)))).

(** The service of the complete run, with a token that has expired by
    the time the profile is asked for. *)
Definition expires_midway : service :=
  fun h c =>
    match c with
    | GET Me _ _ =>
        Some (mkResponse 401 (Some (PDict [("error",
          PDict [("status", PInt 401);
                 ("message", PStr "The access token expired")])])))
    | _ => scenario h c
    end.

(** [l] is [recent_tracks] with track records appended. *)
Definition extends_with_records (recent_tracks l : list pyval) : Prop :=
  exists added, l = recent_tracks ++ added /\ Forall is_track_record added.

(** An album listing in which a release of month precision stands
    between an old album and a recent one. *)
Definition month_precision : service :=
  fun _ c =>
    match c with
    | GET (ArtistAlbums _) _ _ =>
        Some (mkResponse 200 (Some (PDict [("items",
          PList [album_obj "old" "2020-01-01";
                 album_obj "month" "2024-03";
                 album_obj "new" "2024-03-15"])])))
    | _ => Some (mkResponse 200 (Some (PDict [])))
    end.

(** [year]-[month]-[day] is a date of the calendar. *)
Definition valid_date (year month day : Z) : Prop :=
  (MINYEAR <= year <= MAXYEAR)%Z /\ (1 <= month <= 12)%Z
  /\ (1 <= day <= days_in_month year month)%Z.

(** Calendar order. *)
Definition date_before (y m d y' m' d' : Z) : Prop :=
  (y < y' \/ (y = y' /\ (m < m' \/ (m = m' /\ d < d'))))%Z.

(** [now] falls in the year [year]. *)
Definition in_year (year : Z) (now : datetime) : Prop :=
  (of_ymd year 1 1 <= now < of_ymd (year + 1) 1 1)%Z.

(* ================================================================= *)
(** ** Authorization: get_auth_url, get_access_token, the /callback
       and /dashboard routes *)

(** The client credentials read from the environment, [None] when the
    variable is not set. *)
Record config : Type := mkConfig {
  SPOTIFY_CLIENT_ID : option string;
  SPOTIFY_CLIENT_SECRET : option string
}.

Definition SPOTIFY_REDIRECT_URI : string := "http://localhost:5000/callback".

Definition SPOTIFY_SCOPE : string :=
  "user-follow-read playlist-modify-public playlist-modify-private user-read-private".

(** The Flask session, with the keys the application uses; a key that
    is absent is [None]. *)
Record web_session : Type := mkSession {
  oauth_state : option string;           (* session['oauth_state'] *)
  session_access_token : option pyval;   (* session['access_token'] *)
  session_refresh_token : option pyval;  (* session['refresh_token'] *)
  token_expires_at : option datetime     (* session['token_expires_at'] *)
}.

Definition opt_str (o : option string) : pyval :=
  match o with
  | Some s => PStr s
  | None => PNone
  end.

(** The authorization address: the query parameters handed to
    [urlencode], in the order of the dictionary. *)
Definition auth_params (cfg : config) (state : string)
  : list (string * pyval) :=
  [("client_id", opt_str (SPOTIFY_CLIENT_ID cfg));
   ("response_type", PStr "code");
   ("redirect_uri", PStr SPOTIFY_REDIRECT_URI);
   ("scope", PStr SPOTIFY_SCOPE);
   ("state", PStr state)].

(** [get_auth_url]; [state] is the value [secrets.token_urlsafe(16)]
    returns.  The result is the parameters of the address and the
    session with the state stored. *)
Definition get_auth_url (cfg : config) (state : string) (s : web_session)
  : list (string * pyval) * web_session :=
  (auth_params cfg state,
   mkSession (Some state) (session_access_token s)
     (session_refresh_token s) (token_expires_at s)).

(** A POST to the token address: the two halves of the Basic
    authorization header and the form data. *)
Record token_call : Type := mkTokenCall {
  basic_id : option string;
  basic_secret : option string;
  form : list (string * pyval)
}.

Definition token_service : Type :=
  list token_call -> token_call -> option response.

Definition code_call (cfg : config) (code : option string) : token_call :=
  mkTokenCall (SPOTIFY_CLIENT_ID cfg) (SPOTIFY_CLIENT_SECRET cfg)
    [("grant_type", PStr "authorization_code");
     ("code", opt_str code);
     ("redirect_uri", PStr SPOTIFY_REDIRECT_URI)].

Definition refresh_call (cfg : config) (refresh_token : pyval)
  : token_call :=
  mkTokenCall (SPOTIFY_CLIENT_ID cfg) (SPOTIFY_CLIENT_SECRET cfg)
    [("grant_type", PStr "refresh_token");
     ("refresh_token", refresh_token)].

(** [requests.post(...)] to the token address, then [response.json()]. *)
Definition token_post (accounts : token_service) (c : token_call)
    (tlog : list token_call) : result pyval * list token_call :=
  (match accounts tlog c with
   | Some resp =>
       match json resp with
       | Some v => Ok v
       | None => Raise JSONDecodeError
       end
   | None => Raise ConnectionError
   end,
   tlog ++ [c]).

Definition get_access_token (cfg : config) (accounts : token_service)
    (code : option string) (tlog : list token_call)
  : result pyval * list token_call :=
  token_post accounts (code_call cfg code) tlog.

Definition refresh_access_token (cfg : config) (accounts : token_service)
    (refresh_token : pyval) (tlog : list token_call)
  : result pyval * list token_call :=
  token_post accounts (refresh_call cfg refresh_token) tlog.

(** [k in s] for two strings. *)
Fixpoint is_substring (k s : string) : bool :=
  String.prefix k s
  || match s with
     | String _ s' => is_substring k s'
     | EmptyString => false
     end.

(** [k in v] for a string [k]: a key of a dictionary, an element of a
    list, a part of a string. *)
Definition py_in (k : string) (v : pyval) : result bool :=
  match v with
  | PDict d => Ok (match Py.lookup k d with Some _ => true | None => false end)
  | PList l => Ok (existsb (fun x => pyval_eqb x (PStr k)) l)
  | PStr s => Ok (is_substring k s)
  | _ => Raise TypeError
  end.

(** [d.get(k, default)]. *)
Definition dict_get (d : list (string * pyval)) (k : string)
    (default : pyval) : pyval :=
  match Py.lookup k d with
  | Some v => v
  | None => default
  end.

(** [timedelta(seconds=v)], as a number of seconds. *)
Definition timedelta_seconds (v : pyval) : result Z :=
  match v with
  | PInt n => Ok n
  | PBool b => Ok (if b then 1%Z else 0%Z)
  | _ => Raise TypeError
  end.

(** [t + timedelta(seconds=seconds)]. *)
Definition add_seconds (t : datetime) (seconds : Z) : result datetime :=
  let r := (t + seconds * us_per_second)%Z in
  if ((1 <=? r / us_per_day) && (r / us_per_day <=? MAXORDINAL))%Z
  then Ok r
  else Raise OverflowError.

(** [if o:] for a query argument. *)
Definition given (o : option string) : bool :=
  match o with
  | Some s => negb (Nat.eqb (String.length s) 0)
  | None => false
  end.

(** [state != session.get('oauth_state')]. *)
Definition state_differs (state : option string) (stored : option string)
  : bool :=
  match state, stored with
  | Some a, Some b => negb (String.eqb a b)
  | None, None => false
  | _, _ => true
  end.

(** What a route returns. *)
Inductive page : Type :=
| AuthorizationFailed (error : string)  (* f"Authorization failed: {error}" *)
| InvalidState                          (* "Invalid state parameter" *)
| TokenFailed (token_data : pyval)      (* f"Failed to get access token: {token_data}" *)
| RedirectDashboard                     (* redirect(url_for('dashboard')) *)
| RedirectLogin                         (* redirect(url_for('login')) *)
| RedirectAuthorize (params : list (string * pyval))  (* redirect(auth_url) *)
| RenderDashboard (user : pyval).       (* render_template('dashboard.html', user=...) *)

(** The outcome of a route that uses the session and the token
    address: the page or the exception, the session and the calls. *)
Definition outcome : Type :=
  result page * web_session * list token_call.

(** The three assignments to the session in [callback], for the token
    data [d]. *)
Definition store_tokens (now : datetime) (access : pyval)
    (d : list (string * pyval)) (s : web_session) (tlog : list token_call)
  : outcome :=
  let s1 := mkSession (oauth_state s) (Some access)
              (session_refresh_token s) (token_expires_at s) in
  let s2 := mkSession (oauth_state s) (Some access)
              (Some (dict_get d "refresh_token" PNone))
              (token_expires_at s) in
  match timedelta_seconds (dict_get d "expires_in" (PInt 3600)) with
  | Ok seconds =>
      match add_seconds now seconds with
      | Ok t =>
          (Ok RedirectDashboard,
           mkSession (oauth_state s) (Some access)
             (Some (dict_get d "refresh_token" PNone)) (Some t),
           tlog)
      | Raise e => (Raise e, s2, tlog)
      | OutOfFuel => (OutOfFuel, s2, tlog)
      end
  | Raise e => (Raise e, s2, tlog)
  | OutOfFuel => (OutOfFuel, s2, tlog)
  end.

(** The /callback route: [code], [state] and [error] are the query
    arguments, [now] the reading of [datetime.now()]. *)
Definition callback (cfg : config) (accounts : token_service)
    (now : datetime) (code state error : option string)
    (s : web_session) (tlog : list token_call) : outcome :=
  if given error
  then (Ok (AuthorizationFailed (match error with
                                 | Some e => e
                                 | None => EmptyString
                                 end)), s, tlog)
  else if negb (given state) || state_differs state (oauth_state s)
  then (Ok InvalidState, s, tlog)
  else
    match get_access_token cfg accounts code tlog with
    | (Ok token_data, tlog') =>
        match py_in "access_token" token_data with
        | Ok true =>
            match Py.getitem token_data "access_token" with
            | Ok access =>
                match token_data with
                | PDict d => store_tokens now access d s tlog'
                | _ => (Raise TypeError, s, tlog')
                end
            | Raise e => (Raise e, s, tlog')
            | OutOfFuel => (OutOfFuel, s, tlog')
            end
        | Ok false => (Ok (TokenFailed token_data), s, tlog')
        | Raise e => (Raise e, s, tlog')
        | OutOfFuel => (OutOfFuel, s, tlog')
        end
    | (Raise e, tlog') => (Raise e, s, tlog')
    | (OutOfFuel, tlog') => (OutOfFuel, s, tlog')
    end.

(** The /login route. *)
Definition login (cfg : config) (state : string) (s : web_session)
  : page * web_session :=
  let (params, s') := get_auth_url cfg state s in
  (RedirectAuthorize params, s').

(** The /logout route: [session.clear()]. *)
Definition logout (s : web_session) : web_session :=
  mkSession None None None None.

(** The /dashboard route; [session] holds the access token, if any. *)
Definition dashboard (remote : service) (session : option string)
  : M page :=
  match session with
  | None => ret RedirectLogin
  | Some access_token =>
      user_profile <- get_user_profile remote access_token ;;
      if negb (Py.truthy user_profile) then ret RedirectLogin
      else ret (RenderDashboard user_profile)
  end.

(** A token address that issues a token for the code ["good"] and
    answers any other code with an error object. *)
Definition issuing : token_service :=
  fun _ c =>
    match Py.lookup "code" (form c) with
    | Some (PStr "good") =>
        Some (mkResponse 200 (Some (PDict
          [("access_token", PStr "token1"); ("token_type", PStr "Bearer");
           ("expires_in", PInt 3600); ("refresh_token", PStr "refresh1")])))
    | _ =>
        Some (mkResponse 400 (Some (PDict
          [("error", PStr "invalid_grant");
           ("error_description", PStr "Invalid authorization code")])))
    end.

Definition sample_config : config :=
  mkConfig (Some "client") (Some "secret").

Definition empty_session : web_session := mkSession None None None None.

(* ================================================================= *)
(** ** Definitions used to state the properties of whole runs *)

(** The instant the route compares with the start of the window. *)
Definition release_instant (album : pyval) : result datetime :=
  rbind (Py.getitem album "release_date") parse_release_date.

(** The test [release_date >= one_week_ago] for an album whose date
    parses. *)
Definition in_window (window_start : datetime) (album : pyval) : bool :=
  match release_instant album with
  | Ok d => Datetime.ge d window_start
  | _ => false
  end.

(** [album['artists'][0]['name']]. *)
Definition primary_artist_name (album : pyval) : result pyval :=
  rbind (Py.getitem album "artists") (fun artists =>
  rbind (Py.getitem0 artists) (fun first => Py.getitem first "name")).

(** The records of the tracks [tracks] of [album]. *)
Definition album_records (album : pyval) (tracks : list pyval)
  : list pyval :=
  map (fun t =>
         track_record (field "uri" t) (field "name" t)
           (match primary_artist_name album with
            | Ok n => n
            | _ => PNone
            end)
           (field "name" album) (field "release_date" album))
      tracks.

Definition well_formed_track (t : pyval) : Prop :=
  (exists u, Py.getitem t "uri" = Ok u)
  /\ (exists n, Py.getitem t "name" = Ok n).

(** An album with the fields [flatten] reads. *)
Definition flattenable (album : pyval) : Prop :=
  (exists id, Py.getitem album "id" = Ok id)
  /\ (exists n, primary_artist_name album = Ok n)
  /\ (exists n, Py.getitem album "name" = Ok n).

(** The tracks found among [albums], [tracks_of] giving the track
    listing of an album. *)
Definition found_in (window_start : datetime)
    (tracks_of : pyval -> list pyval) (albums : list pyval) : list pyval :=
  flat_map (fun a => if in_window window_start a
                     then album_records a (tracks_of a) else [])
           albums.

(** The calls made for one artist whose listing is [albums]: the album
    listing, then the track listing of every album in the window. *)
Definition artist_calls (access_token : string) (window_start : datetime)
    (artist_id : pyval) (albums : list pyval) : list call :=
  albums_call access_token artist_id
  :: map (fun a => tracks_call access_token (field "id" a))
       (filter (in_window window_start) albums).

Definition is_tracks_call (c : call) : bool :=
  match c with
  | GET (AlbumTracks _) _ _ => true
  | _ => false
  end.

(** The call [c], made after the calls [h], is answered with a true
    value that lacks the field the caller reads: reading it raises
    [e]. *)
Definition bad_answer (remote : service) (h : list call) (c : call)
    (e : exn) : Prop :=
  match c with
  | GET MeFollowing _ _ =>
      exists data,
        decode (remote h c) = Ok data /\ Py.truthy data = true
        /\ rbind (Py.getitem data "artists")
             (fun page => rbind (Py.getitem page "items") Py.iter)
           = Raise e
  | GET (ArtistRelated _) _ _ =>
      exists data,
        decode (remote h c) = Ok data /\ Py.truthy data = true
        /\ Py.getitem data "artists" = Raise e
  | GET (ArtistAlbums _) _ _ | GET (AlbumTracks _) _ _ =>
      exists data,
        decode (remote h c) = Ok data /\ Py.truthy data = true
        /\ Py.getitem data "items" = Raise e
  | _ => False
  end.

(** [m] stops at the first call with a bad answer, raising what reading
    the answer raises. *)
Definition stops_at_bad (remote : service) {A} (m : M A) : Prop :=
  forall log,
    exists ext,
      snd (m log) = log ++ ext
      /\ forall h c rest e,
           ext = h ++ c :: rest ->
           bad_answer remote (log ++ h) c e ->
           fst (m log) = Raise e /\ rest = [].

(** A service that serves the pages before page [k] of a listing and
    answers the request of page [k], and any later one, with 401. *)
Definition expiring_listing (items : list pyval) (page_size k : nat)
  : service :=
  fun _ c =>
    match c with
    | GET MeFollowing _ (Some params) =>
        let j := match Py.lookup "after" params with
                 | Some v => S (index_of_cursor v)
                 | None => O
                 end in
        if Nat.ltb j k
        then Some (mkResponse 200
                     (Some (page_json items page_size index_cursor
                              sample_next j)))
        else Some (mkResponse 401 None)
    | _ => None
    end.

(** The complete run at the very start of 2024-03-22, seven days after
    the release, and one second later. *)
Definition clock_at_boundary : clock :=
  mkClock (of_ymd 2024 3 22) "2024-03-22" "2024-03-22".

Definition clock_past_boundary : clock :=
  mkClock (of_ymd 2024 3 22 + us_per_second)%Z "2024-03-22" "2024-03-22".

(** The catalog of the complete run. *)
Definition scenario_albums (artist_id : pyval) : list pyval :=
  match artist_id with
  | PStr id => if String.eqb id "r1" then [album_0315]
               else [album_obj "old" "2020-01-01"]
  | _ => []
  end.

Definition scenario_followed : list pyval :=
  [artist_obj "f1" "F One"; artist_obj "f2" "F Two"].

Definition scenario_related (artist_id : pyval) : list pyval :=
  match artist_id with
  | PStr id =>
      if String.eqb id "f1"
      then [artist_obj "r1" "R One"; artist_obj "r2" "R Two"]
      else if String.eqb id "f2"
      then [artist_obj "r3" "R Three"; artist_obj "r4" "R Four"]
      else []
  | _ => []
  end.

Definition scenario_set : pyset :=
  [PStr "f1"; PStr "r1"; PStr "r2"; PStr "f2"; PStr "r3"; PStr "r4"].

(** A service with one followed artist whose every other answer is
    an empty object. *)
Definition silent : service :=
  fun _ c =>
    match c with
    | GET MeFollowing _ _ =>
        Some (mkResponse 200 (Some (PDict [("artists",
          PDict [("items", PList [artist_obj "artist1" "Artist One"]);
                 ("next", PNone);
                 ("cursors", PDict [("after", PNone)])])])))
    | _ => Some (mkResponse 200 (Some (PDict [])))
    end.

(** A call of the last stage of the route: the profile or a write. *)
Definition is_materialize_call (c : call) : Prop :=
  match c with
  | GET Me _ _ => True
  | POST _ _ _ => True
  | _ => False
  end.

(** A service with one followed artist whose every other answer is
    the array [[1]]. *)
Definition array_answers : service :=
  fun _ c =>
    match c with
    | GET MeFollowing _ _ =>
        Some (mkResponse 200 (Some (PDict [("artists",
          PDict [("items", PList [artist_obj "artist1" "Artist One"]);
                 ("next", PNone);
                 ("cursors", PDict [("after", PNone)])])])))
    | _ => Some (mkResponse 200 (Some (PList [PInt 1])))
    end.

(** The answer [r] decodes to a false value: the [None] that stands for
    a 401, an empty object, an empty array, and the like. *)
Definition no_data (r : option response) : Prop :=
  exists data, decode r = Ok data /\ Py.truthy data = false.

(** The field a listing call reads first in its answer. *)
Definition listing_key (c : call) : option string :=
  match c with
  | GET MeFollowing _ _ => Some "artists"
  | GET (ArtistRelated _) _ _ => Some "artists"
  | GET (ArtistAlbums _) _ _ => Some "items"
  | GET (AlbumTracks _) _ _ => Some "items"
  | _ => None
  end.
(* ================================================================= *)
(** ** Properties *)

(** *** strptime on sample strings *)

Example strptime_ex1 :
  strptime_Ymd "2024-03- 5" = Ok (of_ymd 2024 3 5)
  /\ strptime_Ymd "2024-3-015" = Raise ValueError
  /\ strptime_Ymd "2024-02-30" = Raise ValueError
  /\ strptime_Ymd "0000-01-01" = Raise ValueError
  /\ strptime_Ymd "2024-13-01" = Raise ValueError
  /\ strptime_Ymd "2024-02-29" = Ok (of_ymd 2024 2 29)
  /\ strptime_Y "0000" = Raise ValueError
  /\ strptime_Y "20245" = Raise ValueError
  /\ strptime_Y "9999" = Ok (of_ymd 9999 1 1)
  /\ ymd2ord 1 1 1 = 1%Z
  /\ ymd2ord 9999 12 31 = MAXORDINAL.
Proof. repeat split; reflexivity. Qed.

(** *** The monad *)

Lemma bind_Ok {A B} (m : M A) (f : A -> M B) log a log' :
  m log = (Ok a, log') -> bind m f log = f a log'.
Proof. unfold bind; intros ->; reflexivity. Qed.

Lemma bind_lift_Ok {A B} (a : A) (f : A -> M B) log :
  bind (lift (Ok a)) f log = f a log.
Proof. reflexivity. Qed.

Lemma bind_lift_Raise {A B} e (f : A -> M B) log :
  bind (lift (Raise e)) f log = (Raise e, log).
Proof. reflexivity. Qed.

Lemma for_each_app {A S} (l1 l2 : list A) (body : A -> S -> M S) s log :
  for_each (l1 ++ l2) body s log
  = bind (for_each l1 body s) (for_each l2 body) log.
Proof.
  revert s log; induction l1 as [|x l1 IH]; intros s log; simpl.
  - reflexivity.
  - unfold bind. destruct (body x s log) as [[s'| |] log']; auto.
Qed.

(** *** Batches *)

Lemma slice_length {A} i (l : list A) :
  List.length (Py.slice i (i + 100) l) = Nat.min 100 (List.length l - i).
Proof.
  unfold Py.slice. rewrite length_firstn, length_skipn.
  replace (i + 100 - i) with 100 by lia. reflexivity.
Qed.

Lemma range_from_nth fuel k n i :
  n <= k + fuel * 100 -> k + i * 100 < n ->
  nth_error (Py.range_from fuel k n 100) i = Some (k + i * 100).
Proof.
  revert k i; induction fuel as [|fuel IH]; intros k i Hf Hi; [lia|].
  simpl. destruct (Nat.ltb_spec k n); [|lia].
  destruct i as [|i]; simpl.
  - f_equal; lia.
  - rewrite IH by lia. f_equal; lia.
Qed.

Lemma range_from_bound fuel k n i x :
  nth_error (Py.range_from fuel k n 100) i = Some x ->
  x = k + i * 100 /\ x < n.
Proof.
  revert k i; induction fuel as [|fuel IH]; intros k i H.
  - destruct i; discriminate.
  - simpl in H. destruct (Nat.ltb_spec k n); [|destruct i; discriminate].
    destruct i as [|i]; simpl in H.
    + inversion H; subst; lia.
    + apply IH in H. lia.
Qed.

Lemma batches_from_concat (l : list pyval) fuel k :
  List.length l <= k + fuel * 100 ->
  concat (map (fun i => Py.slice i (i + 100) l)
            (Py.range_from fuel k (List.length l) 100))
  = skipn k l.
Proof.
  revert k; induction fuel as [|fuel IH]; intros k Hf; simpl.
  - symmetry. apply skipn_all2. lia.
  - destruct (Nat.ltb_spec k (List.length l)); simpl.
    + rewrite IH by lia. unfold Py.slice.
      replace (k + 100 - k) with 100 by lia.
      replace (k + 100) with (100 + k) by lia.
      rewrite <- skipn_skipn. apply firstn_skipn.
    + symmetry. apply skipn_all2. lia.
Qed.

Lemma batches_concat (l : list pyval) : concat (batches l) = l.
Proof.
  unfold batches, Py.range. rewrite batches_from_concat by lia.
  reflexivity.
Qed.

Lemma batches_nth (l : list pyval) i b :
  nth_error (batches l) i = Some b ->
  b = firstn 100 (skipn (i * 100) l) /\ i * 100 < List.length l.
Proof.
  unfold batches, Py.range. rewrite nth_error_map.
  destruct (nth_error _ i) as [x|] eqn:E; [|discriminate].
  apply range_from_bound in E. destruct E as [-> Hlt].
  simpl. intros [= <-]. unfold Py.slice.
  replace (i * 100 + 100 - i * 100) with 100 by lia. split; [reflexivity|lia].
Qed.

Lemma batches_sizes (l : list pyval) :
  Forall (fun b => 1 <= List.length b <= 100) (batches l).
Proof.
  apply Forall_forall. intros b Hb.
  apply In_nth_error in Hb. destruct Hb as [i Hi].
  apply batches_nth in Hi. destruct Hi as [-> Hlt].
  rewrite length_firstn, length_skipn. lia.
Qed.

Lemma batches_lengths (l : list pyval) :
  map (@List.length pyval) (batches l)
  = map (fun i => Nat.min 100 (List.length l - i))
      (Py.range 0 (List.length l) 100).
Proof.
  unfold batches. rewrite map_map. apply map_ext.
  intros i. apply slice_length.
Qed.

Lemma In_firstn_le {A} (l : list A) a b x :
  a <= b -> In x (firstn a l) -> In x (firstn b l).
Proof.
  revert a b; induction l as [|y l IH]; intros a b Hab Hx.
  - rewrite firstn_nil in Hx. contradiction.
  - destruct a as [|a]; [contradiction|].
    destruct b as [|b]; [lia|].
    simpl in *. destruct Hx as [->|Hx]; [left; reflexivity|].
    right. apply (IH a b); [lia|assumption].
Qed.

Lemma In_firstn_skipn_lt {A} (l : list A) i j x :
  i + 100 <= j ->
  In x (firstn 100 (skipn i l)) -> In x (firstn j l).
Proof.
  revert l j; induction i as [|i IH]; intros l j Hij Hx.
  - simpl in Hx. apply (In_firstn_le l 100 j); [lia|assumption].
  - destruct l as [|y l].
    + simpl in Hx. contradiction.
    + destruct j as [|j]; [lia|].
      simpl. right. apply IH; [lia|]. exact Hx.
Qed.

Lemma NoDup_app_disjoint {A} (l1 l2 : list A) x :
  NoDup (l1 ++ l2) -> In x l1 -> In x l2 -> False.
Proof.
  induction l1 as [|a l1 IH]; simpl; intros Hnd H1 H2; [assumption|].
  inversion Hnd as [|? ? Hna Hnd']; subst.
  destruct H1 as [->|H1].
  - apply Hna. apply in_or_app. right. assumption.
  - apply IH; assumption.
Qed.

Lemma batches_disjoint_lt (l : list pyval) i j b1 b2 u :
  NoDup l -> i < j ->
  nth_error (batches l) i = Some b1 -> nth_error (batches l) j = Some b2 ->
  In u b1 -> In u b2 -> False.
Proof.
  intros Hnd Hij H1 H2 Hu1 Hu2.
  apply batches_nth in H1. apply batches_nth in H2.
  destruct H1 as [-> _]. destruct H2 as [-> _].
  apply (In_firstn_skipn_lt l (i * 100) (j * 100)) in Hu1; [|nia].
  assert (Hu2' : In u (skipn (j * 100) l)).
  { rewrite <- (firstn_skipn 100 (skipn (j * 100) l)).
    apply in_or_app. left. assumption. }
  rewrite <- (firstn_skipn (j * 100) l) in Hnd.
  exact (NoDup_app_disjoint _ _ u Hnd Hu1 Hu2').
Qed.

Lemma batches_disjoint (l : list pyval) i j b1 b2 u :
  NoDup l -> i <> j ->
  nth_error (batches l) i = Some b1 -> nth_error (batches l) j = Some b2 ->
  In u b1 -> ~ In u b2.
Proof.
  intros Hnd Hij H1 H2 Hu1 Hu2.
  destruct (Nat.lt_ge_cases i j).
  - exact (batches_disjoint_lt l i j b1 b2 u Hnd H H1 H2 Hu1 Hu2).
  - assert (j < i) by lia.
    exact (batches_disjoint_lt l j i b2 b1 u Hnd H0 H2 H1 Hu2 Hu1).
Qed.

Lemma add_tracks_log remote access_token playlist_id track_uris
    (idx : list nat) log :
  (forall h b, remote h (add_call access_token playlist_id b) <> None) ->
  for_each idx
    (fun i (_ : unit) =>
       perform remote
         (POST (PlaylistTracks playlist_id) access_token
            (PDict [("uris", PList (Py.slice i (i + 100) track_uris))])) ;;;
       ret tt) tt log
  = (Ok tt,
     log ++ map (fun i => add_call access_token playlist_id
                            (Py.slice i (i + 100) track_uris)) idx).
Proof.
  intros Hup. revert log. induction idx as [|i idx IH]; intros log; simpl.
  - unfold ret. rewrite app_nil_r. reflexivity.
  - unfold bind at 1. unfold bind at 1. unfold perform.
    specialize (Hup log (Py.slice i (i + 100) track_uris)).
    unfold add_call in Hup.
    destruct (remote log _) as [r|]; [|congruence].
    unfold ret at 1. rewrite IH. rewrite <- app_assoc. reflexivity.
Qed.

Lemma distinctb_NoDup (l : list string) :
  distinctb l = true -> NoDup (map PStr l).
Proof.
  induction l as [|x r IH]; simpl; intros H.
  - constructor.
  - apply andb_prop in H. destruct H as [Hx Hr].
    constructor; [|apply IH; assumption].
    intros Hin. apply in_map_iff in Hin.
    destruct Hin as [y [Hy Hin]]. inversion Hy; subst y.
    apply negb_true_iff in Hx.
    assert (existsb (String.eqb x) r = true); [|congruence].
    apply existsb_exists. exists x. split; [assumption|].
    apply String.eqb_refl.
Qed.

(** C5 (amended).  When the service accepts the writes,
    [add_tracks_to_playlist] issues one write call per batch, in order;
    every batch holds between 1 and 100 URIs; the batches concatenated
    are the input list, so every position of the input is written exactly
    once and in order; 250 URIs give batches of 100, 100 and 50; and when
    the input has no repeated URI, no URI is in two batches. *)
Theorem add_tracks_to_playlist_batches
    remote access_token playlist_id (track_uris : list pyval) log :
  (forall h b, remote h (add_call access_token playlist_id b) <> None) ->
  add_tracks_to_playlist remote access_token playlist_id track_uris log
  = (Ok tt,
     log ++ map (add_call access_token playlist_id) (batches track_uris))
  /\ Forall (fun b => 1 <= length b <= 100) (batches track_uris)
  /\ concat (batches track_uris) = track_uris
  /\ (length track_uris = 250 ->
      map (@length pyval) (batches track_uris) = [100; 100; 50])
  /\ (NoDup track_uris ->
      forall i j b1 b2 u,
        i <> j ->
        nth_error (batches track_uris) i = Some b1 ->
        nth_error (batches track_uris) j = Some b2 ->
        In u b1 -> ~ In u b2).
Proof.
  intros Hup. repeat split.
  - unfold add_tracks_to_playlist. rewrite add_tracks_log by assumption.
    unfold batches. rewrite map_map. reflexivity.
  - apply batches_sizes.
  - apply batches_concat.
  - intros H250. rewrite batches_lengths, H250. reflexivity.
  - intros Hnd i j b1 b2 u Hij H1 H2.
    exact (batches_disjoint track_uris i j b1 b2 u Hnd Hij H1 H2).
Qed.

Lemma add_tracks_to_playlist_batches_witness :
  add_tracks_to_playlist accepting "token" (PStr "playlist")
    (sample_uris 250) []
  = (Ok tt,
     map (add_call "token" (PStr "playlist")) (batches (sample_uris 250)))
  /\ map (@length pyval) (batches (sample_uris 250)) = [100; 100; 50]
  /\ (forall b1 b2 u,
        nth_error (batches (sample_uris 250)) 0 = Some b1 ->
        nth_error (batches (sample_uris 250)) 2 = Some b2 ->
        In u b1 -> ~ In u b2).
Proof.
  destruct (add_tracks_to_playlist_batches accepting "token"
              (PStr "playlist") (sample_uris 250) [])
    as (Hlog & _ & _ & Hlen & Hdis).
  - intros h b. discriminate.
  - split; [exact Hlog|]. split.
    + apply Hlen. reflexivity.
    + intros b1 b2 u. apply Hdis.
      * apply distinctb_NoDup. vm_compute. reflexivity.
      * discriminate.
Defined.

(** C5, as stated, fails on a list that repeats a URI: of 101 copies of
    one URI the first 100 go into the first write call and the last one
    into the second, so that URI is in two batches. *)
Lemma add_tracks_to_playlist_repeated_uri :
  let u := PStr "spotify:track:a" in
  let track_uris := repeat u 101 in
  add_tracks_to_playlist accepting "token" (PStr "playlist") track_uris []
  = (Ok tt, [add_call "token" (PStr "playlist") (repeat u 100);
             add_call "token" (PStr "playlist") [u]])
  /\ nth_error (batches track_uris) 0 = Some (repeat u 100)
  /\ nth_error (batches track_uris) 1 = Some [u]
  /\ In u (repeat u 100) /\ In u [u].
Proof.
  repeat split; try reflexivity; simpl; auto.
Qed.

(** *** Release dates *)

Lemma digit_range c n : digit c = Some n -> (0 <= n <= 9)%Z.
Proof.
  unfold digit. cbv zeta. destruct (_ && _) eqn:E; [|discriminate].
  intros [= <-]. apply andb_prop in E. destruct E as [E1 E2].
  apply Z.leb_le in E1, E2. lia.
Qed.

Lemma parse_Y_range s y rest :
  parse_Y s = Some (y, rest) -> (0 <= y <= 9999)%Z.
Proof.
  unfold parse_Y.
  destruct s as [|a [|b [|c [|d r]]]]; try discriminate.
  destruct (digit a) as [da|] eqn:Ea; try discriminate.
  destruct (digit b) as [db|] eqn:Eb; try discriminate.
  destruct (digit c) as [dc|] eqn:Ec; try discriminate.
  destruct (digit d) as [dd|] eqn:Ed; try discriminate.
  intros H. apply digit_range in Ea, Eb, Ec, Ed.
  assert (Hy : (1000 * da + 100 * db + 10 * dc + dd = y)%Z) by congruence.
  lia.
Qed.

Lemma parse_Y_length s y :
  parse_Y s = Some (y, EmptyString) -> String.length s = 4.
Proof.
  unfold parse_Y.
  destruct s as [|a [|b [|c [|d r]]]]; try discriminate.
  destruct (digit a), (digit b), (digit c), (digit d); try discriminate.
  intros [= _ ->]. reflexivity.
Qed.

(** C4 (amended).  A release-date string of exactly 10 characters is
    parsed with the format [%Y-%m-%d], a string of any other length with
    the format [%Y]; a string made of exactly four digits that spell a
    year from 1 on parses to January 1st of that year.  ["2024"] parses
    to 2024-01-01 and ["2024-03-15"] to 2024-03-15. *)
Theorem parse_release_date_by_length (s : string) :
  (String.length s = 10 -> parse_release_date (PStr s) = strptime_Ymd s)
  /\ (String.length s <> 10 -> parse_release_date (PStr s) = strptime_Y s)
  /\ (forall y, parse_Y s = Some (y, EmptyString) -> (1 <= y)%Z ->
        parse_release_date (PStr s) = Ok (of_ymd y 1 1))
  /\ parse_release_date (PStr "2024") = Ok (of_ymd 2024 1 1)
  /\ parse_release_date (PStr "2024-03-15") = Ok (of_ymd 2024 3 15).
Proof.
  repeat split; try reflexivity.
  - intros H. unfold parse_release_date. simpl. rewrite H. reflexivity.
  - intros H. unfold parse_release_date. simpl.
    destruct (Nat.eqb_spec (String.length s) 10); [contradiction|reflexivity].
  - intros y Hy Hpos. unfold parse_release_date. simpl.
    rewrite (parse_Y_length s y Hy). simpl.
    unfold strptime_Y. rewrite Hy.
    pose proof (parse_Y_range s y _ Hy) as Hr.
    unfold make, MINYEAR, MAXYEAR.
    replace (1 <=? y)%Z with true by (symmetry; apply Z.leb_le; lia).
    replace (y <=? 9999)%Z with true by (symmetry; apply Z.leb_le; lia).
    reflexivity.
Qed.

Lemma parse_release_date_by_length_witness :
  parse_release_date (PStr "1999") = Ok (of_ymd 1999 1 1)
  /\ parse_release_date (PStr "2024-02-29") = strptime_Ymd "2024-02-29"
  /\ parse_release_date (PStr "2024-03") = strptime_Y "2024-03".
Proof.
  destruct (parse_release_date_by_length "1999") as (_ & _ & H & _).
  destruct (parse_release_date_by_length "2024-02-29") as (H10 & _).
  destruct (parse_release_date_by_length "2024-03") as (_ & Hn & _).
  split; [apply H; [reflexivity|lia]|].
  split; [apply H10; reflexivity|].
  apply Hn. simpl. discriminate.
Defined.

(** C4, as stated, fails on a release date of month precision: ["2024-03"]
    has 7 characters, is parsed with [%Y], and raises [ValueError]
    instead of parsing to January 1st of a year. *)
Lemma parse_release_date_month_precision :
  ~ (forall s, String.length s <> 10 ->
       exists y, parse_release_date (PStr s) = Ok (of_ymd y 1 1)).
Proof.
  intros H. destruct (H "2024-03") as [y Hy].
  - simpl. discriminate.
  - vm_compute in Hy. discriminate.
Qed.

(** *** Calls and the log *)

Lemma make_request_spec remote e access_token params log :
  make_request remote e access_token params log
  = (decode (remote log (GET e access_token params)),
     log ++ [GET e access_token params]).
Proof.
  unfold make_request, bind, perform, decode.
  destruct (remote log _) as [resp|]; [|reflexivity].
  destruct (status_code resp =? 401)%Z; [reflexivity|].
  unfold response_json. destruct (json resp); reflexivity.
Qed.

Lemma only_ret {A} P (a : A) : only P (ret a).
Proof. intros log. exists []. simpl. rewrite app_nil_r. auto. Qed.

Lemma only_lift {A} P (r : result A) : only P (lift r).
Proof. intros log. exists []. simpl. rewrite app_nil_r. auto. Qed.

Lemma only_bind {A B} P (m : M A) (f : A -> M B) :
  only P m -> (forall a, only P (f a)) -> only P (bind m f).
Proof.
  intros Hm Hf log. unfold bind.
  destruct (Hm log) as [e1 [H1 F1]].
  destruct (m log) as [[a| |] log1]; simpl in H1; subst log1.
  - destruct (Hf a (log ++ e1)) as [e2 [H2 F2]].
    exists (e1 ++ e2). rewrite H2, app_assoc. split; [reflexivity|].
    apply Forall_app. auto.
  - exists e1. auto.
  - exists e1. auto.
Qed.

Lemma only_for_each {A S} P (l : list A) (body : A -> S -> M S) s :
  (forall x s, In x l -> only P (body x s)) -> only P (for_each l body s).
Proof.
  revert s; induction l as [|x l IH]; intros s Hb; simpl.
  - apply only_ret.
  - apply only_bind.
    + apply Hb. left. reflexivity.
    + intros s'. apply IH. intros y s'' Hy. apply Hb. right. assumption.
Qed.

Lemma only_make_request remote (P : call -> Prop) e access_token params :
  P (GET e access_token params) ->
  only P (make_request remote e access_token params).
Proof.
  intros HP log. exists [GET e access_token params].
  rewrite make_request_spec. simpl. auto.
Qed.

Lemma only_perform remote (P : call -> Prop) c :
  P c -> only P (perform remote c).
Proof.
  intros HP log. exists [c]. unfold perform.
  destruct (remote log c); simpl; auto.
Qed.

Lemma only_mono {A} (P Q : call -> Prop) (m : M A) :
  (forall c, P c -> Q c) -> only P m -> only Q m.
Proof.
  intros HPQ Hm log. destruct (Hm log) as [ext [H F]].
  exists ext. split; [assumption|].
  eapply Forall_impl; eauto.
Qed.

(** A computation that makes no call leaves the log as it is. *)
Lemma only_nothing {A} (m : M A) log :
  only (fun _ => False) m -> snd (m log) = log.
Proof.
  intros Hm. destruct (Hm log) as [ext [H F]].
  destruct ext as [|c ext].
  - rewrite app_nil_r in H. assumption.
  - inversion F; contradiction.
Qed.

Ltac only_step :=
  first [ apply only_ret | apply only_lift
        | apply only_bind; [|intros ?] ].

Lemma append_track_pure album track recent_tracks :
  only (fun _ => False) (append_track album track recent_tracks).
Proof.
  unfold append_track. repeat only_step.
Qed.

Lemma app_neq_self {A} (l : list A) (x : A) : l ++ [x] <> l.
Proof.
  intros H. apply (f_equal (@length A)) in H.
  rewrite length_app in H. simpl in H. lia.
Qed.

(** [flatten] makes exactly one call: the track listing of the album. *)
Lemma flatten_log remote access_token album album_id recent_tracks log :
  Py.getitem album "id" = Ok album_id ->
  exists r,
    flatten remote access_token album recent_tracks log
    = (r, log ++ [GET (AlbumTracks album_id) access_token None]).
Proof.
  intros Hid. unfold flatten. rewrite Hid, bind_lift_Ok.
  unfold get_album_tracks.
  unfold bind at 1. unfold bind at 1.
  rewrite make_request_spec.
  destruct (decode _) as [data| |]; try (eexists; reflexivity).
  destruct (Py.truthy data).
  - unfold lift at 1.
    destruct (Py.getitem data "items") as [tracks| |];
      try (eexists; reflexivity).
    unfold bind. unfold lift at 1.
    destruct (Py.iter tracks) as [ts| |]; try (eexists; reflexivity).
    match goal with |- exists r, ?m ?l = _ =>
      exists (fst (m l)); rewrite (surjective_pairing (m l)); f_equal
    end.
    apply only_nothing. apply only_for_each.
    intros x s _. apply append_track_pure.
  - unfold ret at 1. unfold bind. simpl.
    eexists; reflexivity.
Qed.

(** *** The release window *)

Ltac time_lia := unfold us_per_day, us_per_second in *; lia.

(** An album whose release date parses to the instant [d] has its
    tracks fetched exactly when [d] is on or after [now] minus 7 days:
    exactly 7 days before [now] it is fetched, 7 days and 1 second before
    [now] it is not; an album outside the window causes no call and
    leaves [recent_tracks] as it was. *)
Lemma check_album_fetch_iff remote access_token (now : datetime)
    album v d album_id one_week_ago recent_tracks log :
  Py.getitem album "release_date" = Ok v ->
  parse_release_date v = Ok d ->
  Py.getitem album "id" = Ok album_id ->
  sub_timedelta now 7 0 = Ok one_week_ago ->
  let fetched :=
    exists r,
      check_album remote access_token one_week_ago album recent_tracks log
      = (r, log ++ [GET (AlbumTracks album_id) access_token None]) in
  let skipped :=
    check_album remote access_token one_week_ago album recent_tracks log
    = (Ok recent_tracks, log) in
  one_week_ago = (now - 7 * us_per_day)%Z
  /\ (fetched <-> (now - 7 * us_per_day <= d)%Z)
  /\ (skipped <-> (d < now - 7 * us_per_day)%Z)
  /\ (d = (now - 7 * us_per_day)%Z -> fetched)
  /\ (d = (now - 7 * us_per_day - us_per_second)%Z -> skipped).
Proof.
  intros Hv Hd Hid Hw fetched skipped.
  assert (Ew : one_week_ago = (now - 7 * us_per_day)%Z).
  { unfold sub_timedelta in Hw.
    destruct (_ && _); [|discriminate].
    injection Hw as <-. time_lia. }
  assert (Hin : (now - 7 * us_per_day <= d)%Z -> fetched).
  { intros Hle. unfold fetched, check_album.
    rewrite Hv, !bind_lift_Ok, Hd, bind_lift_Ok.
    unfold Datetime.ge.
    replace (one_week_ago <=? d)%Z with true
      by (symmetry; apply Z.leb_le; time_lia).
    apply flatten_log. assumption. }
  assert (Hout : (d < now - 7 * us_per_day)%Z -> skipped).
  { intros Hlt. unfold skipped, check_album.
    rewrite Hv, !bind_lift_Ok, Hd, bind_lift_Ok.
    unfold Datetime.ge.
    replace (one_week_ago <=? d)%Z with false
      by (symmetry; apply Z.leb_gt; time_lia).
    reflexivity. }
  split; [exact Ew|]. split; [|split; [|split]].
  - split; [|exact Hin].
    intros [r Hr].
    destruct (Z.le_gt_cases (now - 7 * us_per_day) d) as [|Hlt]; [assumption|].
    assert (Hs : skipped) by (apply Hout; time_lia).
    unfold skipped in Hs. rewrite Hs in Hr.
    injection Hr as _ Hr. symmetry in Hr.
    apply app_neq_self in Hr. contradiction.
  - split; [|exact Hout].
    intros Hs.
    destruct (Z.lt_ge_cases d (now - 7 * us_per_day)) as [|Hge]; [assumption|].
    destruct (Hin Hge) as [r Hr].
    unfold skipped in Hs. rewrite Hs in Hr.
    injection Hr as _ Hr. symmetry in Hr.
    apply app_neq_self in Hr. contradiction.
  - intros ->. apply Hin. time_lia.
  - intros ->. apply Hout. time_lia.
Qed.

(** *** Responses without the expected field *)

Lemma getter_spec remote e access_token params key log :
  (data <- make_request remote e access_token params ;;
   if Py.truthy data then lift (Py.getitem data key) else ret (PList [])) log
  = (rbind (decode (remote log (GET e access_token params)))
       (fun data => if Py.truthy data then Py.getitem data key
                    else Ok (PList [])),
     log ++ [GET e access_token params]).
Proof.
  unfold bind. rewrite make_request_spec.
  destruct (decode _) as [data| |]; simpl; try reflexivity.
  destruct (Py.truthy data); reflexivity.
Qed.

Lemma get_related_artists_spec remote access_token artist_id log :
  get_related_artists remote access_token artist_id log
  = (rbind (decode (remote log (GET (ArtistRelated artist_id)
                                  access_token None)))
       (fun data => if Py.truthy data then Py.getitem data "artists"
                    else Ok (PList [])),
     log ++ [GET (ArtistRelated artist_id) access_token None]).
Proof. apply getter_spec. Qed.

Lemma get_artist_albums_spec remote access_token artist_id limit log :
  get_artist_albums remote access_token artist_id limit log
  = (rbind (decode (remote log (GET (ArtistAlbums artist_id) access_token
                                  (Some (albums_params limit)))))
       (fun data => if Py.truthy data then Py.getitem data "items"
                    else Ok (PList [])),
     log ++ [GET (ArtistAlbums artist_id) access_token
               (Some (albums_params limit))]).
Proof. apply getter_spec. Qed.

Lemma get_album_tracks_spec remote access_token album_id log :
  get_album_tracks remote access_token album_id log
  = (rbind (decode (remote log (GET (AlbumTracks album_id)
                                  access_token None)))
       (fun data => if Py.truthy data then Py.getitem data "items"
                    else Ok (PList [])),
     log ++ [GET (AlbumTracks album_id) access_token None]).
Proof. apply getter_spec. Qed.

Lemma get_followed_artists_loop_unfold remote fuel access_token limit
    artists after log :
  get_followed_artists_loop remote (S fuel) access_token limit artists
    after log
  = match decode (remote log (following_call access_token limit after)) with
    | Ok data =>
        let log' := log ++ [following_call access_token limit after] in
        if negb (Py.truthy data) then (Ok artists, log')
        else
          match rbind (Py.getitem data "artists")
                  (fun page => rbind (Py.getitem page "items") Py.iter) with
          | Ok new =>
              match rbind (Py.getitem data "artists")
                      (fun page => Py.getitem page "next") with
              | Ok next =>
                  if negb (Py.truthy next) then (Ok (artists ++ new), log')
                  else
                    match rbind (Py.getitem data "artists")
                            (fun page =>
                               rbind (Py.getitem page "cursors")
                                 (fun c => Py.getitem c "after")) with
                    | Ok after' =>
                        get_followed_artists_loop remote fuel access_token
                          limit (artists ++ new) after' log'
                    | Raise e => (Raise e, log')
                    | OutOfFuel => (OutOfFuel, log')
                    end
              | Raise e => (Raise e, log')
              | OutOfFuel => (OutOfFuel, log')
              end
          | Raise e => (Raise e, log')
          | OutOfFuel => (OutOfFuel, log')
          end
    | Raise e =>
        (Raise e, log ++ [following_call access_token limit after])
    | OutOfFuel =>
        (OutOfFuel, log ++ [following_call access_token limit after])
    end.
Proof.
  simpl. unfold bind at 1. rewrite make_request_spec.
  unfold following_call.
  destruct (decode _) as [data| |]; try reflexivity.
  cbv zeta. destruct (negb (Py.truthy data)); [reflexivity|].
  unfold bind, lift.
  destruct (Py.getitem data "artists") as [page| |]; simpl; try reflexivity.
  destruct (Py.getitem page "items") as [items| |]; simpl; try reflexivity.
  destruct (Py.iter items) as [new| |]; simpl; try reflexivity.
  destruct (Py.getitem page "next") as [next| |]; simpl; try reflexivity.
  destruct (negb (Py.truthy next)); [reflexivity|].
  destruct (Py.getitem page "cursors") as [c| |]; simpl; reflexivity.
Qed.

Lemma getitem_missing d k :
  Py.lookup k d = None -> Py.getitem (PDict d) k = Raise KeyError.
Proof. simpl. intros ->. reflexivity. Qed.

Lemma truthy_dict d : d <> [] -> Py.truthy (PDict d) = true.
Proof. destruct d; [contradiction|reflexivity]. Qed.

(** C9, as stated, fails: a related-artists answer that is an error
    object, present but without the [artists] field, is not taken as no
    data; [get_related_artists] raises [KeyError] and the run ends in the
    failure reply. *)
Lemma error_object_is_not_no_data :
  get_related_artists throttled "token" (PStr "artist1") []
  = (Raise KeyError, [GET (ArtistRelated (PStr "artist1")) "token" None])
  /\ fst (get_related_artists throttled "token" (PStr "artist1") [])
     <> Ok (PList [])
  /\ fst (generate_playlist throttled insertion_order sample_clock 5
            (Some "token") [])
     = Ok (Failed KeyError).
Proof.
  split; [reflexivity|]. split; [discriminate|]. vm_compute. reflexivity.
Qed.

(** *** An unauthorized answer during the walk *)

Lemma sub_timedelta_week now :
  a_week_exists now ->
  sub_timedelta now 7 0 = Ok (now - 7 * us_per_day)%Z.
Proof.
  unfold a_week_exists, sub_timedelta. intros [Hlo Hhi].
  replace (now - 7 * us_per_day - 0 * us_per_second)%Z
    with (now - 7 * us_per_day)%Z by lia.
  assert (Hd : (0 < us_per_day)%Z) by (unfold us_per_day, us_per_second; lia).
  assert (H1 : (1 <= (now - 7 * us_per_day) / us_per_day)%Z).
  { apply Z.div_le_lower_bound; lia. }
  assert (H2 : ((now - 7 * us_per_day) / us_per_day <= MAXORDINAL)%Z).
  { apply Z.lt_succ_r. apply Z.div_lt_upper_bound; lia. }
  apply Z.leb_le in H1, H2. rewrite H1, H2. reflexivity.
Qed.

(** When a page request of the walk is answered 401, the walk ends
    with that one request and returns the artists of the pages fetched
    before it.  When the first page is answered 401 the collector
    returns the empty list with one request made, and the route makes no
    other call and replies that nothing was found. *)
Lemma unauthorized_step remote set_iter clk access_token
    limit fuel artists after log body :
  remote log (following_call access_token limit after)
  = Some (mkResponse 401 body) ->
  get_followed_artists_loop remote (S fuel) access_token limit artists
    after log
  = (Ok artists, log ++ [following_call access_token limit after])
  /\ (after = PNone -> artists = [] -> limit = 50%Z ->
      set_iter [] = [] -> a_week_exists (now clk) ->
      get_followed_artists remote (S fuel) access_token 50 log
      = (Ok [], log ++ [following_call access_token 50 PNone])
      /\ generate_playlist remote set_iter clk (S fuel) (Some access_token)
           log
         = (Ok NothingFound, log ++ [following_call access_token 50 PNone])).
Proof.
  intros H401.
  assert (Hwalk :
    get_followed_artists_loop remote (S fuel) access_token limit artists
      after log
    = (Ok artists, log ++ [following_call access_token limit after])).
  { rewrite get_followed_artists_loop_unfold, H401. reflexivity. }
  split; [exact Hwalk|].
  intros -> -> -> Hempty Hnow.
  assert (Hget :
    get_followed_artists remote (S fuel) access_token 50 log
    = (Ok [], log ++ [following_call access_token 50 PNone]))
    by exact Hwalk.
  split; [exact Hget|].
  unfold generate_playlist, try_except, discover.
  unfold bind at 1. unfold bind at 1. rewrite Hget.
  unfold expand. simpl for_each. unfold ret at 1.
  unfold bind at 1. unfold bind at 1.
  rewrite (sub_timedelta_week _ Hnow). unfold lift at 1.
  unfold recent_releases. rewrite Hempty. simpl. reflexivity.
Qed.

(** *** Flattening *)

Lemma for_each_append_track album artists first artist album_name
    release_date (tracks : list pyval) recent_tracks log :
  Py.getitem album "artists" = Ok artists ->
  Py.getitem0 artists = Ok first ->
  Py.getitem first "name" = Ok artist ->
  Py.getitem album "name" = Ok album_name ->
  Py.getitem album "release_date" = Ok release_date ->
  Forall (fun t => (exists u, Py.getitem t "uri" = Ok u)
                   /\ (exists n, Py.getitem t "name" = Ok n)) tracks ->
  for_each tracks (append_track album) recent_tracks log
  = (Ok (recent_tracks
           ++ map (fun t => track_record (field "uri" t) (field "name" t)
                              artist album_name release_date) tracks),
     log).
Proof.
  intros Ha H0 Hn Hal Hrd Htr. revert recent_tracks.
  induction Htr as [|t tracks [[u Hu] [n Hnm]] _ IH]; intros recent_tracks.
  - simpl. rewrite app_nil_r. reflexivity.
  - simpl.
    rewrite (bind_Ok _ _ log
               (recent_tracks
                  ++ [track_record u n artist album_name release_date]) log).
    + rewrite IH. unfold field. rewrite Hu, Hnm.
      rewrite <- app_assoc. reflexivity.
    + unfold append_track.
      rewrite Hu, bind_lift_Ok, Hnm, bind_lift_Ok, Ha, bind_lift_Ok,
        H0, bind_lift_Ok, Hn, bind_lift_Ok, Hal, bind_lift_Ok,
        Hrd, bind_lift_Ok.
      reflexivity.
Qed.

(** C8.  For a qualifying album with a first artist, a name and a
    release date, whose track listing is [tracks], each with a URI and a
    name, [flatten] appends to [recent_tracks] one record per track, in
    the order of the listing: the track's URI and name, the name of the
    album's first artist, the album's name and its release-date string.
    Nothing is dropped or merged: the list grows by the number of
    tracks, whether or not some of them repeat. *)
Theorem flatten_is_map remote access_token album album_id artists first
    artist album_name release_date tracks recent_tracks log log' :
  Py.getitem album "id" = Ok album_id ->
  get_album_tracks remote access_token album_id log
  = (Ok (PList tracks), log') ->
  Py.getitem album "artists" = Ok artists ->
  Py.getitem0 artists = Ok first ->
  Py.getitem first "name" = Ok artist ->
  Py.getitem album "name" = Ok album_name ->
  Py.getitem album "release_date" = Ok release_date ->
  Forall (fun t => (exists u, Py.getitem t "uri" = Ok u)
                   /\ (exists n, Py.getitem t "name" = Ok n)) tracks ->
  let emitted :=
    map (fun t => track_record (field "uri" t) (field "name" t)
                    artist album_name release_date) tracks in
  flatten remote access_token album recent_tracks log
  = (Ok (recent_tracks ++ emitted), log')
  /\ length emitted = length tracks
  /\ (forall i t, nth_error tracks i = Some t ->
        nth_error emitted i
        = Some (PDict [("uri", field "uri" t); ("name", field "name" t);
                       ("artist", artist); ("album", album_name);
                       ("release_date", release_date)])).
Proof.
  intros Hid Hget Ha H0 Hn Hal Hrd Htr emitted. split; [|split].
  - unfold flatten. rewrite Hid, bind_lift_Ok.
    unfold bind at 1. rewrite Hget. simpl Py.iter. rewrite bind_lift_Ok.
    apply (for_each_append_track album artists first); assumption.
  - unfold emitted. apply length_map.
  - intros i t Hi. unfold emitted. rewrite nth_error_map, Hi. reflexivity.
Qed.

Lemma flatten_is_map_witness :
  flatten long_catalog "token" album_0315 [] []
  = (Ok [track_record (PStr "spotify:track:t1") (PStr "Track One")
           (PStr "Artist One") (PStr "Album One") (PStr "2024-03-15")],
     [tracks_call "token" (PStr "album1")]).
Proof.
  assert (Htracks :
    Forall (fun t => (exists u, Py.getitem t "uri" = Ok u)
                     /\ (exists n, Py.getitem t "name" = Ok n))
      [PDict [("uri", PStr "spotify:track:t1");
              ("name", PStr "Track One")]]).
  { repeat constructor; eexists; reflexivity. }
  exact (proj1 (flatten_is_map long_catalog "token" album_0315
                  (PStr "album1")
                  (PList [PDict [("name", PStr "Artist One")]])
                  (PDict [("name", PStr "Artist One")])
                  (PStr "Artist One") (PStr "Album One")
                  (PStr "2024-03-15")
                  [PDict [("uri", PStr "spotify:track:t1");
                          ("name", PStr "Track One")]]
                  [] [] [tracks_call "token" (PStr "album1")]
                  eq_refl eq_refl eq_refl eq_refl eq_refl eq_refl eq_refl
                  Htracks)).
Defined.

(** *** The walk over a paginated listing *)

Section Walk.

Variable remote : service.
Variable access_token : string.
Variable items : list pyval.
Variable page_size : nat.
Variable cursor : nat -> pyval.
Variable next_url : nat -> pyval.

Hypothesis page_size_pos : 0 < page_size.
Hypothesis cursor_true : forall k, Py.truthy (cursor k) = true.
Hypothesis next_true : forall k, Py.truthy (next_url k) = true.
Hypothesis serves :
  forall h k,
    remote h (page_call page_size cursor access_token k)
    = Some (mkResponse 200
              (Some (page_json items page_size cursor next_url k))).

Lemma has_more_last k :
  has_more items page_size k = Nat.ltb k (last_page items page_size).
Proof.
  unfold has_more, last_page.
  destruct (Nat.ltb_spec (S k * page_size) (length items)) as [H|H];
    destruct (Nat.ltb_spec k ((length items - 1) / page_size)) as [H'|H'];
    try reflexivity; exfalso.
  - assert (S k <= (length items - 1) / page_size); [|lia].
    apply Nat.div_le_lower_bound; lia.
  - assert (page_size * S k <= length items - 1); [|lia].
    transitivity (page_size * ((length items - 1) / page_size)).
    + apply Nat.mul_le_mono_l. lia.
    + apply Nat.Div0.mul_div_le.
Qed.

Lemma walk_step fuel artists k log :
  get_followed_artists_loop remote (S fuel) access_token
    (Z.of_nat page_size) artists (page_after cursor k) log
  = if has_more items page_size k
    then get_followed_artists_loop remote fuel access_token
           (Z.of_nat page_size)
           (artists ++ page_items items page_size k)
           (page_after cursor (S k))
           (log ++ [page_call page_size cursor access_token k])
    else (Ok (artists ++ page_items items page_size k),
          log ++ [page_call page_size cursor access_token k]).
Proof.
  rewrite get_followed_artists_loop_unfold.
  fold (page_call page_size cursor access_token k).
  rewrite serves. unfold decode, page_json. simpl.
  destruct (has_more items page_size k).
  - rewrite next_true. simpl. reflexivity.
  - simpl. reflexivity.
Qed.

Lemma walk_from m : forall k fuel artists log,
  k + m = last_page items page_size -> m < fuel ->
  get_followed_artists_loop remote fuel access_token
    (Z.of_nat page_size) artists (page_after cursor k) log
  = (Ok (artists ++ skipn (k * page_size) items),
     log ++ map (page_call page_size cursor access_token) (seq k (S m))).
Proof.
  induction m as [|m IH]; intros k fuel artists log Hk Hf;
    (destruct fuel as [|fuel]; [lia|]);
    rewrite walk_step, has_more_last.
  - replace (Nat.ltb k (last_page items page_size)) with false
      by (symmetry; apply Nat.ltb_ge; lia).
    simpl. unfold page_items. rewrite firstn_all2; [reflexivity|].
    rewrite length_skipn.
    assert (Hm : has_more items page_size k = false)
      by (rewrite has_more_last; apply Nat.ltb_ge; lia).
    unfold has_more in Hm. apply Nat.ltb_ge in Hm. simpl in Hm. lia.
  - replace (Nat.ltb k (last_page items page_size)) with true
      by (symmetry; apply Nat.ltb_lt; lia).
    rewrite (IH (S k)) by lia.
    f_equal.
    + rewrite <- app_assoc. f_equal. unfold page_items.
      replace (S k * page_size) with (page_size + k * page_size)
        by (simpl; lia).
      rewrite <- skipn_skipn. rewrite firstn_skipn. reflexivity.
    + rewrite <- app_assoc. reflexivity.
Qed.

Hypothesis cursor_inj : forall j k, cursor j = cursor k -> j = k.

Lemma page_call_inj j k :
  page_call page_size cursor access_token j
  = page_call page_size cursor access_token k -> j = k.
Proof.
  unfold page_call, following_call, following_params.
  destruct j as [|j], k as [|k]; simpl;
    rewrite ?cursor_true; intros H; try reflexivity; try discriminate.
  injection H as H. f_equal. apply cursor_inj. assumption.
Qed.

Lemma page_calls_NoDup n :
  NoDup (map (page_call page_size cursor access_token) (seq 0 n)).
Proof.
  apply Injective_map_NoDup.
  - intros j k. apply page_call_inj.
  - apply seq_NoDup.
Qed.

(** C1.  For a listing of [length items] artists, no two the same,
    served [page_size] at a time, the walk returns the artists of the
    listing, all of them and in the order of the listing, whatever
    the two sizes are; it requests the pages one after the other up to
    the first whose answer has no [next], and no page twice. *)
Theorem get_followed_artists_complete fuel log :
  NoDup items ->
  length items / page_size < fuel ->
  let pages := S (last_page items page_size) in
  let requests := map (page_call page_size cursor access_token)
                      (seq 0 pages) in
  get_followed_artists remote fuel access_token (Z.of_nat page_size) log
  = (Ok items, log ++ requests)
  /\ (forall artists, 
        fst (get_followed_artists remote fuel access_token
               (Z.of_nat page_size) log) = Ok artists ->
        length artists = length items /\ NoDup artists)
  /\ NoDup requests
  /\ (forall k, k < pages ->
        has_more items page_size k = false <-> S k = pages).
Proof.
  intros Hnd Hfuel pages requests.
  assert (Hlast : last_page items page_size <= length items / page_size).
  { unfold last_page. apply Nat.Div0.div_le_mono. lia. }
  assert (Hrun :
    get_followed_artists remote fuel access_token (Z.of_nat page_size) log
    = (Ok items, log ++ requests)).
  { unfold get_followed_artists.
    change PNone with (page_after cursor 0).
    rewrite (walk_from (last_page items page_size) 0) by lia.
    reflexivity. }
  split; [exact Hrun|]. split; [|split].
  - intros artists. rewrite Hrun. simpl. intros [= <-]. auto.
  - apply page_calls_NoDup.
  - intros k Hk. rewrite has_more_last. unfold pages in *.
    split; intros H.
    + apply Nat.ltb_ge in H. lia.
    + apply Nat.ltb_ge. lia.
Qed.

End Walk.

Lemma index_cursor_serves items page_size access_token h k :
  listing_service items page_size index_cursor sample_next index_of_cursor
    h (page_call page_size index_cursor access_token k)
  = Some (mkResponse 200
            (Some (page_json items page_size index_cursor sample_next k))).
Proof.
  unfold listing_service, page_call, following_call, following_params.
  destruct k as [|k]; [reflexivity|].
  simpl page_after. unfold index_cursor at 1 2.
  replace (Py.truthy (PInt (Z.of_nat (S k)))) with true by reflexivity.
  simpl Py.lookup. unfold index_of_cursor, index_cursor.
  rewrite Nat2Z.id. reflexivity.
Qed.

Lemma get_followed_artists_complete_witness :
  get_followed_artists
    (listing_service five_artists 2 index_cursor sample_next index_of_cursor)
    3 "token" 2 []
  = (Ok five_artists,
     [following_call "token" 2 PNone;
      following_call "token" 2 (PInt 1);
      following_call "token" 2 (PInt 2)]).
Proof.
  apply (get_followed_artists_complete
           (listing_service five_artists 2 index_cursor sample_next
              index_of_cursor)
           "token" five_artists 2 index_cursor sample_next).
  - lia.
  - intros k. reflexivity.
  - reflexivity.
  - intros h k. apply index_cursor_serves.
  - intros j k H. unfold index_cursor in H. injection H as H. lia.
  - repeat constructor; simpl; intuition discriminate.
  - simpl. lia.
Defined.

(** *** Expansion *)

Lemma for_each_add_related (top : list pyval) all_artists log :
  Forall has_id top ->
  for_each top add_related all_artists log
  = (Ok (all_artists ++ map (field "id") top), log).
Proof.
  intros Htop. revert all_artists.
  induction Htop as [|r top [id [Hid Hh]] _ IH]; intros all_artists; simpl.
  - rewrite app_nil_r. reflexivity.
  - rewrite (bind_Ok _ _ log (all_artists ++ [id]) log).
    + rewrite IH. unfold field. rewrite Hid, <- app_assoc. reflexivity.
    + unfold add_related. rewrite Hid, bind_lift_Ok.
      unfold set_add. rewrite Hh. reflexivity.
Qed.

Lemma expand_seed_spec remote access_token artist related all_artists log :
  has_id artist ->
  fst (get_related_artists remote access_token (field "id" artist) log)
  = Ok (PList related) ->
  Forall has_id (firstn 5 related) ->
  expand_seed remote access_token artist all_artists log
  = (Ok (all_artists ++ seed_members artist related),
     log ++ [related_call access_token (field "id" artist)]).
Proof.
  intros [id [Hid Hh]] Hrel Htop.
  assert (Hf : field "id" artist = id)
    by (unfold field; rewrite Hid; reflexivity).
  unfold seed_members. rewrite Hf in *. unfold expand_seed.
  rewrite Hid, bind_lift_Ok. unfold set_add at 1.
  rewrite Hh, !bind_lift_Ok.
  rewrite (bind_Ok _ _ log (PList related)
             (log ++ [related_call access_token id])).
  - simpl Py.slice_to. rewrite bind_lift_Ok. simpl Py.iter.
    rewrite bind_lift_Ok, for_each_add_related by assumption.
    rewrite <- app_assoc. reflexivity.
  - rewrite get_related_artists_spec in *. simpl in Hrel.
    rewrite Hrel. reflexivity.
Qed.

Lemma filter_albums_tracks access_token (ext : list call) :
  Forall (fun c => exists album_id, c = tracks_call access_token album_id)
    ext ->
  filter is_albums_call ext = [].
Proof.
  induction 1 as [|c ext [aid ->] _ IH]; simpl; auto.
Qed.

Lemma check_album_only remote access_token one_week_ago album recent_tracks :
  only (fun c => exists album_id,
                   Py.getitem album "id" = Ok album_id
                   /\ c = tracks_call access_token album_id)
    (check_album remote access_token one_week_ago album recent_tracks).
Proof.
  unfold check_album. repeat only_step.
  destruct (Datetime.ge _ _); [|apply only_ret].
  unfold flatten. intros log.
  destruct (Py.getitem album "id") as [aid| |] eqn:Hid;
    try solve [exists []; simpl; rewrite app_nil_r; auto].
  rewrite bind_lift_Ok.
  assert (H : only (fun c => exists album_id,
                     Ok aid = Ok album_id
                     /\ c = tracks_call access_token album_id)
                (tracks <- get_album_tracks remote access_token aid ;;
                 tracks <- lift (Py.iter tracks) ;;
                 for_each tracks (append_track album) recent_tracks)).
  { apply only_bind.
    - unfold get_album_tracks. apply only_bind.
      + apply only_make_request. exists aid. auto.
      + intros data. destruct (Py.truthy data); only_step.
    - intros tracks. apply only_bind; [only_step|].
      intros ts. apply only_for_each. intros t s _.
      eapply only_mono; [|apply append_track_pure].
      intros c []. }
  apply H.
Qed.

(** The calls of [check_artist]: the album listing, once, then track
    listings of albums in the answer. *)
Lemma check_artist_calls remote access_token one_week_ago artist_id
    recent_tracks log :
  exists ext,
    snd (check_artist remote access_token one_week_ago artist_id
           recent_tracks log)
    = log ++ albums_call access_token artist_id :: ext
    /\ Forall (fun c =>
         exists albums album album_id,
           fst (get_artist_albums remote access_token artist_id 10 log)
           = Ok albums
           /\ (exists l, Py.iter albums = Ok l /\ In album l)
           /\ Py.getitem album "id" = Ok album_id
           /\ c = tracks_call access_token album_id) ext.
Proof.
  unfold check_artist, bind at 1.
  rewrite get_artist_albums_spec. simpl fst.
  fold (albums_call access_token artist_id).
  destruct (rbind _ _) as [albums| |]; try solve [exists []; simpl; auto].
  unfold bind, lift at 1.
  destruct (Py.iter albums) as [l| |] eqn:Hl;
    try solve [exists []; simpl; auto].
  assert (H : only (fun c => exists album album_id,
                      In album l
                      /\ Py.getitem album "id" = Ok album_id
                      /\ c = tracks_call access_token album_id)
                (for_each l (check_album remote access_token one_week_ago)
                   recent_tracks)).
  { apply only_for_each. intros album s Hin.
    eapply only_mono; [|apply check_album_only].
    intros c [aid [Hid ->]]. exists album, aid. auto. }
  destruct (H (log ++ [albums_call access_token artist_id])) as [ext [He Hf]].
  exists ext. rewrite He, <- app_assoc. split; [reflexivity|].
  eapply Forall_impl; [|exact Hf].
  intros c [album [aid [Hin [Hid ->]]]].
  exists albums, album, aid. repeat split; eauto.
Qed.

Lemma check_artist_albums_filter remote access_token one_week_ago artist_id
    recent_tracks log :
  exists ext,
    snd (check_artist remote access_token one_week_ago artist_id
           recent_tracks log) = log ++ ext
    /\ filter is_albums_call ext = [albums_call access_token artist_id].
Proof.
  destruct (check_artist_calls remote access_token one_week_ago artist_id
              recent_tracks log) as [ext [He Hf]].
  exists (albums_call access_token artist_id :: ext).
  split; [assumption|]. simpl. f_equal.
  apply (filter_albums_tracks access_token).
  eapply Forall_impl; [|exact Hf].
  intros c (_ & _ & aid & _ & _ & _ & ->). exists aid. reflexivity.
Qed.

Lemma for_each_check_artist_albums remote access_token one_week_ago
    (ids : list pyval) recent_tracks log :
  exists ext n,
    snd (for_each ids (check_artist remote access_token one_week_ago)
           recent_tracks log) = log ++ ext
    /\ filter is_albums_call ext
       = map (albums_call access_token) (firstn n ids)
    /\ (is_Ok (fst (for_each ids
                      (check_artist remote access_token one_week_ago)
                      recent_tracks log)) ->
        filter is_albums_call ext = map (albums_call access_token) ids).
Proof.
  revert recent_tracks log.
  induction ids as [|id ids IH]; intros recent_tracks log.
  - exists [], 0. simpl. rewrite app_nil_r. auto.
  - simpl for_each. unfold bind.
    destruct (check_artist_albums_filter remote access_token one_week_ago
                id recent_tracks log) as [e1 [H1 F1]].
    destruct (check_artist remote access_token one_week_ago id
                recent_tracks log) as [[s| |] log1]; simpl in H1; subst log1.
    + destruct (IH s (log ++ e1)) as [e2 [n [H2 [F2 G2]]]].
      exists (e1 ++ e2), (S n).
      split; [rewrite H2, app_assoc; reflexivity|].
      rewrite filter_app, F1. split.
      * simpl. rewrite F2. reflexivity.
      * intros Hok. simpl. rewrite (G2 Hok). reflexivity.
    + exists e1, 1. simpl.
      split; [reflexivity|]. split; [assumption|]. contradiction.
    + exists e1, 1. simpl.
      split; [reflexivity|]. split; [assumption|]. contradiction.
Qed.

Lemma expand_from remote access_token (related_of : pyval -> list pyval)
    (followed_artists : list pyval) :
  Forall has_id followed_artists ->
  (forall h artist,
     In artist followed_artists ->
     fst (get_related_artists remote access_token (field "id" artist) h)
     = Ok (PList (related_of (field "id" artist)))) ->
  (forall artist,
     In artist followed_artists ->
     Forall has_id (firstn 5 (related_of (field "id" artist)))) ->
  forall all_artists log,
    for_each followed_artists (expand_seed remote access_token)
      all_artists log
    = (Ok (all_artists
             ++ flat_map (fun a => seed_members a (related_of (field "id" a)))
                  followed_artists),
       log ++ map (fun a => related_call access_token (field "id" a))
                followed_artists).
Proof.
  induction followed_artists as [|a l IH]; intros Hids Hrel Htop s log.
  - simpl. rewrite !app_nil_r. reflexivity.
  - inversion Hids as [|? ? Ha Hl]; subst. simpl for_each.
    rewrite (bind_Ok _ _ log
               (s ++ seed_members a (related_of (field "id" a)))
               (log ++ [related_call access_token (field "id" a)])).
    + rewrite IH.
      * simpl flat_map. simpl map. rewrite <- !app_assoc. reflexivity.
      * assumption.
      * intros h x Hx. apply Hrel. right. assumption.
      * intros x Hx. apply Htop. right. assumption.
    + apply expand_seed_spec.
      * assumption.
      * apply Hrel. left. reflexivity.
      * apply Htop. left. reflexivity.
Qed.

(** For followed artists that carry a hashable [id] and whose
    related-artists call returns the list [related_of id], the first
    five of them carrying a hashable [id]: the expansion adds, for every
    followed artist in turn, its identifier and then the identifiers of
    the first five related artists in the order returned (so at most six
    values per followed artist), and makes one related-artists call per
    followed artist, however large the set has grown.  The limit of 50 is
    applied afterwards: the album listings are requested for the first 50
    values of the set in its iteration order, no others, and for all of
    them when the stage ends normally. *)
Lemma expand_members_and_cap remote set_iter access_token
    (related_of : pyval -> list pyval) (followed_artists : list pyval) log :
  Forall has_id followed_artists ->
  (forall h artist,
     In artist followed_artists ->
     fst (get_related_artists remote access_token (field "id" artist) h)
     = Ok (PList (related_of (field "id" artist)))) ->
  (forall artist,
     In artist followed_artists ->
     Forall has_id (firstn 5 (related_of (field "id" artist)))) ->
  let members a := seed_members a (related_of (field "id" a)) in
  expand remote access_token followed_artists log
  = (Ok (flat_map members followed_artists),
     log ++ map (fun a => related_call access_token (field "id" a))
              followed_artists)
  /\ (forall a, In a followed_artists ->
        members a
        = field "id" a
          :: map (field "id") (firstn 5 (related_of (field "id" a)))
        /\ length (members a) <= 6
        /\ incl (members a) (flat_map members followed_artists))
  /\ (forall all_artists one_week_ago log',
        exists ext n,
          snd (recent_releases remote set_iter access_token all_artists
                 one_week_ago log') = log' ++ ext
          /\ filter is_albums_call ext
             = map (albums_call access_token)
                 (firstn n (firstn 50 (set_iter all_artists)))
          /\ (is_Ok (fst (recent_releases remote set_iter access_token
                            all_artists one_week_ago log')) ->
              filter is_albums_call ext
              = map (albums_call access_token)
                  (firstn 50 (set_iter all_artists)))).
Proof.
  intros Hids Hrel Htop members. split; [|split].
  - unfold expand.
    rewrite (expand_from remote access_token related_of) by assumption.
    reflexivity.
  - intros a Ha. split; [reflexivity|]. split.
    + unfold members, seed_members. cbn [length].
      rewrite length_map, length_firstn. lia.
    + intros x Hx. apply in_flat_map. exists a. auto.
  - intros all_artists one_week_ago log'. unfold recent_releases.
    apply for_each_check_artist_albums.
Qed.

Lemma fanout_related h artist :
  fst (get_related_artists fanout "token" (field "id" artist) h)
  = Ok (PList (six_related (field "id" artist))).
Proof. reflexivity. Qed.

Lemma six_related_has_id id : Forall has_id (firstn 5 (six_related id)).
Proof.
  destruct id; simpl; repeat constructor;
    eexists; (split; [reflexivity|reflexivity]).
Qed.

Lemma ten_artists_has_id : Forall has_id ten_artists.
Proof.
  repeat constructor; eexists; (split; [reflexivity|reflexivity]).
Qed.


(** *** Calls made before the playlist is created *)

Lemma get_followed_artists_loop_gets remote fuel access_token limit :
  forall artists after,
    only is_get
      (get_followed_artists_loop remote fuel access_token limit artists
         after).
Proof.
  induction fuel as [|fuel IH]; intros artists after; simpl.
  - apply only_lift.
  - apply only_bind; [apply only_make_request; exact I|].
    intros data. destruct (negb (Py.truthy data)); [apply only_ret|].
    repeat (apply only_bind; [apply only_lift|intros ?]).
    destruct (negb (Py.truthy _)); [apply only_ret|].
    repeat (apply only_bind; [apply only_lift|intros ?]).
    apply IH.
Qed.

Lemma getter_gets remote e access_token params key :
  only is_get
    (data <- make_request remote e access_token params ;;
     if Py.truthy data then lift (Py.getitem data key) else ret (PList [])).
Proof.
  apply only_bind; [apply only_make_request; exact I|].
  intros data. destruct (Py.truthy data); only_step.
Qed.

Lemma expand_gets remote access_token followed_artists :
  only is_get (expand remote access_token followed_artists).
Proof.
  unfold expand. apply only_for_each. intros artist s _.
  unfold expand_seed.
  repeat (apply only_bind; [apply only_lift|intros ?]).
  apply only_bind; [apply getter_gets|intros ?].
  repeat (apply only_bind; [apply only_lift|intros ?]).
  apply only_for_each. intros r s' _. unfold add_related.
  repeat only_step.
Qed.

Lemma recent_releases_gets remote set_iter access_token all_artists
    one_week_ago :
  only is_get
    (recent_releases remote set_iter access_token all_artists one_week_ago).
Proof.
  unfold recent_releases. apply only_for_each. intros id s _.
  unfold check_artist.
  apply only_bind; [apply getter_gets|intros ?].
  apply only_bind; [apply only_lift|intros ?].
  apply only_for_each. intros album s' _.
  eapply only_mono; [|apply check_album_only].
  intros c [aid [_ ->]]. exact I.
Qed.

Lemma discover_gets remote set_iter clk fuel access_token :
  only is_get (discover remote set_iter clk fuel access_token).
Proof.
  unfold discover.
  apply only_bind; [apply get_followed_artists_loop_gets|intros ?].
  apply only_bind; [apply expand_gets|intros ?].
  apply only_bind; [apply only_lift|intros ?].
  apply recent_releases_gets.
Qed.

(** C6.  When the list of tracks the route has gathered is empty, the
    route replies that nothing was found, a reply that is neither of the
    error replies, and stops there: the calls of the run are those of the
    gathering, all of them reads.  A run that makes a write call, to
    create the playlist or to add tracks, is a run whose gathering
    returned at least one track. *)
Theorem empty_list_creates_no_playlist remote set_iter clk fuel
    access_token log :
  let run :=
    generate_playlist remote set_iter clk fuel (Some access_token) log in
  let found := discover remote set_iter clk fuel access_token log in
  (fst found = Ok [] ->
     run = (Ok NothingFound, snd found)
     /\ exists ext, snd run = log ++ ext /\ Forall is_get ext)
  /\ NothingFound <> NotAuthenticated
  /\ (forall e, NothingFound <> Failed e)
  /\ (forall ext,
        snd run = log ++ ext -> ~ Forall is_get ext ->
        exists t ts, fst found = Ok (t :: ts)).
Proof.
  intros run found.
  destruct (discover_gets remote set_iter clk fuel access_token log)
    as [e1 [H1 F1]]. fold found in H1.
  assert (Hrun :
    run = match fst found with
          | Ok [] => (Ok NothingFound, snd found)
          | Ok (t :: ts) =>
              try_except
                (materialize remote clk access_token (t :: ts)) (snd found)
          | Raise e => (Ok (Failed e), snd found)
          | OutOfFuel => (OutOfFuel, snd found)
          end).
  { unfold run, generate_playlist, try_except, bind. fold found.
    destruct found as [[[|t ts]| |] log1]; reflexivity. }
  split; [|split; [discriminate|split; [discriminate|]]].
  - intros Hempty. rewrite Hrun, Hempty. split; [reflexivity|].
    exists e1. simpl. auto.
  - intros ext Hext Hwrite. rewrite Hrun in Hext.
    destruct (fst found) as [[|t ts]| |]; try (exists t, ts; reflexivity);
      exfalso; apply Hwrite; simpl in Hext; rewrite H1 in Hext;
      apply app_inv_head in Hext; subst ext; assumption.
Qed.

Lemma empty_list_creates_no_playlist_witness :
  generate_playlist accepting insertion_order sample_clock 1
    (Some "token") []
  = (Ok NothingFound, [following_call "token" 50 PNone]).
Proof.
  destruct (empty_list_creates_no_playlist accepting insertion_order
              sample_clock 1 "token" []) as [H _].
  destruct (H eq_refl) as [Hrun _]. exact Hrun.
Defined.

(** *** One page of albums per artist *)

(** C10.  For an artist, [check_artist] requests the album listing
    once, with [limit] 10, and makes no other listing request: every
    other call is the track listing of an album of that one answer.
    When the service answers with the first 10 entries of the artist's
    catalog, a release further down the catalog, whose identifier is not
    one of theirs, has no track listing requested, whatever its date. *)
Theorem check_artist_single_page remote access_token one_week_ago
    artist_id recent_tracks log :
  exists ext,
    snd (check_artist remote access_token one_week_ago artist_id
           recent_tracks log)
    = log ++ albums_call access_token artist_id :: ext
    /\ albums_call access_token artist_id
       = GET (ArtistAlbums artist_id) access_token
           (Some [("include_groups", PStr "album,single");
                  ("market", PStr "US"); ("limit", PInt 10)])
    /\ filter is_albums_call ext = []
    /\ (forall catalog,
          fst (get_artist_albums remote access_token artist_id 10 log)
          = Ok (PList (firstn 10 catalog)) ->
          Forall (fun c =>
            exists album album_id,
              In album (firstn 10 catalog)
              /\ Py.getitem album "id" = Ok album_id
              /\ c = tracks_call access_token album_id) ext
          /\ (forall album album_id,
                In album (skipn 10 catalog) ->
                Py.getitem album "id" = Ok album_id ->
                (forall a, In a (firstn 10 catalog) ->
                           Py.getitem a "id" <> Ok album_id) ->
                ~ In (tracks_call access_token album_id) ext)).
Proof.
  destruct (check_artist_calls remote access_token one_week_ago artist_id
              recent_tracks log) as [ext [He Hf]].
  exists ext. split; [exact He|]. split; [reflexivity|]. split.
  - apply (filter_albums_tracks access_token).
    eapply Forall_impl; [|exact Hf].
    intros c (_ & _ & aid & _ & _ & _ & ->). exists aid. reflexivity.
  - intros catalog Hcat.
    assert (Hten :
      Forall (fun c =>
        exists album album_id,
          In album (firstn 10 catalog)
          /\ Py.getitem album "id" = Ok album_id
          /\ c = tracks_call access_token album_id) ext).
    { eapply Forall_impl; [|exact Hf].
      intros c (albums & album & aid & Ha & [l [Hl Hin]] & Hid & ->).
      rewrite Hcat in Ha. injection Ha as <-.
      simpl in Hl. injection Hl as <-.
      exists album, aid. auto. }
    split; [exact Hten|].
    intros album aid _ Hid Hfresh Hin.
    rewrite Forall_forall in Hten.
    destruct (Hten _ Hin) as (a & aid' & Ha & Hid' & Heq).
    injection Heq as <-. exact (Hfresh a Ha Hid').
Qed.

Lemma check_artist_single_page_witness :
  snd (check_artist long_catalog "token" (of_ymd 2024 3 15)
         (PStr "artist1") [] [])
  = [albums_call "token" (PStr "artist1")]
  /\ In (album_obj "new1" "2024-03-20") (skipn 10 twelve_albums)
  /\ parse_release_date (PStr "2024-03-20") = Ok (of_ymd 2024 3 20)
  /\ ~ In (tracks_call "token" (PStr "new1")) [].
Proof.
  destruct (check_artist_single_page long_catalog "token"
              (of_ymd 2024 3 15) (PStr "artist1") [] [])
    as (ext & He & _ & _ & Hcat).
  assert (Hext : ext = []).
  { vm_compute in He. injection He as <-. reflexivity. }
  subst ext.
  destruct (Hcat twelve_albums eq_refl) as [_ Hskip].
  split; [exact He|]. split; [simpl; auto|]. split; [reflexivity|].
  apply (Hskip (album_obj "new1" "2024-03-20")).
  - simpl. auto.
  - reflexivity.
  - intros a Ha. simpl in Ha.
    repeat (destruct Ha as [<-|Ha]; [discriminate|]). contradiction.
Defined.

(** *** A complete run *)

(** Six artists are checked, the two tracks of the one recent album are
    found, the playlist is created and the two URIs are written in one
    call. *)
Example scenario_run :
  let run := generate_playlist scenario insertion_order scenario_clock 2
               (Some "token") [] in
  fst run
  = Ok (Success "Weekly Discoveries - 2024-03-18"
          (PStr "https://open.spotify.com/playlist/playlist1") 2
          [track_record (PStr "spotify:track:t1") (PStr "Track One")
             (PStr "Artist One") (PStr "Album One") (PStr "2024-03-15");
           track_record (PStr "spotify:track:t2") (PStr "Track Two")
             (PStr "Artist One") (PStr "Album One") (PStr "2024-03-15")])
  /\ length (filter is_albums_call (snd run)) = 6
  /\ filter is_post (snd run)
     = [POST (UserPlaylists (PStr "user1")) "token"
          (PDict [("name", PStr "Weekly Discoveries - 2024-03-18");
                  ("description", PStr "Recent releases from your followed artists and their related artists (last 7 days). Generated on 2024-03-18");
                  ("public", PBool false)]);
        add_call "token" (PStr "playlist1")
          [PStr "spotify:track:t1"; PStr "spotify:track:t2"]].
Proof. repeat split; vm_compute; reflexivity. Qed.

(* ================================================================= *)
(** ** Further properties *)

(** *** make_request *)

(** X1.  [make_request] makes exactly one call.  A 401 gives [None]
    whatever the body is, decodable or not; any other status, an error
    status included, gives the decoded body, and raises when the body
    cannot be decoded; a transport failure raises. *)
Theorem make_request_outcomes remote e access_token params log :
  let c := GET e access_token params in
  snd (make_request remote e access_token params log) = log ++ [c]
  /\ (forall body,
        remote log c = Some (mkResponse 401 body) ->
        fst (make_request remote e access_token params log) = Ok PNone)
  /\ (forall status v,
        status <> 401%Z ->
        remote log c = Some (mkResponse status (Some v)) ->
        fst (make_request remote e access_token params log) = Ok v)
  /\ (forall status,
        status <> 401%Z ->
        remote log c = Some (mkResponse status None) ->
        fst (make_request remote e access_token params log)
        = Raise JSONDecodeError)
  /\ (remote log c = None ->
      fst (make_request remote e access_token params log)
      = Raise ConnectionError).
Proof.
  intros c. rewrite make_request_spec. fold c. simpl.
  split; [reflexivity|]. repeat split.
  - intros body ->. reflexivity.
  - intros status v Hs ->. simpl.
    destruct (Z.eqb_spec status 401); [contradiction|reflexivity].
  - intros status Hs ->. simpl.
    destruct (Z.eqb_spec status 401); [contradiction|reflexivity].
  - intros ->. reflexivity.
Qed.

Lemma make_request_outcomes_witness :
  fst (make_request throttled Me "token" None [])
  = Ok (PDict [("error",
          PDict [("status", PInt 429);
                 ("message", PStr "API rate limit exceeded")])])
  /\ fst (make_request (fun _ _ => Some (mkResponse 401 None))
            Me "token" None []) = Ok PNone.
Proof.
  split.
  - destruct (make_request_outcomes throttled Me "token" None [])
      as (_ & _ & H & _).
    apply (H 429%Z); [lia|reflexivity].
  - destruct (make_request_outcomes (fun _ _ => Some (mkResponse 401 None))
                Me "token" None []) as (_ & H & _).
    apply (H None). reflexivity.
Defined.

(** *** The walk on pages that always have a next *)

Lemma walk_linked remote fuel access_token limit artists after log data
    new after' :
  decode (remote log (following_call access_token limit after)) = Ok data ->
  page_with_next data new after' ->
  get_followed_artists_loop remote (S fuel) access_token limit artists
    after log
  = get_followed_artists_loop remote fuel access_token limit
      (artists ++ new) after'
      (log ++ [following_call access_token limit after]).
Proof.
  intros Hd [Ht (page & items & next & cursors & Hp & Hi & Hit & Hn & Hnt
                   & Hc & Ha)].
  rewrite get_followed_artists_loop_unfold, Hd. cbv zeta.
  rewrite Ht, Hp. cbn [negb rbind]. rewrite Hi. cbn [rbind].
  rewrite Hit, Hn, Hnt, Hc. cbn [negb rbind]. rewrite Ha. reflexivity.
Qed.

(** X2.  The walk has no bound of its own on the number of pages: when
    every answer of the service is a page with a true [next], the walk
    makes as many requests as it has fuel and does not return. *)
Theorem walk_without_last_page remote access_token limit :
  (forall h after,
     exists data new after',
       decode (remote h (following_call access_token limit after)) = Ok data
       /\ page_with_next data new after') ->
  forall fuel artists after log,
    exists log',
      get_followed_artists_loop remote fuel access_token limit artists
        after log = (OutOfFuel, log')
      /\ length log' = length log + fuel
      /\ exists ext, log' = log ++ ext
           /\ Forall (fun c => exists a,
                        c = following_call access_token limit a) ext.
Proof.
  intros Hsrv fuel. induction fuel as [|fuel IH]; intros artists after log.
  - exists log. simpl. split; [reflexivity|]. split; [lia|].
    exists []. rewrite app_nil_r. auto.
  - destruct (Hsrv log after) as (data & new & after' & Hd & Hp).
    rewrite (walk_linked _ _ _ _ _ _ _ data new after' Hd Hp).
    destruct (IH (artists ++ new) after'
                (log ++ [following_call access_token limit after]))
      as (log' & Hrun & Hlen & ext & Hext & Hall).
    exists log'. split; [exact Hrun|]. split.
    + rewrite Hlen, length_app. simpl. lia.
    + exists (following_call access_token limit after :: ext).
      rewrite Hext, <- app_assoc. split; [reflexivity|].
      constructor; [exists after; reflexivity|assumption].
Qed.

Lemma endless_linked h after :
  exists data new after',
    decode (endless h (following_call "token" 50 after)) = Ok data
    /\ page_with_next data new after'.
Proof.
  eexists _, _, _. split; [reflexivity|].
  split; [reflexivity|]. repeat eexists.
Qed.

Lemma walk_without_last_page_witness :
  exists log',
    get_followed_artists endless 7 "token" 50 [] = (OutOfFuel, log')
    /\ length log' = 7.
Proof.
  destruct (walk_without_last_page endless "token" 50 endless_linked
              7 [] PNone []) as (log' & Hrun & Hlen & _).
  exists log'. split; [exact Hrun|exact Hlen].
Defined.

Lemma walk_false_cursor remote fuel access_token limit artists after log :
  Py.truthy after = false ->
  get_followed_artists_loop remote fuel access_token limit artists after log
  = get_followed_artists_loop remote fuel access_token limit artists PNone
      log.
Proof.
  intros Ha. destruct fuel as [|fuel]; [reflexivity|].
  rewrite !get_followed_artists_loop_unfold.
  replace (following_call access_token limit after)
    with (following_call access_token limit PNone); [reflexivity|].
  unfold following_call, following_params. rewrite Ha. reflexivity.
Qed.

(** X3.  The cursor is sent only when it is true.  When a page has a
    true [next] but a false cursor ([None] or the empty string), the
    request that follows is the request of the first page over again:
    the walk starts over from the first page, keeping the artists it
    has. *)
Theorem false_cursor_restarts_walk remote access_token limit fuel
    log data new after :
  decode (remote log (following_call access_token limit PNone)) = Ok data ->
  page_with_next data new after ->
  Py.truthy after = false ->
  following_call access_token limit after
  = following_call access_token limit PNone
  /\ get_followed_artists remote (S fuel) access_token limit log
     = get_followed_artists_loop remote fuel access_token limit new PNone
         (log ++ [following_call access_token limit PNone]).
Proof.
  intros Hd Hp Ha. split.
  - unfold following_call, following_params. rewrite Ha. reflexivity.
  - unfold get_followed_artists.
    rewrite (walk_linked _ _ _ _ _ _ _ data new after Hd Hp).
    apply walk_false_cursor. assumption.
Qed.

Lemma false_cursor_restarts_walk_witness :
  get_followed_artists empty_cursor 2 "token" 50 []
  = (Ok (artist_obj "a1" "One" :: five_artists),
     [following_call "token" 50 PNone; following_call "token" 50 PNone]).
Proof.
  assert (Hp : page_with_next
                 (linked_page [artist_obj "a1" "One"] (PStr ""))
                 [artist_obj "a1" "One"] (PStr "")).
  { split; [reflexivity|]. repeat eexists. }
  rewrite (proj2 (false_cursor_restarts_walk empty_cursor "token" 50 1 []
                    (linked_page [artist_obj "a1" "One"] (PStr ""))
                    [artist_obj "a1" "One"] (PStr "")
                    eq_refl Hp eq_refl)).
  reflexivity.
Defined.

(** *** Number of write calls, and a write that fails *)

Lemma range_from_length fuel k n :
  n <= k + fuel * 100 ->
  length (Py.range_from fuel k n 100) = (n - k + 99) / 100.
Proof.
  revert k; induction fuel as [|fuel IH]; intros k Hf.
  - replace (n - k) with 0 by lia. reflexivity.
  - change (Py.range_from (S fuel) k n 100)
      with (if Nat.ltb k n
            then k :: Py.range_from fuel (k + 100) n 100 else []).
    destruct (Nat.ltb_spec k n) as [Hlt|Hge].
    + cbn [length]. rewrite IH by lia.
      destruct (Nat.le_gt_cases (k + 100) n) as [H|H].
      * replace (n - k + 99) with ((n - (k + 100) + 99) + 1 * 100) by lia.
        rewrite Nat.div_add by lia. lia.
      * replace (n - (k + 100)) with 0 by lia.
        replace (n - k + 99) with ((n - k - 1) + 1 * 100) by lia.
        rewrite Nat.div_add by lia.
        rewrite (Nat.div_small (n - k - 1)) by lia. reflexivity.
    + replace (n - k) with 0 by lia. reflexivity.
Qed.

Lemma write_step remote c log :
  (perform remote c ;;; ret tt) log
  = match remote log c with
    | Some _ => (Ok tt, log ++ [c])
    | None => (Raise ConnectionError, log ++ [c])
    end.
Proof. unfold bind, perform, ret. destruct (remote log c); reflexivity. Qed.

Lemma add_tracks_outcome remote access_token playlist_id
    (track_uris : list pyval) log :
  add_tracks_to_playlist remote access_token playlist_id track_uris log
  = write_outcome remote
      (map (add_call access_token playlist_id) (batches track_uris)) log.
Proof.
  unfold add_tracks_to_playlist, batches.
  generalize (Py.range 0 (length track_uris) 100). intros idx. revert log.
  induction idx as [|i idx IH]; intros log; [reflexivity|].
  cbn [for_each map write_outcome]. unfold bind at 1.
  rewrite write_step. unfold add_call at 1.
  destruct (remote log _); [apply IH|reflexivity].
Qed.

Lemma write_outcome_prefix remote (cs : list call) log :
  exists n, snd (write_outcome remote cs log) = log ++ firstn n cs.
Proof.
  revert log. induction cs as [|c cs IH]; intros log.
  - exists 0. simpl. rewrite app_nil_r. reflexivity.
  - simpl. destruct (remote log c).
    + destruct (IH (log ++ [c])) as [n Hn]. exists (S n).
      rewrite Hn, <- app_assoc. reflexivity.
    + exists 1. reflexivity.
Qed.

Lemma write_outcome_fails remote (cs : list call) : forall k log c,
  nth_error cs k = Some c ->
  (forall j cj, j < k -> nth_error cs j = Some cj ->
                remote (log ++ firstn j cs) cj <> None) ->
  remote (log ++ firstn k cs) c = None ->
  write_outcome remote cs log
  = (Raise ConnectionError, log ++ firstn (S k) cs).
Proof.
  induction cs as [|c0 cs IH]; intros k log c Hk Hbefore Hfail.
  - destruct k; discriminate.
  - destruct k as [|k]; simpl in Hk.
    + injection Hk as ->. simpl in Hfail. rewrite app_nil_r in Hfail.
      simpl. rewrite Hfail. reflexivity.
    + simpl. specialize (Hbefore 0 c0 (Nat.lt_0_succ k) eq_refl) as H0.
      simpl in H0. rewrite app_nil_r in H0.
      destruct (remote log c0) as [r|]; [|congruence].
      rewrite (IH k (log ++ [c0]) c Hk).
      * rewrite <- app_assoc. reflexivity.
      * intros j cj Hj Hcj. rewrite <- app_assoc.
        apply (Hbefore (S j) cj); [lia|exact Hcj].
      * rewrite <- app_assoc. exact Hfail.
Qed.

Lemma batches_length (track_uris : list pyval) :
  length (batches track_uris) = (length track_uris + 99) / 100.
Proof.
  unfold batches, Py.range. rewrite length_map, range_from_length by lia.
  rewrite Nat.sub_0_r. reflexivity.
Qed.

(** X4.  The number of batches is the number of URIs divided by 100,
    rounded up.  Whatever the service answers, the write calls made are
    the first batches, in order, so never more than that number; for an
    empty list no call is made. *)
Theorem add_tracks_to_playlist_call_count remote access_token playlist_id
    (track_uris : list pyval) log :
  length (batches track_uris) = (length track_uris + 99) / 100
  /\ (exists n,
        snd (add_tracks_to_playlist remote access_token playlist_id
               track_uris log)
        = log ++ map (add_call access_token playlist_id)
                   (firstn n (batches track_uris))
        /\ n <= (length track_uris + 99) / 100)
  /\ add_tracks_to_playlist remote access_token playlist_id [] log
     = (Ok tt, log).
Proof.
  split; [apply batches_length|]. split; [|reflexivity].
  rewrite add_tracks_outcome.
  destruct (write_outcome_prefix remote
              (map (add_call access_token playlist_id)
                 (batches track_uris)) log) as [n Hn].
  exists (Nat.min n (length (batches track_uris))). split.
  - rewrite Hn, firstn_map. f_equal. f_equal.
    destruct (Nat.le_gt_cases n (length (batches track_uris))) as [H|H].
    + rewrite Nat.min_l by assumption. reflexivity.
    + rewrite Nat.min_r by lia.
      rewrite !firstn_all2 by lia. reflexivity.
  - rewrite <- batches_length. lia.
Qed.

(** X5.  The batches are written one after the other and a transport
    failure is not caught: when the first [k] writes are answered and
    the next one fails, [add_tracks_to_playlist] raises with those
    [k + 1] calls made, the earlier batches already written and the
    later ones never sent. *)
Theorem add_tracks_to_playlist_stops_at_failure remote access_token
    playlist_id (track_uris : list pyval) log k b :
  let cs := map (add_call access_token playlist_id) (batches track_uris) in
  nth_error (batches track_uris) k = Some b ->
  (forall j cj, j < k -> nth_error cs j = Some cj ->
                remote (log ++ firstn j cs) cj <> None) ->
  remote (log ++ firstn k cs) (add_call access_token playlist_id b) = None ->
  add_tracks_to_playlist remote access_token playlist_id track_uris log
  = (Raise ConnectionError, log ++ firstn (S k) cs)
  /\ length (firstn (S k) cs) = S k.
Proof.
  intros cs Hb Hbefore Hfail. rewrite add_tracks_outcome. fold cs.
  assert (Hc : nth_error cs k
               = Some (add_call access_token playlist_id b)).
  { unfold cs. rewrite nth_error_map, Hb. reflexivity. }
  split.
  - apply (write_outcome_fails remote cs k log _ Hc Hbefore Hfail).
  - rewrite length_firstn. apply Nat.min_l.
    apply Nat.le_succ_l. apply nth_error_Some. congruence.
Qed.

Lemma add_tracks_to_playlist_stops_at_failure_witness :
  let cs := map (add_call "token" (PStr "playlist"))
              (batches (sample_uris 450)) in
  add_tracks_to_playlist drops_third_write "token" (PStr "playlist")
    (sample_uris 450) []
  = (Raise ConnectionError, firstn 3 cs)
  /\ length cs = 5.
Proof.
  intros cs. split; [|reflexivity].
  refine (proj1 (add_tracks_to_playlist_stops_at_failure drops_third_write
                   "token" (PStr "playlist") (sample_uris 450) [] 2
                   (firstn 100 (skipn 200 (sample_uris 450)))
                   eq_refl _ eq_refl)).
  intros j cj Hj Hcj.
  destruct j as [|[|j]]; [| |lia];
    simpl in Hcj; injection Hcj as <-; discriminate.
Defined.

(** *** Creating and filling the playlist *)

Lemma get_user_profile_spec remote access_token log :
  get_user_profile remote access_token log
  = (decode (remote log (me_call access_token)),
     log ++ [me_call access_token]).
Proof. unfold get_user_profile. apply make_request_spec. Qed.

Lemma create_playlist_spec remote access_token user_id name description log :
  create_playlist remote access_token user_id name description log
  = (created (remote log (create_call access_token user_id name
                            description)),
     log ++ [create_call access_token user_id name description]).
Proof.
  unfold create_playlist, bind, perform, created, create_call.
  destruct (remote log _) as [resp|]; [|reflexivity].
  unfold response_json. destruct (json resp); reflexivity.
Qed.

Lemma comprehension_uri (recent_tracks : list pyval) :
  Forall (fun t => exists u, Py.getitem t "uri" = Ok u) recent_tracks ->
  comprehension (fun track => Py.getitem track "uri") recent_tracks
  = Ok (map (field "uri") recent_tracks).
Proof.
  induction 1 as [|t l [u Hu] _ IH]; [reflexivity|].
  simpl. rewrite Hu, IH. simpl. unfold field. rewrite Hu. reflexivity.
Qed.

(** The run of [materialize] once the profile and the creation have
    been answered. *)
Lemma materialize_run remote clk access_token recent_tracks log
    profile user_id playlist :
  decode (remote log (me_call access_token)) = Ok profile ->
  Py.getitem profile "id" = Ok user_id ->
  let create := create_call access_token user_id (playlist_name clk)
                  (playlist_description clk) in
  created (remote (log ++ [me_call access_token]) create) = Ok playlist ->
  Forall (fun t => exists u, Py.getitem t "uri" = Ok u) recent_tracks ->
  let log2 := log ++ [me_call access_token; create] in
  materialize remote clk access_token recent_tracks log
  = match Py.getitem playlist "id" with
    | Ok playlist_id =>
        match write_outcome remote
                (map (add_call access_token playlist_id)
                   (batches (map (field "uri") recent_tracks))) log2 with
        | (Ok _, log3) => (success_reply clk playlist recent_tracks, log3)
        | (Raise e, log3) => (Raise e, log3)
        | (OutOfFuel, log3) => (OutOfFuel, log3)
        end
    | Raise e => (Raise e, log2)
    | OutOfFuel => (OutOfFuel, log2)
    end.
Proof.
  intros Hprofile Hid create Hcreated Huris log2.
  unfold materialize. unfold bind at 1.
  rewrite get_user_profile_spec, Hprofile.
  rewrite Hid, bind_lift_Ok. unfold bind at 1.
  rewrite create_playlist_spec.
  fold (playlist_name clk) (playlist_description clk). fold create.
  rewrite Hcreated.
  rewrite (comprehension_uri recent_tracks Huris), bind_lift_Ok.
  replace ((log ++ [me_call access_token]) ++ [create]) with log2
    by (unfold log2; rewrite <- app_assoc; reflexivity).
  destruct (Py.getitem playlist "id") as [playlist_id| |];
    [|reflexivity|reflexivity].
  rewrite bind_lift_Ok. unfold bind at 1.
  rewrite add_tracks_outcome.
  destruct (write_outcome remote _ log2) as [[[]| |] log3];
    [|reflexivity|reflexivity].
  unfold success_reply, bind, lift, ret.
  destruct (Py.getitem playlist "external_urls") as [urls| |];
    [|reflexivity|reflexivity].
  simpl. destruct (Py.getitem urls "spotify"); reflexivity.
Qed.

Lemma write_outcome_all remote (cs : list call) log :
  (forall h c, In c cs -> remote h c <> None) ->
  write_outcome remote cs log = (Ok tt, log ++ cs).
Proof.
  revert log. induction cs as [|c cs IH]; intros log Hans.
  - simpl. rewrite app_nil_r. reflexivity.
  - simpl. destruct (remote log c) eqn:E.
    + rewrite IH, <- app_assoc; [reflexivity|].
      intros h c' Hc'. apply Hans. right. assumption.
    + exfalso. apply (Hans log c); [left; reflexivity|assumption].
Qed.

Lemma generate_playlist_found remote set_iter clk fuel access_token log
    t ts log1 :
  discover remote set_iter clk fuel access_token log = (Ok (t :: ts), log1) ->
  generate_playlist remote set_iter clk fuel (Some access_token) log
  = try_except (materialize remote clk access_token (t :: ts)) log1.
Proof.
  intros Hd. unfold generate_playlist, try_except, bind. rewrite Hd.
  reflexivity.
Qed.

(** X6.  With the profile and the creation answered, and every write
    answered, whatever the status code of the answers: the route calls
    the profile, creates one playlist named after the day, and writes
    the URIs of the tracks found, in the order found, batch by batch;
    it reports as added the number of tracks found and previews the
    first ten of them. *)
Theorem materialize_success remote clk access_token recent_tracks log
    profile user_id playlist playlist_id urls url :
  decode (remote log (me_call access_token)) = Ok profile ->
  Py.getitem profile "id" = Ok user_id ->
  let create := create_call access_token user_id (playlist_name clk)
                  (playlist_description clk) in
  created (remote (log ++ [me_call access_token]) create) = Ok playlist ->
  Forall (fun t => exists u, Py.getitem t "uri" = Ok u) recent_tracks ->
  Py.getitem playlist "id" = Ok playlist_id ->
  Py.getitem playlist "external_urls" = Ok urls ->
  Py.getitem urls "spotify" = Ok url ->
  (forall h b, remote h (add_call access_token playlist_id b) <> None) ->
  materialize remote clk access_token recent_tracks log
  = (Ok (Success (playlist_name clk) url (length recent_tracks)
           (firstn 10 recent_tracks)),
     log ++ me_call access_token :: create
         :: map (add_call access_token playlist_id)
              (batches (map (field "uri") recent_tracks)))
  /\ length (firstn 10 recent_tracks) = Nat.min 10 (length recent_tracks).
Proof.
  intros Hprofile Hid create Hcreated Huris Hpid Hurls Hurl Hans.
  split; [|apply length_firstn].
  rewrite (materialize_run remote clk access_token recent_tracks log
             profile user_id playlist Hprofile Hid Hcreated Huris).
  rewrite Hpid, write_outcome_all.
  - unfold success_reply. rewrite Hurls. simpl. rewrite Hurl. simpl.
    fold create. rewrite <- app_assoc. reflexivity.
  - intros h c Hc. apply in_map_iff in Hc. destruct Hc as [b [<- _]].
    apply Hans.
Qed.

Lemma materialize_success_witness :
  materialize scenario scenario_clock "token" two_records []
  = (Ok (Success "Weekly Discoveries - 2024-03-18"
           (PStr "https://open.spotify.com/playlist/playlist1") 2
           two_records),
     [me_call "token";
      create_call "token" (PStr "user1") (playlist_name scenario_clock)
        (playlist_description scenario_clock);
      add_call "token" (PStr "playlist1")
        [PStr "spotify:track:t1"; PStr "spotify:track:t2"]]).
Proof.
  assert (Huris : Forall (fun t => exists u, Py.getitem t "uri" = Ok u)
                    two_records).
  { repeat constructor; eexists; reflexivity. }
  exact (proj1 (materialize_success scenario scenario_clock "token"
                  two_records [] (PDict [("id", PStr "user1")])
                  (PStr "user1")
                  (PDict [("id", PStr "playlist1");
                          ("external_urls",
                            PDict [("spotify",
                              PStr "https://open.spotify.com/playlist/playlist1")])])
                  (PStr "playlist1")
                  (PDict [("spotify",
                     PStr "https://open.spotify.com/playlist/playlist1")])
                  (PStr "https://open.spotify.com/playlist/playlist1")
                  eq_refl eq_refl eq_refl Huris eq_refl eq_refl eq_refl
                  (fun h b => ltac:(discriminate)))).
Defined.

(** X7.  When the profile call is answered 401 after tracks were found,
    [user_profile] is [None] and subscripting it raises: the route
    replies with the failure for [TypeError], having made no write
    call; no playlist is created. *)
Theorem unauthorized_profile_fails_run remote set_iter clk fuel access_token
    log t ts log1 body :
  discover remote set_iter clk fuel access_token log = (Ok (t :: ts), log1) ->
  remote log1 (me_call access_token) = Some (mkResponse 401 body) ->
  materialize remote clk access_token (t :: ts) log1
  = (Raise TypeError, log1 ++ [me_call access_token])
  /\ generate_playlist remote set_iter clk fuel (Some access_token) log
     = (Ok (Failed TypeError), log1 ++ [me_call access_token])
  /\ exists ext, log1 ++ [me_call access_token] = log ++ ext
                 /\ Forall is_get ext.
Proof.
  intros Hd H401.
  assert (Hm : materialize remote clk access_token (t :: ts) log1
               = (Raise TypeError, log1 ++ [me_call access_token])).
  { unfold materialize. unfold bind at 1.
    rewrite get_user_profile_spec, H401. reflexivity. }
  split; [exact Hm|]. split.
  - rewrite (generate_playlist_found _ _ _ _ _ _ t ts log1 Hd).
    unfold try_except. rewrite Hm. reflexivity.
  - destruct (discover_gets remote set_iter clk fuel access_token log)
      as [e1 [H1 F1]].
    rewrite Hd in H1. simpl in H1. subst log1.
    exists (e1 ++ [me_call access_token]). rewrite app_assoc.
    split; [reflexivity|]. apply Forall_app. split; [assumption|].
    constructor; [exact I|constructor].
Qed.

Lemma unauthorized_profile_fails_run_witness :
  fst (generate_playlist expires_midway insertion_order scenario_clock 2
         (Some "token") []) = Ok (Failed TypeError)
  /\ filter is_post
       (snd (generate_playlist expires_midway insertion_order
               scenario_clock 2 (Some "token") [])) = [].
Proof.
  destruct (discover expires_midway insertion_order scenario_clock 2
              "token" []) as [[[|t ts]| |] log1] eqn:Hd;
    try (vm_compute in Hd; discriminate).
  destruct (unauthorized_profile_fails_run expires_midway insertion_order
              scenario_clock 2 "token" [] t ts log1 _ Hd eq_refl)
    as (_ & Hrun & _).
  rewrite Hrun. split; [reflexivity|].
  rewrite <- Hrun. vm_compute. reflexivity.
Defined.

(** X8.  The answer to the creation is decoded without a look at its
    status.  When it is an object without [id], such as the error
    object of a refusal, the run fails with [KeyError] right after the
    creation call: no track is written. *)
Theorem refused_creation_fails_run remote clk access_token recent_tracks log
    profile user_id d :
  decode (remote log (me_call access_token)) = Ok profile ->
  Py.getitem profile "id" = Ok user_id ->
  let create := create_call access_token user_id (playlist_name clk)
                  (playlist_description clk) in
  created (remote (log ++ [me_call access_token]) create) = Ok (PDict d) ->
  Py.lookup "id" d = None ->
  Forall (fun t => exists u, Py.getitem t "uri" = Ok u) recent_tracks ->
  materialize remote clk access_token recent_tracks log
  = (Raise KeyError, log ++ [me_call access_token; create]).
Proof.
  intros Hprofile Hid create Hcreated Hd Huris.
  rewrite (materialize_run remote clk access_token recent_tracks log
             profile user_id (PDict d) Hprofile Hid Hcreated Huris).
  rewrite (getitem_missing d "id" Hd). reflexivity.
Qed.

Lemma refused_creation_fails_run_witness :
  materialize create_refused scenario_clock "token" two_records []
  = (Raise KeyError,
     [me_call "token";
      create_call "token" (PStr "user1") (playlist_name scenario_clock)
        (playlist_description scenario_clock)]).
Proof.
  assert (Huris : Forall (fun t => exists u, Py.getitem t "uri" = Ok u)
                    two_records).
  { repeat constructor; eexists; reflexivity. }
  exact (refused_creation_fails_run create_refused scenario_clock "token"
           two_records [] (PDict [("id", PStr "user1")]) (PStr "user1")
           [("error", PDict [("status", PInt 403);
                             ("message", PStr "Insufficient client scope")])]
           eq_refl eq_refl eq_refl eq_refl Huris).
Defined.

(** X9.  The address of the playlist is read after the tracks have been
    written.  When the answer to the creation has an [id] but no
    [external_urls], every batch is written and the run then fails with
    [KeyError]: the playlist exists and is filled, and the reply is the
    failure. *)
Theorem missing_url_fails_after_writes remote clk access_token recent_tracks
    log profile user_id d playlist_id :
  decode (remote log (me_call access_token)) = Ok profile ->
  Py.getitem profile "id" = Ok user_id ->
  let create := create_call access_token user_id (playlist_name clk)
                  (playlist_description clk) in
  created (remote (log ++ [me_call access_token]) create) = Ok (PDict d) ->
  Py.lookup "id" d = Some playlist_id ->
  Py.lookup "external_urls" d = None ->
  Forall (fun t => exists u, Py.getitem t "uri" = Ok u) recent_tracks ->
  (forall h b, remote h (add_call access_token playlist_id b) <> None) ->
  materialize remote clk access_token recent_tracks log
  = (Raise KeyError,
     log ++ me_call access_token :: create
         :: map (add_call access_token playlist_id)
              (batches (map (field "uri") recent_tracks))).
Proof.
  intros Hprofile Hid create Hcreated Hpid Hurls Huris Hans.
  rewrite (materialize_run remote clk access_token recent_tracks log
             profile user_id (PDict d) Hprofile Hid Hcreated Huris).
  simpl Py.getitem at 1. rewrite Hpid. rewrite write_outcome_all.
  - unfold success_reply. rewrite (getitem_missing d "external_urls" Hurls).
    simpl. fold create. rewrite <- app_assoc. reflexivity.
  - intros h c Hc. apply in_map_iff in Hc. destruct Hc as [b [<- _]].
    apply Hans.
Qed.

Lemma missing_url_fails_after_writes_witness :
  materialize no_urls scenario_clock "token" two_records []
  = (Raise KeyError,
     [me_call "token";
      create_call "token" (PStr "user1") (playlist_name scenario_clock)
        (playlist_description scenario_clock);
      add_call "token" (PStr "playlist1")
        [PStr "spotify:track:t1"; PStr "spotify:track:t2"]]).
Proof.
  assert (Huris : Forall (fun t => exists u, Py.getitem t "uri" = Ok u)
                    two_records).
  { repeat constructor; eexists; reflexivity. }
  exact (missing_url_fails_after_writes no_urls scenario_clock "token"
           two_records [] (PDict [("id", PStr "user1")]) (PStr "user1")
           [("id", PStr "playlist1")] (PStr "playlist1")
           eq_refl eq_refl eq_refl eq_refl eq_refl Huris
           (fun h b => ltac:(discriminate))).
Defined.

(** *** The list of tracks found *)

Lemma extends_refl l : extends_with_records l l.
Proof. exists []. rewrite app_nil_r. auto. Qed.

Lemma extends_trans a b c :
  extends_with_records a b -> extends_with_records b c ->
  extends_with_records a c.
Proof.
  intros [x [-> Fx]] [y [-> Fy]]. exists (x ++ y).
  rewrite app_assoc. split; [reflexivity|]. apply Forall_app. auto.
Qed.

Lemma for_each_extends {A} (l : list A)
    (body : A -> list pyval -> M (list pyval)) :
  (forall x s log s' log',
     body x s log = (Ok s', log') -> extends_with_records s s') ->
  forall s log s' log',
    for_each l body s log = (Ok s', log') -> extends_with_records s s'.
Proof.
  intros Hbody. induction l as [|x l IH]; intros s log s' log' H.
  - simpl in H. injection H as <- _. apply extends_refl.
  - simpl in H. unfold bind in H.
    destruct (body x s log) as [[s1| |] log1] eqn:E; try discriminate.
    apply (extends_trans s s1 s').
    + apply (Hbody x s log s1 log1 E).
    + apply (IH s1 log1 s' log' H).
Qed.

Lemma append_track_extends album track s log s' log' :
  append_track album track s log = (Ok s', log') ->
  extends_with_records s s'.
Proof.
  unfold append_track, bind, lift, ret.
  destruct (Py.getitem track "uri") as [uri| |]; try discriminate.
  destruct (Py.getitem track "name") as [name| |]; try discriminate.
  destruct (Py.getitem album "artists") as [artists| |]; try discriminate.
  destruct (Py.getitem0 artists) as [first| |]; try discriminate.
  destruct (Py.getitem first "name") as [artist| |]; try discriminate.
  destruct (Py.getitem album "name") as [album_name| |]; try discriminate.
  destruct (Py.getitem album "release_date") as [rd| |]; try discriminate.
  intros [= <- _]. eexists. split; [reflexivity|].
  repeat constructor. unfold is_track_record. eauto 6.
Qed.

Lemma check_album_extends remote access_token one_week_ago album s log
    s' log' :
  check_album remote access_token one_week_ago album s log = (Ok s', log') ->
  extends_with_records s s'.
Proof.
  unfold check_album, bind at 1, lift at 1.
  destruct (Py.getitem album "release_date") as [v| |]; try discriminate.
  unfold bind at 1, lift at 1. unfold bind at 1, lift at 1.
  destruct (parse_release_date v) as [d| |]; try discriminate.
  destruct (Datetime.ge d one_week_ago).
  - unfold flatten, bind at 1, lift at 1.
    destruct (Py.getitem album "id") as [aid| |]; try discriminate.
    unfold bind at 1.
    destruct (get_album_tracks remote access_token aid log)
      as [[tracks| |] log1]; try discriminate.
    unfold bind at 1, lift at 1.
    destruct (Py.iter tracks) as [ts| |]; try discriminate.
    apply for_each_extends. intros x. apply append_track_extends.
  - intros [= <- _]. apply extends_refl.
Qed.

Lemma check_artist_extends remote access_token one_week_ago artist_id s log
    s' log' :
  check_artist remote access_token one_week_ago artist_id s log
  = (Ok s', log') ->
  extends_with_records s s'.
Proof.
  unfold check_artist, bind at 1.
  destruct (get_artist_albums remote access_token artist_id 10 log)
    as [[albums| |] log1]; try discriminate.
  unfold bind at 1, lift at 1.
  destruct (Py.iter albums) as [l| |]; try discriminate.
  apply for_each_extends. intros x. apply check_album_extends.
Qed.

Lemma track_record_has_uri l :
  Forall is_track_record l ->
  Forall (fun t => exists u, Py.getitem t "uri" = Ok u) l.
Proof.
  apply Forall_impl. intros t (uri & n & a & al & rd & ->).
  exists uri. reflexivity.
Qed.

(** X10.  The list of tracks found only grows, and only by the records
    the route builds: checking an artist leaves the tracks found so far
    in place and appends track records to them.  So the list that
    [discover] returns holds track records only, and reading the URI of
    each of them, as the route does before writing, does not raise. *)
Theorem recent_tracks_append_only remote set_iter clk fuel access_token :
  (forall one_week_ago artist_id recent_tracks log l log',
     check_artist remote access_token one_week_ago artist_id recent_tracks
       log = (Ok l, log') ->
     exists added,
       l = recent_tracks ++ added /\ Forall is_track_record added)
  /\ (forall log l log',
        discover remote set_iter clk fuel access_token log = (Ok l, log') ->
        Forall is_track_record l
        /\ comprehension (fun track => Py.getitem track "uri") l
           = Ok (map (field "uri") l)).
Proof.
  split.
  - intros w a s log l log' H.
    exact (check_artist_extends remote access_token w a s log l log' H).
  - intros log l log' H.
    assert (Hrec : Forall is_track_record l).
    { unfold discover, bind at 1 in H.
      destruct (get_followed_artists remote fuel access_token 50 log)
        as [[followed| |] log1]; try discriminate.
      unfold bind at 1 in H.
      destruct (expand remote access_token followed log1)
        as [[all| |] log2]; try discriminate.
      unfold bind at 1, lift at 1 in H.
      destruct (sub_timedelta (now clk) 7 0) as [w| |]; try discriminate.
      unfold recent_releases in H.
      apply for_each_extends in H.
      - destruct H as [added [-> Hadd]]. exact Hadd.
      - intros x. apply check_artist_extends. }
    split; [exact Hrec|].
    apply comprehension_uri, track_record_has_uri. exact Hrec.
Qed.

Lemma recent_tracks_append_only_witness :
  Forall is_track_record two_records
  /\ discover scenario insertion_order scenario_clock 2 "token" []
     = (Ok two_records,
        snd (discover scenario insertion_order scenario_clock 2 "token" [])).
Proof.
  assert (Hd : discover scenario insertion_order scenario_clock 2 "token" []
               = (Ok two_records,
                  snd (discover scenario insertion_order scenario_clock 2
                         "token" []))).
  { vm_compute. reflexivity. }
  split; [|exact Hd].
  exact (proj1 (proj2 (recent_tracks_append_only scenario insertion_order
                         scenario_clock 2 "token") [] two_records _ Hd)).
Defined.

(** *** A release date that does not parse *)

Lemma check_album_skips remote access_token one_week_ago album s log v d :
  Py.getitem album "release_date" = Ok v ->
  parse_release_date v = Ok d ->
  (d < one_week_ago)%Z ->
  check_album remote access_token one_week_ago album s log = (Ok s, log).
Proof.
  intros Hv Hd Hlt. unfold check_album.
  rewrite Hv, !bind_lift_Ok, Hd, bind_lift_Ok. unfold Datetime.ge.
  replace (one_week_ago <=? d)%Z with false
    by (symmetry; apply Z.leb_gt; assumption).
  reflexivity.
Qed.

(** X11.  A release date that does not parse is not skipped: when the
    listing of an artist holds, after albums that are outside the
    window, an album whose date raises, [check_artist] raises with it,
    having made the listing call only; the albums after it are not
    looked at and the tracks found so far are not returned. *)
Theorem unparsable_date_aborts_artist remote access_token one_week_ago
    artist_id recent_tracks log before bad after v e :
  fst (get_artist_albums remote access_token artist_id 10 log)
  = Ok (PList (before ++ bad :: after)) ->
  Forall (fun a => exists v d,
            Py.getitem a "release_date" = Ok v
            /\ parse_release_date v = Ok d
            /\ (d < one_week_ago)%Z) before ->
  Py.getitem bad "release_date" = Ok v ->
  parse_release_date v = Raise e ->
  check_artist remote access_token one_week_ago artist_id recent_tracks log
  = (Raise e, log ++ [albums_call access_token artist_id]).
Proof.
  intros Hget Hbefore Hv He.
  unfold check_artist.
  rewrite (bind_Ok _ _ log (PList (before ++ bad :: after))
             (log ++ [albums_call access_token artist_id])).
  - simpl Py.iter. rewrite bind_lift_Ok, for_each_app.
    assert (Hpre : forall log0,
      for_each before (check_album remote access_token one_week_ago)
        recent_tracks log0 = (Ok recent_tracks, log0)).
    { clear Hget. induction Hbefore as [|a l (va & d & Hva & Hd & Hlt) _ IH];
        intros log0; [reflexivity|].
      simpl.
      rewrite (bind_Ok _ _ log0 recent_tracks log0).
      - apply IH.
      - apply (check_album_skips _ _ _ _ _ _ va d); assumption. }
    unfold bind at 1. rewrite Hpre. simpl for_each. unfold bind at 1.
    unfold check_album.
    rewrite Hv, !bind_lift_Ok, He. reflexivity.
  - rewrite get_artist_albums_spec in *. simpl in Hget. rewrite Hget.
    reflexivity.
Qed.

Lemma unparsable_date_aborts_artist_witness :
  check_artist month_precision "token" (of_ymd 2024 3 11) (PStr "artist1")
    two_records []
  = (Raise ValueError, [albums_call "token" (PStr "artist1")]).
Proof.
  apply (unparsable_date_aborts_artist month_precision "token"
           (of_ymd 2024 3 11) (PStr "artist1") two_records []
           [album_obj "old" "2020-01-01"] (album_obj "month" "2024-03")
           [album_obj "new" "2024-03-15"] (PStr "2024-03") ValueError).
  - reflexivity.
  - repeat constructor.
    exists (PStr "2020-01-01"), (of_ymd 2020 1 1).
    split; [reflexivity|]. split; [reflexivity|]. reflexivity.
  - reflexivity.
  - reflexivity.
Defined.

(** *** An album without artists *)

(** X21.  The album's artist, name and date are read once per track,
    inside the loop over the tracks.  A qualifying album whose track
    listing is empty adds nothing and does not raise, whatever the album
    lacks; an album with an empty list of artists raises [IndexError] at
    its first track. *)
Theorem flatten_reads_album_per_track remote access_token album album_id
    recent_tracks log log' :
  Py.getitem album "id" = Ok album_id ->
  (get_album_tracks remote access_token album_id log
   = (Ok (PList []), log') ->
   flatten remote access_token album recent_tracks log
   = (Ok recent_tracks, log'))
  /\ (forall t ts u n,
        get_album_tracks remote access_token album_id log
        = (Ok (PList (t :: ts)), log') ->
        Py.getitem t "uri" = Ok u ->
        Py.getitem t "name" = Ok n ->
        Py.getitem album "artists" = Ok (PList []) ->
        flatten remote access_token album recent_tracks log
        = (Raise IndexError, log')).
Proof.
  intros Hid. split.
  - intros Hget. unfold flatten. rewrite Hid, bind_lift_Ok.
    unfold bind at 1. rewrite Hget. reflexivity.
  - intros t ts u n Hget Hu Hn Ha. unfold flatten.
    rewrite Hid, bind_lift_Ok. unfold bind at 1. rewrite Hget.
    simpl Py.iter. rewrite bind_lift_Ok. simpl for_each.
    unfold bind at 1. unfold append_track.
    rewrite Hu, bind_lift_Ok, Hn, bind_lift_Ok, Ha, bind_lift_Ok.
    reflexivity.
Qed.

Lemma flatten_reads_album_per_track_witness :
  flatten accepting "token" (PDict [("id", PStr "album1")]) two_records []
  = (Ok two_records, [tracks_call "token" (PStr "album1")])
  /\ flatten long_catalog "token"
       (PDict [("id", PStr "album1"); ("artists", PList [])]) two_records []
     = (Raise IndexError, [tracks_call "token" (PStr "album1")]).
Proof.
  split.
  - apply (proj1 (flatten_reads_album_per_track accepting "token"
                    (PDict [("id", PStr "album1")]) (PStr "album1")
                    two_records [] _ eq_refl)).
    reflexivity.
  - eapply (proj2 (flatten_reads_album_per_track long_catalog "token"
                     (PDict [("id", PStr "album1"); ("artists", PList [])])
                     (PStr "album1") two_records [] _ eq_refl));
      reflexivity.
Defined.

(** *** Release dates on the time line *)

Lemma make_Ok y m d t :
  make y m d = Ok t -> valid_date y m d /\ t = of_ymd y m d.
Proof.
  unfold make, valid_date.
  destruct (_ && _) eqn:E; [|discriminate].
  intros [= <-]. split; [|reflexivity].
  repeat (apply andb_prop in E; destruct E as [E ?]).
  repeat match goal with
         | H : (_ <=? _)%Z = true |- _ => apply Z.leb_le in H
         end.
  lia.
Qed.

Lemma strptime_Y_Ok s t :
  strptime_Y s = Ok t ->
  String.length s = 4 /\ exists y, valid_date y 1 1 /\ t = of_ymd y 1 1.
Proof.
  unfold strptime_Y.
  destruct (parse_Y s) as [[y rest]|] eqn:E; [|discriminate].
  destruct rest; [|discriminate].
  intros H. split; [exact (parse_Y_length s y E)|].
  exists y. apply make_Ok. assumption.
Qed.

Lemma strptime_Ymd_Ok s t :
  strptime_Ymd s = Ok t ->
  exists y m d, valid_date y m d /\ t = of_ymd y m d.
Proof.
  unfold strptime_Ymd.
  destruct (parse_Y s) as [[y s1]|]; [|discriminate].
  destruct (expect "-" s1) as [s2|]; [|discriminate].
  destruct (parse_m s2) as [[m s3]|]; [|discriminate].
  destruct (expect "-" s3) as [s4|]; [|discriminate].
  destruct (parse_d s4) as [[d rest]|]; [|discriminate].
  destruct rest; [|discriminate].
  intros H. exists y, m, d. apply make_Ok. assumption.
Qed.

(** X12.  A release date that parses is a string of 4 or of 10
    characters, and what it parses to is midnight of a date of the
    calendar, January 1st for a string of 4 characters.  A date such as
    ["2024-3-5"], which the full-date format alone would accept, has 8
    characters and is not parsed. *)
Theorem parse_release_date_result (v : pyval) (t : datetime) :
  parse_release_date v = Ok t ->
  exists s y m d,
    v = PStr s
    /\ (String.length s = 4 \/ String.length s = 10)
    /\ (String.length s = 4 -> m = 1%Z /\ d = 1%Z)
    /\ valid_date y m d
    /\ t = of_ymd y m d
    /\ (t mod us_per_day = 0)%Z.
Proof.
  intros H.
  assert (Hs : exists s, v = PStr s).
  { destruct v; try discriminate. eauto. }
  destruct Hs as [s ->]. unfold parse_release_date in H. simpl in H.
  destruct (Nat.eqb_spec (String.length s) 10) as [H10|Hn].
  - apply strptime_Ymd_Ok in H. destruct H as (y & m & d & Hv & ->).
    exists s, y, m, d. split; [reflexivity|]. split; [auto|].
    split; [intros H4; rewrite H4 in H10; discriminate|].
    split; [exact Hv|]. split; [reflexivity|].
    unfold of_ymd. apply Z.mod_mul.
    unfold us_per_day, us_per_second. lia.
  - apply strptime_Y_Ok in H. destruct H as (H4 & y & Hv & ->).
    exists s, y, 1%Z, 1%Z. split; [reflexivity|]. split; [auto|].
    split; [auto|]. split; [exact Hv|]. split; [reflexivity|].
    unfold of_ymd. apply Z.mod_mul.
    unfold us_per_day, us_per_second. lia.
Qed.

Lemma parse_release_date_result_witness :
  exists s y m d,
    PStr "2024-03-15" = PStr s
    /\ (String.length s = 4 \/ String.length s = 10)
    /\ (String.length s = 4 -> m = 1%Z /\ d = 1%Z)
    /\ valid_date y m d
    /\ of_ymd 2024 3 15 = of_ymd y m d
    /\ (of_ymd 2024 3 15 mod us_per_day = 0)%Z.
Proof.
  exact (parse_release_date_result (PStr "2024-03-15") (of_ymd 2024 3 15)
           eq_refl).
Defined.

Lemma days_before_year_lt y y' :
  (y < y')%Z ->
  (days_before_year y + 365 + (if is_leap y then 1 else 0)
   <= days_before_year y')%Z.
Proof.
  intros Hlt. unfold days_before_year, is_leap. cbv zeta.
  destruct (Z.eqb_spec (y mod 4) 0), (Z.eqb_spec (y mod 100) 0),
    (Z.eqb_spec (y mod 400) 0); simpl;
    Z.div_mod_to_equations; lia.
Qed.

Lemma month_cases m :
  (1 <= m <= 12)%Z ->
  m = 1%Z \/ m = 2%Z \/ m = 3%Z \/ m = 4%Z \/ m = 5%Z \/ m = 6%Z
  \/ m = 7%Z \/ m = 8%Z \/ m = 9%Z \/ m = 10%Z \/ m = 11%Z \/ m = 12%Z.
Proof. lia. Qed.

Ltac month_table :=
  repeat match goal with
         | |- context [Z.to_nat ?k] =>
             let n := eval vm_compute in (Z.to_nat k) in
             change (Z.to_nat k) with n
         end;
  unfold DAYS_IN_MONTH, DAYS_BEFORE_MONTH;
  cbn [nth andb Z.eqb Z.gtb Z.compare Pos.compare Pos.compare_cont Pos.eqb].

Lemma day_of_year_bound y m d :
  (1 <= m <= 12)%Z -> (1 <= d <= days_in_month y m)%Z ->
  (1 <= days_before_month y m + d
   <= 365 + (if is_leap y then 1 else 0))%Z.
Proof.
  intros Hm. unfold days_before_month, days_in_month.
  destruct (is_leap y);
    destruct (month_cases m Hm)
      as [->|[->|[->|[->|[->|[->|[->|[->|[->|[->|[->| ->]]]]]]]]]]];
    month_table; lia.
Qed.

Lemma day_of_year_lt y m d m' d' :
  (1 <= m <= 12)%Z -> (1 <= m' <= 12)%Z -> (m < m')%Z ->
  (d <= days_in_month y m)%Z -> (1 <= d')%Z ->
  (days_before_month y m + d < days_before_month y m' + d')%Z.
Proof.
  intros Hm Hm'. unfold days_before_month, days_in_month.
  destruct (is_leap y);
    destruct (month_cases m Hm)
      as [->|[->|[->|[->|[->|[->|[->|[->|[->|[->|[->| ->]]]]]]]]]]];
    destruct (month_cases m' Hm')
      as [->|[->|[->|[->|[->|[->|[->|[->|[->|[->|[->| ->]]]]]]]]]]];
    month_table; lia.
Qed.

Lemma date_before_lt y m d y' m' d' :
  valid_date y m d -> valid_date y' m' d' ->
  date_before y m d y' m' d' ->
  (ymd2ord y m d < ymd2ord y' m' d')%Z.
Proof.
  intros (Hy & Hm & Hd) (Hy' & Hm' & Hd') H. unfold ymd2ord.
  destruct H as [Hlt|[-> [Hlt|[-> Hlt]]]].
  - pose proof (days_before_year_lt y y' Hlt).
    pose proof (day_of_year_bound y m d Hm Hd).
    pose proof (day_of_year_bound y' m' d' Hm' Hd').
    lia.
  - pose proof (day_of_year_lt y' m d m' d' Hm Hm' Hlt).
    lia.
  - lia.
Qed.

(** X13.  The instants that release dates parse to are in the order of
    the calendar: for two dates of the calendar, the first is before the
    second by year, then month, then day, exactly when its instant is
    the smaller one.  Comparing instants, as the window test does,
    compares dates. *)
Theorem release_instants_in_calendar_order y m d y' m' d' :
  valid_date y m d -> valid_date y' m' d' ->
  (of_ymd y m d < of_ymd y' m' d')%Z <-> date_before y m d y' m' d'.
Proof.
  intros Hv Hv'.
  assert (Hpos : (0 < us_per_day)%Z)
    by (unfold us_per_day, us_per_second; lia).
  unfold of_ymd. split.
  - intros Hlt.
    assert (Hord : (ymd2ord y m d < ymd2ord y' m' d')%Z) by nia.
    destruct (Z.lt_trichotomy y y') as [H|[->|H]].
    + left. assumption.
    + destruct (Z.lt_trichotomy m m') as [H|[->|H]].
      * right. auto.
      * destruct (Z.lt_trichotomy d d') as [H|[->|H]].
        -- right. auto.
        -- lia.
        -- exfalso.
           assert (ymd2ord y' m' d' < ymd2ord y' m' d)%Z; [|lia].
           apply date_before_lt; try assumption. right. auto.
      * exfalso.
        assert (ymd2ord y' m' d' < ymd2ord y' m d)%Z; [|lia].
        apply date_before_lt; try assumption. right. auto.
    + exfalso.
      assert (ymd2ord y' m' d' < ymd2ord y m d)%Z; [|lia].
      apply date_before_lt; try assumption. left. assumption.
  - intros H. pose proof (date_before_lt _ _ _ _ _ _ Hv Hv' H). nia.
Qed.

Lemma release_instants_in_calendar_order_witness :
  (of_ymd 2024 2 29 < of_ymd 2024 3 1)%Z.
Proof.
  apply (release_instants_in_calendar_order 2024 2 29 2024 3 1).
  - unfold valid_date. repeat split; vm_compute; congruence.
  - unfold valid_date. repeat split; vm_compute; congruence.
  - right. split; [reflexivity|]. left. lia.
Defined.

(** X14.  A release date that is a bare year stands for January 1st.
    During the year [year], an album dated with a bare year is in the
    window when that year is a later one, or when it is [year] itself
    and [now] is not after the start of January 8th; an album dated
    with an earlier year is never in the window. *)
Theorem year_only_window (s : string) (y year : Z) (now : datetime) :
  parse_Y s = Some (y, EmptyString) -> (1 <= y)%Z ->
  in_year year now ->
  parse_release_date (PStr s) = Ok (of_ymd y 1 1)
  /\ of_ymd year 1 8 = (of_ymd year 1 1 + 7 * us_per_day)%Z
  /\ (Datetime.ge (of_ymd y 1 1) (now - 7 * us_per_day)%Z = true
      <-> (year < y)%Z \/ (y = year /\ (now <= of_ymd year 1 8)%Z)).
Proof.
  intros Hs Hy [Hlo Hhi].
  assert (Hpos : (0 < us_per_day)%Z)
    by (unfold us_per_day, us_per_second; lia).
  assert (Hjan : forall a, of_ymd a 1 1 = ((days_before_year a + 1)
                                           * us_per_day)%Z).
  { intros a. unfold of_ymd, ymd2ord, days_before_month. month_table.
    f_equal. lia. }
  assert (H8 : of_ymd year 1 8 = (of_ymd year 1 1 + 7 * us_per_day)%Z).
  { rewrite Hjan. unfold of_ymd, ymd2ord, days_before_month. month_table.
    lia. }
  split; [|split; [exact H8|]].
  - unfold parse_release_date. simpl.
    rewrite (parse_Y_length s y Hs). simpl.
    unfold strptime_Y. rewrite Hs.
    pose proof (parse_Y_range s y _ Hs) as Hr.
    unfold make, MINYEAR, MAXYEAR.
    replace (1 <=? y)%Z with true by (symmetry; apply Z.leb_le; lia).
    replace (y <=? 9999)%Z with true by (symmetry; apply Z.leb_le; lia).
    reflexivity.
  - unfold Datetime.ge. rewrite Z.leb_le, H8.
    rewrite !Hjan in *.
    destruct (Z.lt_trichotomy y year) as [H|[->|H]].
    + pose proof (days_before_year_lt y year H).
      destruct (is_leap y); split; intros; [nia|lia|nia|lia].
    + split; intros; [right; split; [reflexivity|lia]|lia].
    + assert (days_before_year (year + 1) <= days_before_year y)%Z.
      { destruct (Z.eq_dec (year + 1) y) as [<-|Hne]; [lia|].
        pose proof (days_before_year_lt (year + 1) y ltac:(lia)).
        destruct (is_leap (year + 1)); lia. }
      split; intros; [left; assumption|nia].
Qed.

Lemma year_only_window_witness :
  Datetime.ge (of_ymd 2024 1 1) (of_ymd 2024 1 5 - 7 * us_per_day)%Z = true
  <-> (2024 < 2024)%Z \/ (2024%Z = 2024%Z
                          /\ (of_ymd 2024 1 5 <= of_ymd 2024 1 8)%Z).
Proof.
  apply (proj2 (proj2 (year_only_window "2024" 2024 2024 (of_ymd 2024 1 5)
                         eq_refl ltac:(lia)
                         ltac:(split; vm_compute; congruence)))).
Defined.

(** *** The authorization callback *)

Lemma given_Some o : given o = true -> exists e, o = Some e.
Proof. destruct o; [eauto|discriminate]. Qed.

Lemma state_differs_false state stored :
  given state = true ->
  state_differs state stored = false <-> stored = state.
Proof.
  intros Hg. destruct state as [a|]; [|discriminate].
  destruct stored as [b|]; simpl.
  - rewrite negb_false_iff, String.eqb_eq. split; congruence.
  - split; discriminate.
Qed.

Lemma callback_calls cfg accounts now code state error s tlog :
  snd (callback cfg accounts now code state error s tlog) = tlog
  \/ snd (callback cfg accounts now code state error s tlog)
     = tlog ++ [code_call cfg code].
Proof.
  unfold callback.
  destruct (given error); [left; reflexivity|].
  destruct (negb (given state) || state_differs state (oauth_state s));
    [left; reflexivity|].
  right. unfold get_access_token, token_post.
  destruct (match accounts tlog (code_call cfg code) with
            | Some resp => _ | None => _ end) as [token_data| |];
    try reflexivity.
  destruct (py_in "access_token" token_data) as [[|]| |]; try reflexivity.
  destruct (Py.getitem token_data "access_token") as [access| |];
    try reflexivity.
  destruct token_data; try reflexivity.
  unfold store_tokens.
  destruct (timedelta_seconds _) as [secs| |]; try reflexivity.
  destruct (add_seconds now secs); reflexivity.
Qed.

Lemma callback_call_iff cfg accounts now code state error s tlog :
  snd (callback cfg accounts now code state error s tlog)
  = tlog ++ [code_call cfg code]
  <-> given error = false /\ given state = true /\ oauth_state s = state.
Proof.
  split.
  - intros H. unfold callback in H.
    destruct (given error).
    { simpl in H. symmetry in H. apply app_neq_self in H. contradiction. }
    destruct (given state) eqn:Hs.
    2:{ simpl in H. symmetry in H. apply app_neq_self in H.
        contradiction. }
    destruct (state_differs state (oauth_state s)) eqn:Hd.
    { simpl in H. symmetry in H. apply app_neq_self in H. contradiction. }
    split; [reflexivity|]. split; [reflexivity|].
    apply (state_differs_false state (oauth_state s) Hs). assumption.
  - intros (He & Hs & Heq).
    destruct (callback_calls cfg accounts now code state error s tlog)
      as [H|H]; [|exact H].
    exfalso. unfold callback in H. rewrite He, Hs in H.
    apply (state_differs_false state (oauth_state s) Hs) in Heq.
    rewrite Heq in H. simpl in H.
    unfold get_access_token, token_post in H.
    destruct (match accounts tlog (code_call cfg code) with
              | Some resp => _ | None => _ end) as [token_data| |];
      try (simpl in H; apply app_neq_self in H; contradiction).
    destruct (py_in "access_token" token_data) as [[|]| |];
      try (simpl in H; apply app_neq_self in H; contradiction).
    destruct (Py.getitem token_data "access_token") as [access| |];
      try (simpl in H; apply app_neq_self in H; contradiction).
    destruct token_data;
      try (simpl in H; apply app_neq_self in H; contradiction).
    unfold store_tokens in H.
    destruct (timedelta_seconds _) as [secs| |];
      try (simpl in H; apply app_neq_self in H; contradiction).
    destruct (add_seconds now secs);
      simpl in H; apply app_neq_self in H; contradiction.
Qed.

(** X15.  The callback asks for a token exactly when no [error]
    argument is given and the [state] argument is given and equal to
    the state stored in the session; it then makes one request, for the
    [code] argument.  An [error] argument wins over everything else,
    and in both refusals the session is left as it was. *)
Theorem callback_exchanges_only_on_matching_state cfg accounts now code
    state error s tlog :
  let r := callback cfg accounts now code state error s tlog in
  (snd r = tlog ++ [code_call cfg code]
   <-> given error = false /\ given state = true /\ oauth_state s = state)
  /\ (forall e, error = Some e -> given error = true ->
        r = (Ok (AuthorizationFailed e), s, tlog))
  /\ (given error = false ->
      given state = false \/ oauth_state s <> state ->
      r = (Ok InvalidState, s, tlog)).
Proof.
  intros r. unfold r. split; [|split].
  - apply callback_call_iff.
  - intros e -> He. unfold callback. rewrite He. reflexivity.
  - intros He Hbad. unfold callback. rewrite He.
    destruct (given state) eqn:Hs; [|reflexivity].
    destruct Hbad as [Hbad|Hbad]; [discriminate|].
    destruct (state_differs state (oauth_state s)) eqn:Hd; [reflexivity|].
    apply (state_differs_false state (oauth_state s) Hs) in Hd.
    contradiction.
Qed.

Lemma callback_exchanges_only_on_matching_state_witness :
  snd (callback sample_config issuing (of_ymd 2024 3 18) (Some "good")
         (Some "st") None (mkSession (Some "st") None None None) [])
  = [code_call sample_config (Some "good")]
  /\ callback sample_config issuing (of_ymd 2024 3 18) (Some "good")
       (Some "st") (Some "access_denied")
       (mkSession (Some "st") None None None) []
     = (Ok (AuthorizationFailed "access_denied"),
        mkSession (Some "st") None None None, [])
  /\ callback sample_config issuing (of_ymd 2024 3 18) (Some "good")
       (Some "other") None (mkSession (Some "st") None None None) []
     = (Ok InvalidState, mkSession (Some "st") None None None, []).
Proof.
  split; [|split].
  - apply (proj1 (callback_exchanges_only_on_matching_state sample_config
                    issuing (of_ymd 2024 3 18) (Some "good") (Some "st")
                    None (mkSession (Some "st") None None None) [])).
    repeat split.
  - apply (proj1 (proj2 (callback_exchanges_only_on_matching_state
                           sample_config issuing (of_ymd 2024 3 18)
                           (Some "good") (Some "st") (Some "access_denied")
                           (mkSession (Some "st") None None None) [])));
      reflexivity.
  - apply (proj2 (proj2 (callback_exchanges_only_on_matching_state
                           sample_config issuing (of_ymd 2024 3 18)
                           (Some "good") (Some "other") None
                           (mkSession (Some "st") None None None) []))).
    + reflexivity.
    + right. discriminate.
Defined.

Lemma callback_passes cfg accounts now code state s tlog :
  given state = true -> oauth_state s = state ->
  callback cfg accounts now code state None s tlog
  = match get_access_token cfg accounts code tlog with
    | (Ok token_data, tlog') =>
        match py_in "access_token" token_data with
        | Ok true =>
            match Py.getitem token_data "access_token" with
            | Ok access =>
                match token_data with
                | PDict d => store_tokens now access d s tlog'
                | _ => (Raise TypeError, s, tlog')
                end
            | Raise e => (Raise e, s, tlog')
            | OutOfFuel => (OutOfFuel, s, tlog')
            end
        | Ok false => (Ok (TokenFailed token_data), s, tlog')
        | Raise e => (Raise e, s, tlog')
        | OutOfFuel => (OutOfFuel, s, tlog')
        end
    | (Raise e, tlog') => (Raise e, s, tlog')
    | (OutOfFuel, tlog') => (OutOfFuel, s, tlog')
    end.
Proof.
  intros Hs Heq. unfold callback. simpl given at 1. cbv iota.
  rewrite Hs. apply (state_differs_false state (oauth_state s) Hs) in Heq.
  rewrite Heq. reflexivity.
Qed.

(** X16.  When the state matches and the token address answers with an
    object that has an [access_token], whatever the status of the
    answer, the session takes the token, the refresh token ([None] when
    there is none) and the expiry, [now] plus [expires_in] seconds, one
    hour when [expires_in] is missing, and the reply is the redirection
    to the dashboard.  The stored state is kept, so a later callback
    with the same state asks for a token again. *)
Theorem callback_stores_tokens cfg accounts now code state s tlog
    status d access seconds t :
  given state = true -> oauth_state s = state ->
  accounts tlog (code_call cfg code)
  = Some (mkResponse status (Some (PDict d))) ->
  Py.lookup "access_token" d = Some access ->
  timedelta_seconds (dict_get d "expires_in" (PInt 3600)) = Ok seconds ->
  add_seconds now seconds = Ok t ->
  let s' := mkSession (oauth_state s) (Some access)
              (Some (dict_get d "refresh_token" PNone)) (Some t) in
  callback cfg accounts now code state None s tlog
  = (Ok RedirectDashboard, s', tlog ++ [code_call cfg code])
  /\ t = (now + seconds * us_per_second)%Z
  /\ (Py.lookup "expires_in" d = None -> seconds = 3600%Z)
  /\ (forall now' code' tlog',
        snd (callback cfg accounts now' code' state None s' tlog')
        = tlog' ++ [code_call cfg code']).
Proof.
  intros Hs Heq Hans Hacc Hsec Ht s'.
  split; [|split; [|split]].
  - rewrite (callback_passes _ _ _ _ _ _ _ Hs Heq).
    unfold get_access_token, token_post. rewrite Hans. simpl json.
    cbv iota beta. simpl py_in. rewrite Hacc.
    simpl Py.getitem. rewrite Hacc.
    unfold store_tokens. rewrite Hsec, Ht. reflexivity.
  - unfold add_seconds in Ht. destruct (_ && _)%Z; [|discriminate].
    injection Ht as <-. reflexivity.
  - intros Hnone. unfold dict_get in Hsec. rewrite Hnone in Hsec.
    simpl in Hsec. injection Hsec as <-. reflexivity.
  - intros now' code' tlog'.
    apply (proj2 (callback_call_iff cfg accounts now' code' state None s'
                    tlog')).
    split; [reflexivity|]. split; [assumption|exact Heq].
Qed.

Lemma callback_stores_tokens_witness :
  callback sample_config issuing (of_ymd 2024 3 18) (Some "good")
    (Some "st") None (mkSession (Some "st") None None None) []
  = (Ok RedirectDashboard,
     mkSession (Some "st") (Some (PStr "token1")) (Some (PStr "refresh1"))
       (Some (of_ymd 2024 3 18 + 3600 * us_per_second)%Z),
     [code_call sample_config (Some "good")]).
Proof.
  exact (proj1 (callback_stores_tokens sample_config issuing
                  (of_ymd 2024 3 18) (Some "good") (Some "st")
                  (mkSession (Some "st") None None None) [] 200
                  [("access_token", PStr "token1");
                   ("token_type", PStr "Bearer");
                   ("expires_in", PInt 3600);
                   ("refresh_token", PStr "refresh1")]
                  (PStr "token1") 3600 _
                  eq_refl eq_refl eq_refl eq_refl eq_refl eq_refl)).
Defined.

(** X17.  When the state matches and the token address answers with an
    object without [access_token], such as the error object of a
    rejected code, the reply shows that object and the session is left
    as it was. *)
Theorem callback_without_token cfg accounts now code state s tlog status d :
  given state = true -> oauth_state s = state ->
  accounts tlog (code_call cfg code)
  = Some (mkResponse status (Some (PDict d))) ->
  Py.lookup "access_token" d = None ->
  callback cfg accounts now code state None s tlog
  = (Ok (TokenFailed (PDict d)), s, tlog ++ [code_call cfg code]).
Proof.
  intros Hs Heq Hans Hacc.
  rewrite (callback_passes _ _ _ _ _ _ _ Hs Heq).
  unfold get_access_token, token_post. rewrite Hans. simpl json.
  cbv iota beta. simpl py_in. rewrite Hacc. reflexivity.
Qed.

Lemma callback_without_token_witness :
  callback sample_config issuing (of_ymd 2024 3 18) (Some "stale")
    (Some "st") None (mkSession (Some "st") None None None) []
  = (Ok (TokenFailed
           (PDict [("error", PStr "invalid_grant");
                   ("error_description",
                    PStr "Invalid authorization code")])),
     mkSession (Some "st") None None None,
     [code_call sample_config (Some "stale")]).
Proof.
  exact (callback_without_token sample_config issuing (of_ymd 2024 3 18)
           (Some "stale") (Some "st") (mkSession (Some "st") None None None)
           [] 400 _ eq_refl eq_refl eq_refl eq_refl).
Defined.

(** X18.  The session is written key by key.  When the answer has an
    [access_token] but an [expires_in] that is not a number, the
    callback raises [TypeError] after the first two keys are written:
    the session then holds the new access token and refresh token and
    the expiry it had before. *)
Theorem callback_half_written_session cfg accounts now code state s tlog
    status d access :
  given state = true -> oauth_state s = state ->
  accounts tlog (code_call cfg code)
  = Some (mkResponse status (Some (PDict d))) ->
  Py.lookup "access_token" d = Some access ->
  timedelta_seconds (dict_get d "expires_in" (PInt 3600)) = Raise TypeError ->
  callback cfg accounts now code state None s tlog
  = (Raise TypeError,
     mkSession (oauth_state s) (Some access)
       (Some (dict_get d "refresh_token" PNone)) (token_expires_at s),
     tlog ++ [code_call cfg code]).
Proof.
  intros Hs Heq Hans Hacc Hsec.
  rewrite (callback_passes _ _ _ _ _ _ _ Hs Heq).
  unfold get_access_token, token_post. rewrite Hans. simpl json.
  cbv iota beta. simpl py_in. rewrite Hacc.
  simpl Py.getitem. rewrite Hacc.
  unfold store_tokens. rewrite Hsec. reflexivity.
Qed.

Lemma callback_half_written_session_witness :
  callback sample_config
    (fun _ _ => Some (mkResponse 200 (Some (PDict
       [("access_token", PStr "token1"); ("expires_in", PStr "3600")]))))
    (of_ymd 2024 3 18) (Some "good") (Some "st") None
    (mkSession (Some "st") None None None) []
  = (Raise TypeError,
     mkSession (Some "st") (Some (PStr "token1")) (Some PNone) None,
     [code_call sample_config (Some "good")]).
Proof.
  exact (callback_half_written_session sample_config _ (of_ymd 2024 3 18)
           (Some "good") (Some "st") (mkSession (Some "st") None None None)
           [] 200
           [("access_token", PStr "token1"); ("expires_in", PStr "3600")]
           (PStr "token1") eq_refl eq_refl eq_refl eq_refl eq_refl).
Defined.

(** X19.  Login and callback fit together: the state that [login] puts
    into the authorization address is the state it stores in the
    session, leaving the tokens of the session alone; a callback that
    comes back with that state and no error asks for a token, and a
    callback with any other state is refused. *)
Theorem login_then_callback cfg accounts now code state s tlog :
  given (Some state) = true ->
  let s' := snd (login cfg state s) in
  fst (login cfg state s) = RedirectAuthorize (auth_params cfg state)
  /\ Py.lookup "state" (auth_params cfg state) = Some (PStr state)
  /\ oauth_state s' = Some state
  /\ session_access_token s' = session_access_token s
  /\ session_refresh_token s' = session_refresh_token s
  /\ token_expires_at s' = token_expires_at s
  /\ snd (callback cfg accounts now code (Some state) None s' tlog)
     = tlog ++ [code_call cfg code]
  /\ (forall other,
        other <> state ->
        callback cfg accounts now code (Some other) None s' tlog
        = (Ok InvalidState, s', tlog)).
Proof.
  intros Hg s'. repeat split.
  - apply (proj2 (callback_call_iff cfg accounts now code (Some state) None
                    s' tlog)).
    split; [reflexivity|]. split; [assumption|reflexivity].
  - intros other Hne. unfold callback. simpl given at 1. cbv iota.
    destruct (given (Some other)); [|reflexivity].
    simpl. destruct (String.eqb_spec other state); [contradiction|].
    reflexivity.
Qed.

Lemma login_then_callback_witness :
  snd (callback sample_config issuing (of_ymd 2024 3 18) (Some "good")
         (Some "st") None (snd (login sample_config "st" empty_session)) [])
  = [code_call sample_config (Some "good")].
Proof.
  destruct (login_then_callback sample_config issuing (of_ymd 2024 3 18)
              (Some "good") "st" empty_session [] eq_refl)
    as (_ & _ & _ & _ & _ & _ & H & _).
  exact H.
Defined.

(** *** The dashboard *)

(** X20.  Without an access token the dashboard redirects to the login
    and makes no call.  With one it asks for the profile once: a 401 or
    any other false answer redirects to the login, and any true answer
    is rendered as the user, an error object with a status other than
    401 included. *)
Theorem dashboard_outcomes remote access_token log :
  dashboard remote None log = (Ok RedirectLogin, log)
  /\ snd (dashboard remote (Some access_token) log)
     = log ++ [me_call access_token]
  /\ (forall data,
        decode (remote log (me_call access_token)) = Ok data ->
        fst (dashboard remote (Some access_token) log)
        = Ok (if Py.truthy data then RenderDashboard data
              else RedirectLogin))
  /\ (forall body,
        remote log (me_call access_token) = Some (mkResponse 401 body) ->
        fst (dashboard remote (Some access_token) log) = Ok RedirectLogin)
  /\ (forall status d,
        status <> 401%Z -> d <> [] ->
        remote log (me_call access_token)
        = Some (mkResponse status (Some (PDict d))) ->
        fst (dashboard remote (Some access_token) log)
        = Ok (RenderDashboard (PDict d))).
Proof.
  assert (Hrun : dashboard remote (Some access_token) log
                 = (rbind (decode (remote log (me_call access_token)))
                      (fun data => Ok (if Py.truthy data
                                       then RenderDashboard data
                                       else RedirectLogin)),
                    log ++ [me_call access_token])).
  { unfold dashboard, bind. rewrite get_user_profile_spec.
    destruct (decode _) as [data| |]; try reflexivity.
    simpl. destruct (Py.truthy data); reflexivity. }
  split; [reflexivity|]. rewrite Hrun. simpl. split; [reflexivity|].
  split; [|split].
  - intros data ->. reflexivity.
  - intros body ->. reflexivity.
  - intros status d Hs Hd ->. simpl.
    destruct (Z.eqb_spec status 401); [contradiction|].
    destruct d; [contradiction|reflexivity].
Qed.

Lemma dashboard_outcomes_witness :
  fst (dashboard throttled (Some "token") [])
  = Ok (RenderDashboard
          (PDict [("error",
             PDict [("status", PInt 429);
                    ("message", PStr "API rate limit exceeded")])]))
  /\ fst (dashboard unauthorized (Some "token") []) = Ok RedirectLogin.
Proof.
  split.
  - destruct (dashboard_outcomes throttled "token" [])
      as (_ & _ & _ & _ & H).
    apply (H 429%Z); [lia|discriminate|reflexivity].
  - destruct (dashboard_outcomes unauthorized "token" [])
      as (_ & _ & _ & H & _).
    eapply H. reflexivity.
Defined.

(* ================================================================= *)
(** ** Whole runs *)

(** *** The filter stage on a catalog *)

Lemma release_instant_Ok album d :
  release_instant album = Ok d ->
  exists v, Py.getitem album "release_date" = Ok v
            /\ parse_release_date v = Ok d.
Proof.
  unfold release_instant.
  destruct (Py.getitem album "release_date") as [v| |]; try discriminate.
  simpl. eauto.
Qed.

Lemma in_window_spec w album d :
  release_instant album = Ok d ->
  in_window w album = true <-> (w <= d)%Z.
Proof.
  intros H. unfold in_window. rewrite H. unfold Datetime.ge.
  apply Z.leb_le.
Qed.

Lemma check_album_out remote access_token w album recent_tracks log :
  (exists d, release_instant album = Ok d) ->
  in_window w album = false ->
  check_album remote access_token w album recent_tracks log
  = (Ok recent_tracks, log).
Proof.
  intros [d Hd] Hout.
  destruct (release_instant_Ok album d Hd) as (v & Hv & Hp).
  apply (check_album_skips _ _ _ _ _ _ v d Hv Hp).
  unfold in_window in Hout. rewrite Hd in Hout. unfold Datetime.ge in Hout.
  apply Z.leb_gt. assumption.
Qed.

Lemma check_album_in remote access_token w album tracks recent_tracks log :
  (exists d, release_instant album = Ok d) ->
  in_window w album = true ->
  flattenable album ->
  Forall well_formed_track tracks ->
  fst (get_album_tracks remote access_token (field "id" album) log)
  = Ok (PList tracks) ->
  check_album remote access_token w album recent_tracks log
  = (Ok (recent_tracks ++ album_records album tracks),
     log ++ [tracks_call access_token (field "id" album)]).
Proof.
  intros [d Hd] Hin ([aid Hid] & [artist Hart] & [album_name Hname]) Htr Hget.
  destruct (release_instant_Ok album d Hd) as (v & Hv & Hp).
  assert (Hfid : field "id" album = aid)
    by (unfold field; rewrite Hid; reflexivity).
  rewrite Hfid in *.
  unfold check_album.
  rewrite Hv, !bind_lift_Ok, Hp, bind_lift_Ok.
  unfold in_window in Hin. rewrite Hd in Hin. rewrite Hin.
  unfold flatten. rewrite Hid, bind_lift_Ok.
  rewrite (bind_Ok _ _ log (PList tracks)
             (log ++ [tracks_call access_token aid])).
  - simpl Py.iter. rewrite bind_lift_Ok.
    unfold primary_artist_name in Hart.
    destruct (Py.getitem album "artists") as [artists| |] eqn:Ha;
      try discriminate.
    simpl in Hart.
    destruct (Py.getitem0 artists) as [first| |] eqn:H0; try discriminate.
    simpl in Hart.
    rewrite (for_each_append_track album artists first artist album_name v
               tracks recent_tracks _ Ha H0 Hart Hname Hv Htr).
    unfold album_records, primary_artist_name, field.
    rewrite Ha. simpl. rewrite H0. simpl. rewrite Hart, Hname, Hv.
    reflexivity.
  - rewrite get_album_tracks_spec in *. simpl in Hget. rewrite Hget.
    reflexivity.
Qed.

Section Catalog.

Variable remote : service.
Variable access_token : string.
Variable window_start : datetime.
Variable albums_of : pyval -> list pyval.
Variable tracks_of : pyval -> list pyval.
Variable ids : list pyval.

Hypothesis listing :
  forall h id,
    In id ids ->
    fst (get_artist_albums remote access_token id 10 h)
    = Ok (PList (albums_of id)).

Hypothesis dated :
  forall id a,
    In id ids -> In a (albums_of id) ->
    exists d, release_instant a = Ok d.

Hypothesis recent :
  forall id a,
    In id ids -> In a (albums_of id) -> in_window window_start a = true ->
    flattenable a
    /\ Forall well_formed_track (tracks_of a)
    /\ forall h,
         fst (get_album_tracks remote access_token (field "id" a) h)
         = Ok (PList (tracks_of a)).

Lemma check_albums_run id (l : list pyval) :
  In id ids -> incl l (albums_of id) ->
  forall recent_tracks log,
    for_each l (check_album remote access_token window_start)
      recent_tracks log
    = (Ok (recent_tracks ++ found_in window_start tracks_of l),
       log ++ map (fun a => tracks_call access_token (field "id" a))
                (filter (in_window window_start) l)).
Proof.
  intros Hid. induction l as [|a l IH]; intros Hincl recent_tracks log.
  - simpl. rewrite !app_nil_r. reflexivity.
  - assert (Ha : In a (albums_of id)) by (apply Hincl; left; reflexivity).
    assert (Hl : incl l (albums_of id))
      by (intros x Hx; apply Hincl; right; assumption).
    simpl for_each. unfold found_in. simpl flat_map. simpl filter.
    destruct (in_window window_start a) eqn:Hw.
    + destruct (recent id a Hid Ha Hw) as (Hf & Htr & Hget).
      rewrite (bind_Ok _ _ log
                 (recent_tracks ++ album_records a (tracks_of a))
                 (log ++ [tracks_call access_token (field "id" a)])).
      * rewrite (IH Hl). unfold found_in. simpl map.
        rewrite <- !app_assoc. reflexivity.
      * apply check_album_in; auto. apply (dated id a Hid Ha).
    + rewrite (bind_Ok _ _ log recent_tracks log).
      * rewrite (IH Hl). reflexivity.
      * apply check_album_out; auto. apply (dated id a Hid Ha).
Qed.

Lemma check_artist_run id recent_tracks log :
  In id ids ->
  check_artist remote access_token window_start id recent_tracks log
  = (Ok (recent_tracks ++ found_in window_start tracks_of (albums_of id)),
     log ++ artist_calls access_token window_start id (albums_of id)).
Proof.
  intros Hid. unfold check_artist.
  rewrite (bind_Ok _ _ log (PList (albums_of id))
             (log ++ [albums_call access_token id])).
  - simpl Py.iter. rewrite bind_lift_Ok.
    rewrite (check_albums_run id (albums_of id) Hid (incl_refl _)).
    unfold artist_calls. rewrite <- app_assoc. reflexivity.
  - pose proof (listing log id Hid) as H.
    rewrite get_artist_albums_spec in *. simpl in H. rewrite H.
    reflexivity.
Qed.

Lemma check_artists_run (l : list pyval) :
  incl l ids ->
  forall recent_tracks log,
    for_each l (check_artist remote access_token window_start)
      recent_tracks log
    = (Ok (recent_tracks
             ++ flat_map (fun id => found_in window_start tracks_of
                                      (albums_of id)) l),
       log ++ flat_map (fun id => artist_calls access_token window_start id
                                    (albums_of id)) l).
Proof.
  induction l as [|id l IH]; intros Hincl recent_tracks log.
  - simpl. rewrite !app_nil_r. reflexivity.
  - simpl for_each.
    rewrite (bind_Ok _ _ log
               (recent_tracks
                  ++ found_in window_start tracks_of (albums_of id))
               (log ++ artist_calls access_token window_start id
                         (albums_of id))).
    + rewrite IH by (intros x Hx; apply Hincl; right; assumption).
      simpl flat_map. rewrite <- !app_assoc. reflexivity.
    + apply check_artist_run. apply Hincl. left. reflexivity.
Qed.

End Catalog.

(** *** The stages of the route *)

Lemma discover_stages remote set_iter clk fuel access_token log
    followed_artists log1 all_artists log2 :
  a_week_exists (now clk) ->
  get_followed_artists remote fuel access_token 50 log
  = (Ok followed_artists, log1) ->
  expand remote access_token followed_artists log1 = (Ok all_artists, log2) ->
  discover remote set_iter clk fuel access_token log
  = for_each (firstn 50 (set_iter all_artists))
      (check_artist remote access_token (now clk - 7 * us_per_day)%Z)
      [] log2.
Proof.
  intros Hnow Hget Hexp. unfold discover.
  rewrite (bind_Ok _ _ log followed_artists log1 Hget).
  rewrite (bind_Ok _ _ log1 all_artists log2 Hexp).
  rewrite (sub_timedelta_week _ Hnow), bind_lift_Ok.
  reflexivity.
Qed.

Lemma materialize_only remote clk access_token recent_tracks :
  only is_materialize_call
    (materialize remote clk access_token recent_tracks).
Proof.
  unfold materialize.
  apply only_bind; [apply only_make_request; exact I|intros ?].
  apply only_bind; [apply only_lift|intros ?].
  apply only_bind.
  { unfold create_playlist. apply only_bind; [apply only_perform; exact I|].
    intros r. unfold response_json. destruct (json r); only_step. }
  intros ?. apply only_bind; [apply only_lift|intros ?].
  apply only_bind; [apply only_lift|intros ?].
  apply only_bind.
  { unfold add_tracks_to_playlist. apply only_for_each. intros i s _.
    apply only_bind; [apply only_perform; exact I|intros ?; apply only_ret]. }
  intros ?. repeat only_step.
Qed.

(** The calls of a run are those of [discover], then those of the last
    stage. *)
Lemma generate_playlist_log remote set_iter clk fuel access_token log :
  exists ext,
    snd (generate_playlist remote set_iter clk fuel (Some access_token) log)
    = snd (discover remote set_iter clk fuel access_token log) ++ ext
    /\ Forall is_materialize_call ext.
Proof.
  unfold generate_playlist, try_except, bind.
  destruct (discover remote set_iter clk fuel access_token log)
    as [[[|t ts]| |] log1]; simpl;
    try (exists []; rewrite app_nil_r; split; [reflexivity|constructor]).
  destruct (materialize_only remote clk access_token (t :: ts) log1)
    as [ext [He Hf]].
  exists ext. split; [|exact Hf].
  destruct (materialize remote clk access_token (t :: ts) log1)
    as [[r| |] log2]; simpl in *; exact He.
Qed.

Lemma filter_materialize_calls (f : call -> bool) (ext : list call) :
  (forall c, is_materialize_call c -> f c = false) ->
  Forall is_materialize_call ext -> filter f ext = [].
Proof.
  intros Hf. induction 1 as [|c ext Hc _ IH]; [reflexivity|].
  simpl. rewrite (Hf c Hc). exact IH.
Qed.

(** *** Runs stop at a bad answer *)

Lemma app_split {A} (e1 e2 h : list A) c rest :
  e1 ++ e2 = h ++ c :: rest ->
  (exists r1, e1 = h ++ c :: r1 /\ rest = r1 ++ e2)
  \/ (exists h2, h = e1 ++ h2 /\ e2 = h2 ++ c :: rest).
Proof.
  revert h. induction e1 as [|x e1 IH]; intros h H.
  - right. exists h. auto.
  - destruct h as [|y h]; simpl in H.
    + injection H as -> <-. left. exists e1. auto.
    + injection H as -> H. destruct (IH h H) as [[r1 [-> ->]]|[h2 [-> ->]]].
      * left. exists r1. auto.
      * right. exists h2. auto.
Qed.

Lemma one_call {A} remote (r : result A) log c :
  (forall e, bad_answer remote log c e -> r = Raise e) ->
  exists ext,
    log ++ [c] = log ++ ext
    /\ forall h c' rest e,
         ext = h ++ c' :: rest ->
         bad_answer remote (log ++ h) c' e ->
         r = Raise e /\ rest = [].
Proof.
  intros Hbad. exists [c]. split; [reflexivity|].
  intros h c' rest e Heq Hb.
  destruct h as [|x h]; simpl in Heq.
  - injection Heq as <- <-. rewrite app_nil_r in Hb. auto.
  - injection Heq as _ Heq. destruct h; discriminate.
Qed.

Lemma stops_ret remote {A} (a : A) : stops_at_bad remote (ret a).
Proof.
  intros log. exists []. simpl. rewrite app_nil_r. split; [reflexivity|].
  intros h c rest e Heq. destruct h; discriminate.
Qed.

Lemma stops_lift remote {A} (r : result A) : stops_at_bad remote (lift r).
Proof.
  intros log. exists []. simpl. rewrite app_nil_r. split; [reflexivity|].
  intros h c rest e Heq. destruct h; discriminate.
Qed.

Lemma stops_bind remote {A B} (m : M A) (f : A -> M B) :
  stops_at_bad remote m -> (forall a, stops_at_bad remote (f a)) ->
  stops_at_bad remote (bind m f).
Proof.
  intros Hm Hf log. destruct (Hm log) as [e1 [H1 B1]]. unfold bind.
  destruct (m log) as [[a| |] log1]; simpl in H1, B1; subst log1.
  - destruct (Hf a (log ++ e1)) as [e2 [H2 B2]].
    exists (e1 ++ e2). split; [rewrite H2, app_assoc; reflexivity|].
    intros h c rest e Heq Hb.
    destruct (app_split e1 e2 h c rest Heq)
      as [[r1 [-> ->]]|[h2 [-> ->]]].
    + destruct (B1 h c r1 e eq_refl Hb) as [Hr _]. discriminate.
    + apply (B2 h2 c rest e eq_refl). rewrite <- app_assoc. exact Hb.
  - exists e1. split; [reflexivity|].
    intros h c rest e0 Heq Hb.
    destruct (B1 h c rest e0 Heq Hb) as [Hr ->].
    injection Hr as ->. auto.
  - exists e1. split; [reflexivity|].
    intros h c rest e0 Heq Hb.
    destruct (B1 h c rest e0 Heq Hb) as [Hr _]. discriminate.
Qed.

Lemma stops_for_each remote {A S} (l : list A) (body : A -> S -> M S) s :
  (forall x s, stops_at_bad remote (body x s)) ->
  stops_at_bad remote (for_each l body s).
Proof.
  intros Hb. revert s. induction l as [|x l IH]; intros s; simpl.
  - apply stops_ret.
  - apply stops_bind; [apply Hb|intros s'; apply IH].
Qed.

Lemma stops_single remote {A} (m : M A) c :
  (forall log, snd (m log) = log ++ [c]) ->
  (forall log e, bad_answer remote log c e -> fst (m log) = Raise e) ->
  stops_at_bad remote m.
Proof.
  intros Hlog Hbad log. rewrite Hlog.
  apply one_call. intros e. apply Hbad.
Qed.

Lemma stops_perform_post remote u access_token body :
  stops_at_bad remote (perform remote (POST u access_token body)).
Proof.
  apply (stops_single remote _ (POST u access_token body)).
  - intros log. unfold perform. destruct (remote log _); reflexivity.
  - intros log e [].
Qed.

Lemma stops_me remote access_token :
  stops_at_bad remote (get_user_profile remote access_token).
Proof.
  apply (stops_single remote _ (me_call access_token)).
  - intros log. rewrite get_user_profile_spec. reflexivity.
  - intros log e [].
Qed.

Lemma stops_related remote access_token artist_id :
  stops_at_bad remote (get_related_artists remote access_token artist_id).
Proof.
  apply (stops_single remote _
           (GET (ArtistRelated artist_id) access_token None)).
  - intros log. rewrite get_related_artists_spec. reflexivity.
  - intros log e (data & Hd & Ht & He).
    rewrite get_related_artists_spec. simpl. rewrite Hd. simpl.
    rewrite Ht. exact He.
Qed.

Lemma stops_albums remote access_token artist_id limit :
  stops_at_bad remote
    (get_artist_albums remote access_token artist_id limit).
Proof.
  apply (stops_single remote _
           (GET (ArtistAlbums artist_id) access_token
              (Some (albums_params limit)))).
  - intros log. rewrite get_artist_albums_spec. reflexivity.
  - intros log e (data & Hd & Ht & He).
    rewrite get_artist_albums_spec. simpl. rewrite Hd. simpl.
    rewrite Ht. exact He.
Qed.

Lemma stops_tracks remote access_token album_id :
  stops_at_bad remote (get_album_tracks remote access_token album_id).
Proof.
  apply (stops_single remote _
           (GET (AlbumTracks album_id) access_token None)).
  - intros log. rewrite get_album_tracks_spec. reflexivity.
  - intros log e (data & Hd & Ht & He).
    rewrite get_album_tracks_spec. simpl. rewrite Hd. simpl.
    rewrite Ht. exact He.
Qed.

Lemma stops_walk remote fuel access_token limit :
  forall artists after,
    stops_at_bad remote
      (get_followed_artists_loop remote fuel access_token limit artists
         after).
Proof.
  induction fuel as [|fuel IH]; intros artists after.
  - apply stops_lift.
  - intros log. rewrite get_followed_artists_loop_unfold.
    set (c := following_call access_token limit after).
    assert (Hbad : forall e,
      bad_answer remote log c e ->
      exists data,
        decode (remote log c) = Ok data /\ Py.truthy data = true
        /\ rbind (Py.getitem data "artists")
             (fun page => rbind (Py.getitem page "items") Py.iter)
           = Raise e).
    { intros e H. exact H. }
    destruct (decode (remote log c)) as [data| |] eqn:Hd.
    2:{ simpl. apply one_call. intros e0 Hb.
        destruct (Hbad e0 Hb) as (d & Hd' & _). discriminate. }
    2:{ simpl. apply one_call. intros e0 Hb.
        destruct (Hbad e0 Hb) as (d & Hd' & _). discriminate. }
    cbv zeta. destruct (Py.truthy data) eqn:Ht; simpl negb; cbv iota.
    2:{ simpl. apply one_call. intros e0 Hb.
        destruct (Hbad e0 Hb) as (d & Hd' & Ht' & _).
        injection Hd' as <-. congruence. }
    destruct (rbind (Py.getitem data "artists")
                (fun page => rbind (Py.getitem page "items") Py.iter))
      as [new| |] eqn:Hnew.
    2:{ simpl. apply one_call. intros e0 Hb.
        destruct (Hbad e0 Hb) as (d & Hd' & _ & He).
        injection Hd' as <-. congruence. }
    2:{ simpl. apply one_call. intros e0 Hb.
        destruct (Hbad e0 Hb) as (d & Hd' & _ & He).
        injection Hd' as <-. congruence. }
    assert (Hcontra : forall (r : result (list pyval)) e0,
              bad_answer remote log c e0 -> r = Raise e0).
    { intros r e0 Hb. destruct (Hbad e0 Hb) as (d & Hd' & _ & He).
      injection Hd' as <-. congruence. }
    destruct (rbind (Py.getitem data "artists")
                (fun page => Py.getitem page "next")) as [next| |];
      try (simpl; apply one_call; intros e0 Hb; apply Hcontra; exact Hb).
    destruct (negb (Py.truthy next));
      try (simpl; apply one_call; intros e0 Hb; apply Hcontra; exact Hb).
    destruct (rbind (Py.getitem data "artists")
                (fun page =>
                   rbind (Py.getitem page "cursors")
                     (fun c0 => Py.getitem c0 "after"))) as [after'| |];
      try (simpl; apply one_call; intros e0 Hb; apply Hcontra; exact Hb).
    destruct (IH (artists ++ new) after' (log ++ [c])) as [ext [He Hb]].
    exists (c :: ext). split.
    + rewrite He, <- app_assoc. reflexivity.
    + intros h c' rest e0 Heq Hbad'.
      destruct h as [|x h]; simpl in Heq.
      * injection Heq as <- <-. rewrite app_nil_r in Hbad'.
        exfalso. pose proof (Hcontra (Ok []) e0 Hbad'). discriminate.
      * injection Heq as <- Heq.
        apply (Hb h c' rest e0 Heq).
        rewrite <- app_assoc. exact Hbad'.
Qed.

Lemma stops_discover remote set_iter clk fuel access_token :
  stops_at_bad remote (discover remote set_iter clk fuel access_token).
Proof.
  unfold discover.
  apply stops_bind; [apply stops_walk|intros followed].
  apply stops_bind.
  { unfold expand. apply stops_for_each. intros artist s.
    unfold expand_seed.
    repeat (apply stops_bind; [apply stops_lift|intros ?]).
    apply stops_bind; [apply stops_related|intros ?].
    repeat (apply stops_bind; [apply stops_lift|intros ?]).
    apply stops_for_each. intros r s'. unfold add_related.
    apply stops_bind; [apply stops_lift|intros ?; apply stops_lift]. }
  intros all. apply stops_bind; [apply stops_lift|intros w].
  unfold recent_releases. apply stops_for_each. intros id s.
  unfold check_artist.
  apply stops_bind; [apply stops_albums|intros ?].
  apply stops_bind; [apply stops_lift|intros ?].
  apply stops_for_each. intros album s'. unfold check_album.
  repeat (apply stops_bind; [apply stops_lift|intros ?]).
  destruct (Datetime.ge _ _); [|apply stops_ret].
  unfold flatten.
  apply stops_bind; [apply stops_lift|intros ?].
  apply stops_bind; [apply stops_tracks|intros ?].
  apply stops_bind; [apply stops_lift|intros ?].
  apply stops_for_each. intros t s''. unfold append_track.
  repeat (apply stops_bind; [apply stops_lift|intros ?]).
  apply stops_ret.
Qed.

Lemma stops_materialize remote clk access_token recent_tracks :
  stops_at_bad remote (materialize remote clk access_token recent_tracks).
Proof.
  unfold materialize.
  apply stops_bind; [apply stops_me|intros ?].
  apply stops_bind; [apply stops_lift|intros ?].
  apply stops_bind.
  { unfold create_playlist.
    apply stops_bind; [apply stops_perform_post|intros r].
    unfold response_json. destruct (json r);
      [apply stops_ret|apply stops_lift]. }
  intros ?. apply stops_bind; [apply stops_lift|intros ?].
  apply stops_bind; [apply stops_lift|intros ?].
  apply stops_bind.
  { unfold add_tracks_to_playlist. apply stops_for_each. intros i s.
    apply stops_bind; [apply stops_perform_post|intros ?; apply stops_ret]. }
  intros ?. apply stops_bind; [apply stops_lift|intros ?].
  apply stops_bind; [apply stops_lift|intros ?]. apply stops_ret.
Qed.

(** A run of the route stops at the first listing call with a bad
    answer, and replies with the failure. *)
Lemma generate_playlist_stops remote set_iter clk fuel access_token log :
  exists ext,
    snd (generate_playlist remote set_iter clk fuel (Some access_token) log)
    = log ++ ext
    /\ forall h c rest e,
         ext = h ++ c :: rest ->
         bad_answer remote (log ++ h) c e ->
         fst (generate_playlist remote set_iter clk fuel
                (Some access_token) log) = Ok (Failed e)
         /\ rest = [].
Proof.
  assert (Hbody : stops_at_bad remote
            (recent_tracks <- discover remote set_iter clk fuel
                                access_token ;;
             match recent_tracks with
             | [] => ret NothingFound
             | _ :: _ => materialize remote clk access_token recent_tracks
             end)).
  { apply stops_bind; [apply stops_discover|].
    intros [|t ts]; [apply stops_ret|apply stops_materialize]. }
  destruct (Hbody log) as [ext [He Hb]].
  unfold generate_playlist, try_except.
  destruct ((recent_tracks <- discover remote set_iter clk fuel
                                access_token ;;
             match recent_tracks with
             | [] => ret NothingFound
             | _ :: _ => materialize remote clk access_token recent_tracks
             end) log) as [[r|e0|] log'] eqn:E; simpl in He, Hb;
    exists ext; (split; [exact He|]);
    intros h c rest e Heq Hbad;
    destruct (Hb h c rest e Heq Hbad) as [Hr Hrest];
    try discriminate.
  injection Hr as ->. auto.
Qed.

(** *** A walk cut short by a 401 *)

Lemma firstn_plus {A} (n m : nat) (l : list A) :
  firstn (n + m) l = firstn n l ++ firstn m (skipn n l).
Proof.
  revert l; induction n as [|n IH]; intros l; [reflexivity|].
  destruct l as [|x l]; simpl.
  - rewrite firstn_nil. reflexivity.
  - rewrite IH. reflexivity.
Qed.

Lemma pages_concat items page_size k :
  concat (map (page_items items page_size) (seq 0 k))
  = firstn (k * page_size) items.
Proof.
  induction k as [|k IH]; [reflexivity|].
  rewrite seq_S, map_app, concat_app, IH. simpl.
  rewrite app_nil_r. unfold page_items.
  replace (page_size + k * page_size) with (k * page_size + page_size)
    by lia.
  symmetry. apply firstn_plus.
Qed.

Section Cut.

Variable remote : service.
Variable access_token : string.
Variable items : list pyval.
Variable page_size : nat.
Variable cursor : nat -> pyval.
Variable next_url : nat -> pyval.
Variable k : nat.
Variable log : list call.

Hypothesis page_size_pos : 0 < page_size.
Hypothesis cursor_true : forall j, Py.truthy (cursor j) = true.
Hypothesis next_true : forall j, Py.truthy (next_url j) = true.
Hypothesis not_last : k <= last_page items page_size.
Hypothesis serves_before :
  forall h j,
    j < k ->
    remote h (page_call page_size cursor access_token j)
    = Some (mkResponse 200
              (Some (page_json items page_size cursor next_url j))).
Hypothesis refuses :
  exists body,
    remote (log ++ map (page_call page_size cursor access_token) (seq 0 k))
      (page_call page_size cursor access_token k)
    = Some (mkResponse 401 body).

Lemma cut_step fuel artists j log0 :
  j < k ->
  get_followed_artists_loop remote (S fuel) access_token
    (Z.of_nat page_size) artists (page_after cursor j) log0
  = get_followed_artists_loop remote fuel access_token
      (Z.of_nat page_size) (artists ++ page_items items page_size j)
      (page_after cursor (S j))
      (log0 ++ [page_call page_size cursor access_token j]).
Proof.
  intros Hj. rewrite get_followed_artists_loop_unfold.
  fold (page_call page_size cursor access_token j).
  rewrite (serves_before log0 j Hj). unfold decode, page_json. simpl.
  rewrite (has_more_last items page_size page_size_pos j).
  replace (Nat.ltb j (last_page items page_size)) with true
    by (symmetry; apply Nat.ltb_lt; lia).
  rewrite next_true. simpl. reflexivity.
Qed.

Lemma cut_from m : forall j fuel,
  j + m = k -> m < fuel ->
  get_followed_artists_loop remote fuel access_token (Z.of_nat page_size)
    (firstn (j * page_size) items) (page_after cursor j)
    (log ++ map (page_call page_size cursor access_token) (seq 0 j))
  = (Ok (firstn (k * page_size) items),
     log ++ map (page_call page_size cursor access_token) (seq 0 (S k))).
Proof.
  induction m as [|m IH]; intros j fuel Hj Hf;
    (destruct fuel as [|fuel]; [lia|]).
  - assert (j = k) by lia. subst j.
    destruct refuses as [body Hbody].
    rewrite (seq_S k 0), map_app, app_assoc.
    rewrite get_followed_artists_loop_unfold.
    fold (page_call page_size cursor access_token k).
    rewrite Hbody. reflexivity.
  - rewrite cut_step by lia.
    replace (firstn (j * page_size) items ++ page_items items page_size j)
      with (firstn (S j * page_size) items).
    + replace ((log ++ map (page_call page_size cursor access_token)
                         (seq 0 j))
               ++ [page_call page_size cursor access_token j])
        with (log ++ map (page_call page_size cursor access_token)
                       (seq 0 (S j))).
      * apply IH; lia.
      * rewrite (seq_S j 0), map_app, app_assoc. reflexivity.
    + unfold page_items.
      replace (S j * page_size) with (j * page_size + page_size)
        by (simpl; lia).
      apply firstn_plus.
Qed.

Lemma cut_walk fuel :
  k < fuel ->
  get_followed_artists remote fuel access_token (Z.of_nat page_size) log
  = (Ok (firstn (k * page_size) items),
     log ++ map (page_call page_size cursor access_token) (seq 0 (S k))).
Proof.
  intros Hf. unfold get_followed_artists.
  pose proof (cut_from k 0 fuel eq_refl Hf) as H.
  simpl in H. rewrite app_nil_r in H. exact H.
Qed.

End Cut.

(* ================================================================= *)
(** ** The expansion, the window, the unauthorized page and the
       answers without a field, on whole runs *)

Lemma filter_artist_calls_albums access_token w (albums_of : pyval -> list pyval)
    (ids : list pyval) :
  filter is_albums_call
    (flat_map (fun id => artist_calls access_token w id (albums_of id)) ids)
  = map (albums_call access_token) ids.
Proof.
  induction ids as [|id ids IH]; [reflexivity|].
  cbn [flat_map]. rewrite filter_app, IH. unfold artist_calls at 1.
  cbn [filter is_albums_call albums_call]. cbn [app]. f_equal.
  induction (filter (in_window w) (albums_of id)) as [|a l IHl];
    [reflexivity|exact IHl].
Qed.

Lemma filter_artist_calls_tracks access_token w (albums_of : pyval -> list pyval)
    (ids : list pyval) :
  filter is_tracks_call
    (flat_map (fun id => artist_calls access_token w id (albums_of id)) ids)
  = map (fun a => tracks_call access_token (field "id" a))
      (filter (in_window w) (flat_map albums_of ids)).
Proof.
  induction ids as [|id ids IH]; [reflexivity|].
  cbn [flat_map]. rewrite !filter_app, map_app, IH. f_equal.
  unfold artist_calls. cbn [filter is_tracks_call albums_call].
  induction (filter (in_window w) (albums_of id)) as [|a l IHl];
    [reflexivity|]. simpl. f_equal. exact IHl.
Qed.

Lemma is_materialize_not_albums c :
  is_materialize_call c -> is_albums_call c = false.
Proof. destruct c as [[]| ]; simpl; intros H; try reflexivity; contradiction. Qed.

Lemma is_materialize_not_tracks c :
  is_materialize_call c -> is_tracks_call c = false.
Proof. destruct c as [[]| ]; simpl; intros H; try reflexivity; contradiction. Qed.

(** C2.  Let the walk return the followed artists, each with a hashable
    [id], and let the related-artists call for each return the list
    [related_of id], the first five of them with a hashable [id].  The
    expansion adds, for every followed artist in turn, its identifier
    and then the identifiers of its first five related artists in the
    order returned, at most six values, with one related-artists call
    per followed artist whatever the size the set has reached.  The
    route hands that set to the filter stage, which starts after the
    last related-artists call: in the whole run the album listings are
    requested for the first 50 values of the set in its iteration
    order, in that order and for no other artist, and for all of them
    when the stage ends normally. *)
Theorem expand_then_cap remote set_iter clk fuel access_token
    (related_of : pyval -> list pyval) (followed_artists : list pyval)
    log log1 :
  get_followed_artists remote fuel access_token 50 log
  = (Ok followed_artists, log1) ->
  a_week_exists (now clk) ->
  Forall has_id followed_artists ->
  (forall h artist,
     In artist followed_artists ->
     fst (get_related_artists remote access_token (field "id" artist) h)
     = Ok (PList (related_of (field "id" artist)))) ->
  (forall artist,
     In artist followed_artists ->
     Forall has_id (firstn 5 (related_of (field "id" artist)))) ->
  let members a := seed_members a (related_of (field "id" a)) in
  let all_artists := flat_map members followed_artists in
  let log2 := log1 ++ map (fun a => related_call access_token (field "id" a))
                        followed_artists in
  expand remote access_token followed_artists log1 = (Ok all_artists, log2)
  /\ (forall a, In a followed_artists ->
        members a
        = field "id" a
          :: map (field "id") (firstn 5 (related_of (field "id" a)))
        /\ length (members a) <= 6
        /\ incl (members a) all_artists)
  /\ discover remote set_iter clk fuel access_token log
     = recent_releases remote set_iter access_token all_artists
         (now clk - 7 * us_per_day)%Z log2
  /\ exists ext n,
       snd (generate_playlist remote set_iter clk fuel (Some access_token)
              log) = log2 ++ ext
       /\ filter is_albums_call ext
          = map (albums_call access_token)
              (firstn n (firstn 50 (set_iter all_artists)))
       /\ length (filter is_albums_call ext) <= 50
       /\ (is_Ok (fst (discover remote set_iter clk fuel access_token log)) ->
           filter is_albums_call ext
           = map (albums_call access_token)
               (firstn 50 (set_iter all_artists))).
Proof.
  intros Hget Hnow Hids Hrel Htop members all_artists log2.
  destruct (expand_members_and_cap remote set_iter access_token related_of
              followed_artists log1 Hids Hrel Htop) as (Hexp & Hmem & _).
  fold members in Hexp, Hmem. fold all_artists in Hexp, Hmem.
  fold log2 in Hexp.
  assert (Hdisc : discover remote set_iter clk fuel access_token log
                  = recent_releases remote set_iter access_token all_artists
                      (now clk - 7 * us_per_day)%Z log2).
  { rewrite (discover_stages remote set_iter clk fuel access_token log
               followed_artists log1 all_artists log2 Hnow Hget Hexp).
    reflexivity. }
  split; [exact Hexp|]. split; [exact Hmem|]. split; [exact Hdisc|].
  destruct (generate_playlist_log remote set_iter clk fuel access_token log)
    as [extm [Hlog Hm]].
  rewrite Hdisc in Hlog. unfold recent_releases in Hlog.
  destruct (for_each_check_artist_albums remote access_token
              (now clk - 7 * us_per_day)%Z
              (firstn 50 (set_iter all_artists)) [] log2)
    as (extd & n & Hd & Hf & Hfull).
  exists (extd ++ extm), n.
  assert (Hfilter : filter is_albums_call (extd ++ extm)
                    = filter is_albums_call extd).
  { rewrite filter_app.
    rewrite (filter_materialize_calls is_albums_call extm
               is_materialize_not_albums Hm).
    apply app_nil_r. }
  rewrite Hfilter. split; [|split; [exact Hf|split]].
  - rewrite Hlog, Hd, app_assoc. reflexivity.
  - rewrite Hf, length_map, !length_firstn. lia.
  - intros Hok. apply Hfull. rewrite Hdisc in Hok. exact Hok.
Qed.

Lemma expand_then_cap_witness :
  let all_artists :=
    flat_map (fun a => seed_members a (six_related (field "id" a)))
      ten_artists in
  expand fanout "token" ten_artists [following_call "token" 50 PNone]
  = (Ok all_artists,
     following_call "token" 50 PNone
     :: map (fun a => related_call "token" (field "id" a)) ten_artists)
  /\ length all_artists = 60
  /\ filter is_albums_call
       (snd (generate_playlist fanout insertion_order sample_clock 1
               (Some "token") []))
     = map (albums_call "token") (firstn 50 (insertion_order all_artists)).
Proof.
  assert (Hnow : a_week_exists (now sample_clock)).
  { unfold a_week_exists. vm_compute. split; [discriminate|reflexivity]. }
  destruct (expand_then_cap fanout insertion_order sample_clock 1 "token"
              six_related ten_artists [] [following_call "token" 50 PNone]
              eq_refl Hnow ten_artists_has_id
              (fun h a _ => fanout_related h a)
              (fun a _ => six_related_has_id (field "id" a)))
    as (Hexp & _ & Hdisc & ext & n & Hlog & _ & _ & Hfull).
  split; [exact Hexp|]. split; [reflexivity|].
  rewrite Hlog, filter_app.
  rewrite Hfull by (vm_compute; exact I).
  vm_compute. reflexivity.
Defined.

(** C3.  In a run of the route whose walk and expansion end normally,
    the window the filter stage tests against starts at [now] minus 7
    days, with [now] read once, after the expansion.  Over a catalog
    ([albums_of] the albums listed for an artist, [tracks_of] the tracks
    listed for an album) whose release dates parse, the run finds the
    tracks of exactly the albums whose release instant is on or after
    that start, artist by artist in the order of the capped list, and
    requests the track listing of those albums and no other.  An album
    released exactly 7 days before [now] is inside the window, one
    released 7 days and 1 second before [now] is outside; an album
    outside the window causes no call and adds nothing. *)
Theorem check_album_window remote set_iter clk fuel access_token
    (albums_of tracks_of : pyval -> list pyval)
    log followed_artists log1 all_artists log2 :
  a_week_exists (now clk) ->
  get_followed_artists remote fuel access_token 50 log
  = (Ok followed_artists, log1) ->
  expand remote access_token followed_artists log1 = (Ok all_artists, log2) ->
  let window_start := (now clk - 7 * us_per_day)%Z in
  let ids := firstn 50 (set_iter all_artists) in
  (forall h id,
     In id ids ->
     fst (get_artist_albums remote access_token id 10 h)
     = Ok (PList (albums_of id))) ->
  (forall id a,
     In id ids -> In a (albums_of id) ->
     exists d, release_instant a = Ok d) ->
  (forall id a,
     In id ids -> In a (albums_of id) -> in_window window_start a = true ->
     flattenable a
     /\ Forall well_formed_track (tracks_of a)
     /\ forall h,
          fst (get_album_tracks remote access_token (field "id" a) h)
          = Ok (PList (tracks_of a))) ->
  sub_timedelta (now clk) 7 0 = Ok window_start
  /\ discover remote set_iter clk fuel access_token log
     = (Ok (flat_map (fun id => found_in window_start tracks_of
                                  (albums_of id)) ids),
        log2 ++ flat_map (fun id => artist_calls access_token window_start
                                      id (albums_of id)) ids)
  /\ (exists ext,
        snd (generate_playlist remote set_iter clk fuel (Some access_token)
               log) = log2 ++ ext
        /\ filter is_tracks_call ext
           = map (fun a => tracks_call access_token (field "id" a))
               (filter (in_window window_start) (flat_map albums_of ids)))
  /\ (forall a d,
        release_instant a = Ok d ->
        (in_window window_start a = true
         <-> (now clk - 7 * us_per_day <= d)%Z)
        /\ (d = (now clk - 7 * us_per_day)%Z ->
            in_window window_start a = true)
        /\ (d = (now clk - 7 * us_per_day - us_per_second)%Z ->
            in_window window_start a = false)
        /\ (in_window window_start a = false ->
            found_in window_start tracks_of [a] = []
            /\ forall recent_tracks log0,
                 check_album remote access_token window_start a
                   recent_tracks log0
                 = (Ok recent_tracks, log0)))
  /\ (forall album v d album_id recent_tracks log0,
        Py.getitem album "release_date" = Ok v ->
        parse_release_date v = Ok d ->
        Py.getitem album "id" = Ok album_id ->
        ((exists r,
            check_album remote access_token window_start album
              recent_tracks log0
            = (r, log0 ++ [tracks_call access_token album_id]))
         <-> (now clk - 7 * us_per_day <= d)%Z)
        /\ (check_album remote access_token window_start album
              recent_tracks log0
            = (Ok recent_tracks, log0)
            <-> (d < now clk - 7 * us_per_day)%Z)).
Proof.
  intros Hnow Hget Hexp window_start ids Hlisting Hdated Hrecent.
  assert (Hdisc :
    discover remote set_iter clk fuel access_token log
    = (Ok (flat_map (fun id => found_in window_start tracks_of
                                 (albums_of id)) ids),
       log2 ++ flat_map (fun id => artist_calls access_token window_start
                                     id (albums_of id)) ids)).
  { rewrite (discover_stages remote set_iter clk fuel access_token log
               followed_artists log1 all_artists log2 Hnow Hget Hexp).
    fold window_start. fold ids.
    rewrite (check_artists_run remote access_token window_start albums_of
               tracks_of ids Hlisting Hdated Hrecent ids (incl_refl _)).
    reflexivity. }
  split; [exact (sub_timedelta_week _ Hnow)|].
  split; [exact Hdisc|]. split; [|split].
  - destruct (generate_playlist_log remote set_iter clk fuel access_token
                log) as [extm [Hlog Hm]].
    rewrite Hdisc in Hlog. cbn [snd] in Hlog.
    exists (flat_map (fun id => artist_calls access_token window_start id
                                  (albums_of id)) ids ++ extm).
    split; [rewrite Hlog, app_assoc; reflexivity|].
    rewrite filter_app.
    rewrite (filter_materialize_calls is_tracks_call extm
               is_materialize_not_tracks Hm), app_nil_r.
    apply filter_artist_calls_tracks.
  - intros a d Hd.
    pose proof (in_window_spec window_start a d Hd) as Hiff.
    split; [exact Hiff|]. split; [|split].
    + intros ->. apply Hiff. unfold window_start. lia.
    + intros ->. destruct (in_window window_start a); [|reflexivity].
      pose proof (proj1 Hiff eq_refl) as E. unfold window_start in E.
      time_lia.
    + intros Hout. split.
      * unfold found_in. cbn [flat_map]. rewrite Hout. reflexivity.
      * intros recent_tracks log0. apply check_album_out; eauto.
  - intros album v d album_id recent_tracks log0 Hv Hd Hid.
    destruct (check_album_fetch_iff remote access_token (now clk) album v d
                album_id window_start recent_tracks log0 Hv Hd Hid
                (sub_timedelta_week _ Hnow))
      as (_ & Hfetch & Hskip & _).
    split; [exact Hfetch|exact Hskip].
Qed.

Lemma check_album_window_witness :
  discover scenario insertion_order clock_at_boundary 2 "token" []
  = (Ok two_records,
     [following_call "token" 50 PNone;
      related_call "token" (PStr "f1"); related_call "token" (PStr "f2")]
     ++ flat_map (fun id => artist_calls "token"
                              (of_ymd 2024 3 15) id (scenario_albums id))
          scenario_set)
  /\ in_window (now clock_at_boundary - 7 * us_per_day)%Z album_0315 = true
  /\ in_window (now clock_past_boundary - 7 * us_per_day)%Z album_0315
     = false.
Proof.
  assert (Hnow : a_week_exists (now clock_at_boundary)).
  { unfold a_week_exists. vm_compute. split; [discriminate|reflexivity]. }
  assert (Hlisting : forall h id,
    In id (firstn 50 (insertion_order scenario_set)) ->
    fst (get_artist_albums scenario "token" id 10 h)
    = Ok (PList (scenario_albums id))).
  { intros h id Hin. vm_compute in Hin.
    repeat (destruct Hin as [<-|Hin]; [reflexivity|]). contradiction. }
  assert (Hdated : forall id a,
    In id (firstn 50 (insertion_order scenario_set)) ->
    In a (scenario_albums id) -> exists d, release_instant a = Ok d).
  { intros id a Hin Ha. vm_compute in Hin.
    repeat (destruct Hin as [<-|Hin];
            [destruct Ha as [<-|[]]; eexists; vm_compute; reflexivity|]).
    contradiction. }
  assert (Hrecent : forall id a,
    In id (firstn 50 (insertion_order scenario_set)) ->
    In a (scenario_albums id) ->
    in_window (now clock_at_boundary - 7 * us_per_day)%Z a = true ->
    flattenable a
    /\ Forall well_formed_track ((fun _ => two_tracks) a)
    /\ forall h,
         fst (get_album_tracks scenario "token" (field "id" a) h)
         = Ok (PList ((fun _ => two_tracks) a))).
  { intros id a Hin Ha. vm_compute in Hin.
    repeat (destruct Hin as [<-|Hin];
            [destruct Ha as [<-|[]]; intros Hw;
             try (vm_compute in Hw; discriminate Hw);
             (split; [|split];
              [repeat split; eexists; vm_compute; reflexivity
              |repeat constructor; repeat split; eexists; reflexivity
              |intros h; reflexivity])|]).
    contradiction. }
  destruct (check_album_window scenario insertion_order clock_at_boundary 2
              "token" scenario_albums (fun _ => two_tracks) []
              scenario_followed [following_call "token" 50 PNone]
              scenario_set
              [following_call "token" 50 PNone;
               related_call "token" (PStr "f1");
               related_call "token" (PStr "f2")]
              Hnow eq_refl eq_refl Hlisting Hdated Hrecent)
    as (_ & Hdisc & _ & Hwin & _).
  split; [exact Hdisc|].
  destruct (Hwin album_0315 (of_ymd 2024 3 15) eq_refl) as (_ & Hat & _).
  split; [apply Hat; vm_compute; reflexivity|].
  vm_compute. reflexivity.
Defined.

(** C7.  Let the walk over a listing cut in pages of [page_size] be
    served its first [k] pages, each with a true link to the next page,
    and let the request of page [k] be answered 401.
    The walk makes those [k + 1] requests and no other, does not try
    again, raises nothing, and returns the artists of the [k] pages
    served, in order: the first [k * page_size] artists of the listing.
    The route goes on with them: the expansion starts from that list,
    after the refused request.  When it is the first page that is
    refused the list is empty, the route makes no other call and
    replies that nothing was found. *)
Theorem unauthorized_page_ends_walk remote set_iter clk access_token
    (items : list pyval) (page_size : nat) (cursor next_url : nat -> pyval)
    (k : nat) log fuel :
  0 < page_size ->
  (forall j, Py.truthy (next_url j) = true) ->
  k <= last_page items page_size ->
  (forall h j,
     j < k ->
     remote h (page_call page_size cursor access_token j)
     = Some (mkResponse 200
               (Some (page_json items page_size cursor next_url j)))) ->
  (exists body,
     remote (log ++ map (page_call page_size cursor access_token) (seq 0 k))
       (page_call page_size cursor access_token k)
     = Some (mkResponse 401 body)) ->
  k < fuel ->
  let requests :=
    map (page_call page_size cursor access_token) (seq 0 (S k)) in
  let fetched := concat (map (page_items items page_size) (seq 0 k)) in
  get_followed_artists remote fuel access_token (Z.of_nat page_size) log
  = (Ok fetched, log ++ requests)
  /\ fetched = firstn (k * page_size) items
  /\ length requests = S k
  /\ (page_size = 50 ->
      a_week_exists (now clk) ->
      forall all_artists log2,
        expand remote access_token fetched (log ++ requests)
        = (Ok all_artists, log2) ->
        discover remote set_iter clk fuel access_token log
        = recent_releases remote set_iter access_token all_artists
            (now clk - 7 * us_per_day)%Z log2)
  /\ (k = 0 -> page_size = 50 ->
      set_iter [] = [] -> a_week_exists (now clk) ->
      fetched = []
      /\ generate_playlist remote set_iter clk fuel (Some access_token) log
         = (Ok NothingFound, log ++ [following_call access_token 50 PNone])).
Proof.
  intros Hpos Hnext Hlast Hserves Hrefuses Hfuel requests fetched.
  pose proof (pages_concat items page_size k) as Hcat.
  fold fetched in Hcat.
  pose proof (cut_walk remote access_token items page_size cursor next_url
                k log Hpos Hnext Hlast Hserves Hrefuses fuel Hfuel)
    as Hwalk.
  fold requests in Hwalk. rewrite <- Hcat in Hwalk.
  split; [exact Hwalk|]. split; [exact Hcat|]. split; [|split].
  - unfold requests. rewrite length_map, length_seq. reflexivity.
  - intros Hsize Hnow all_artists log2 Hexp.
    rewrite Hsize in Hwalk.
    rewrite (discover_stages remote set_iter clk fuel access_token log
               fetched (log ++ requests) all_artists log2 Hnow Hwalk Hexp).
    reflexivity.
  - intros Hk Hsize Hempty Hnow. split.
    + unfold fetched. rewrite Hk. reflexivity.
    + destruct Hrefuses as [body H401].
      destruct fuel as [|fuel]; [lia|].
      rewrite Hk, Hsize in H401. cbn [seq map] in H401.
      rewrite app_nil_r in H401.
      exact (proj2 (proj2 (unauthorized_step remote set_iter clk
                             access_token 50 fuel [] PNone log body H401)
                      eq_refl eq_refl eq_refl Hempty Hnow)).
Qed.

Lemma unauthorized_page_ends_walk_witness :
  get_followed_artists (expiring_listing five_artists 2 2) 5 "token" 2 []
  = (Ok [artist_obj "a1" "One"; artist_obj "a2" "Two";
         artist_obj "a3" "Three"; artist_obj "a4" "Four"],
     [following_call "token" 2 PNone;
      following_call "token" 2 (PInt 1);
      following_call "token" 2 (PInt 2)])
  /\ generate_playlist unauthorized insertion_order sample_clock 1
       (Some "token") []
     = (Ok NothingFound, [following_call "token" 50 PNone]).
Proof.
  assert (Hserves : forall (h : list call) j,
    j < 2 ->
    expiring_listing five_artists 2 2 h (page_call 2 index_cursor "token" j)
    = Some (mkResponse 200
              (Some (page_json five_artists 2 index_cursor sample_next j)))).
  { intros h [|[|j]] Hj; [reflexivity|reflexivity|lia]. }
  split.
  - refine (proj1 (unauthorized_page_ends_walk
                     (expiring_listing five_artists 2 2) insertion_order
                     sample_clock "token" five_artists 2 index_cursor
                     sample_next 2 [] 5 _ (fun _ => eq_refl) (le_n 2)
                     Hserves (ex_intro _ None eq_refl) _)); lia.
  - assert (Hnow : a_week_exists (now sample_clock)).
    { unfold a_week_exists. vm_compute. split; [discriminate|reflexivity]. }
    destruct (unauthorized_page_ends_walk unauthorized insertion_order
                sample_clock "token" five_artists 50 index_cursor
                sample_next 0 [] 1)
      as (_ & _ & _ & _ & Hfirst);
      [lia|reflexivity|apply Nat.le_0_l|intros h j Hj; lia
      |eexists; reflexivity|lia|].
    exact (proj2 (Hfirst eq_refl eq_refl eq_refl Hnow)).
Defined.

(** *** Answers of the listing calls *)

Lemma flat_map_nil {A B} (l : list A) :
  flat_map (fun _ : A => @nil B) l = [].
Proof. induction l as [|a l IH]; [reflexivity|exact IH]. Qed.

Lemma flat_map_single {A B} (f : A -> B) (l : list A) :
  flat_map (fun a => [f a]) l = map f l.
Proof. induction l as [|a l IH]; [reflexivity|simpl; f_equal; exact IH]. Qed.

Lemma no_data_related remote access_token id log :
  no_data (remote log (related_call access_token id)) ->
  get_related_artists remote access_token id log
  = (Ok (PList []), log ++ [related_call access_token id]).
Proof.
  intros (data & Hd & Ht). rewrite get_related_artists_spec.
  unfold related_call in Hd. rewrite Hd. simpl. rewrite Ht. reflexivity.
Qed.

Lemma no_data_albums remote access_token id limit log :
  no_data (remote log (GET (ArtistAlbums id) access_token
                         (Some (albums_params limit)))) ->
  get_artist_albums remote access_token id limit log
  = (Ok (PList []),
     log ++ [GET (ArtistAlbums id) access_token
               (Some (albums_params limit))]).
Proof.
  intros (data & Hd & Ht). rewrite get_artist_albums_spec.
  rewrite Hd. simpl. rewrite Ht. reflexivity.
Qed.

Lemma no_data_tracks remote access_token id log :
  no_data (remote log (tracks_call access_token id)) ->
  get_album_tracks remote access_token id log
  = (Ok (PList []), log ++ [tracks_call access_token id]).
Proof.
  intros (data & Hd & Ht). rewrite get_album_tracks_spec.
  unfold tracks_call in Hd. rewrite Hd. simpl. rewrite Ht. reflexivity.
Qed.

Lemma no_data_page remote access_token limit fuel artists after log :
  no_data (remote log (following_call access_token limit after)) ->
  get_followed_artists_loop remote (S fuel) access_token limit artists
    after log
  = (Ok artists, log ++ [following_call access_token limit after]).
Proof.
  intros (data & Hd & Ht). rewrite get_followed_artists_loop_unfold.
  rewrite Hd. cbv zeta. rewrite Ht. reflexivity.
Qed.

Lemma no_data_seed remote access_token artist all_artists log :
  has_id artist ->
  no_data (remote log (related_call access_token (field "id" artist))) ->
  expand_seed remote access_token artist all_artists log
  = (Ok (all_artists ++ [field "id" artist]),
     log ++ [related_call access_token (field "id" artist)]).
Proof.
  intros Hid Hno.
  apply (expand_seed_spec remote access_token artist [] all_artists log Hid).
  - rewrite (no_data_related _ _ _ _ Hno). reflexivity.
  - constructor.
Qed.

Lemma no_data_artist remote access_token w id recent_tracks log :
  no_data (remote log (albums_call access_token id)) ->
  check_artist remote access_token w id recent_tracks log
  = (Ok recent_tracks, log ++ [albums_call access_token id]).
Proof.
  intros Hno. unfold check_artist.
  rewrite (bind_Ok _ _ log (PList []) (log ++ [albums_call access_token id])).
  - reflexivity.
  - apply no_data_albums. exact Hno.
Qed.

Lemma no_data_album remote access_token album recent_tracks log :
  (exists id, Py.getitem album "id" = Ok id) ->
  no_data (remote log (tracks_call access_token (field "id" album))) ->
  flatten remote access_token album recent_tracks log
  = (Ok recent_tracks,
     log ++ [tracks_call access_token (field "id" album)]).
Proof.
  intros [id Hid] Hno.
  assert (Hf : field "id" album = id)
    by (unfold field; rewrite Hid; reflexivity).
  rewrite Hf in *. unfold flatten. rewrite Hid, bind_lift_Ok.
  rewrite (bind_Ok _ _ log (PList []) (log ++ [tracks_call access_token id])).
  - reflexivity.
  - apply no_data_tracks. exact Hno.
Qed.

Lemma no_data_run remote set_iter clk fuel access_token log
    followed_artists log1 :
  get_followed_artists remote fuel access_token 50 log
  = (Ok followed_artists, log1) ->
  Forall has_id followed_artists ->
  a_week_exists (now clk) ->
  (forall h id, no_data (remote h (related_call access_token id))) ->
  (forall h id, no_data (remote h (albums_call access_token id))) ->
  generate_playlist remote set_iter clk fuel (Some access_token) log
  = (Ok NothingFound,
     log1
     ++ map (fun a => related_call access_token (field "id" a))
          followed_artists
     ++ map (albums_call access_token)
          (firstn 50 (set_iter (map (field "id") followed_artists)))).
Proof.
  intros Hget Hids Hnow Hrel Halb.
  assert (Hexp :
    expand remote access_token followed_artists log1
    = (Ok (map (field "id") followed_artists),
       log1 ++ map (fun a => related_call access_token (field "id" a))
                 followed_artists)).
  { unfold expand.
    rewrite (expand_from remote access_token (fun _ => []) followed_artists
               Hids).
    - cbn [app]. rewrite <- (flat_map_single (field "id")). reflexivity.
    - intros h artist _. rewrite (no_data_related _ _ _ _ (Hrel h _)).
      reflexivity.
    - intros artist _. constructor. }
  assert (Hdisc :
    discover remote set_iter clk fuel access_token log
    = (Ok [],
       (log1 ++ map (fun a => related_call access_token (field "id" a))
                  followed_artists)
       ++ map (albums_call access_token)
            (firstn 50 (set_iter (map (field "id") followed_artists))))).
  { rewrite (discover_stages remote set_iter clk fuel access_token log
               followed_artists log1 _ _ Hnow Hget Hexp).
    rewrite (check_artists_run remote access_token
               (now clk - 7 * us_per_day)%Z (fun _ => []) (fun _ => [])
               (firstn 50 (set_iter (map (field "id") followed_artists)))).
    - unfold found_in, artist_calls. cbn [flat_map filter map app].
      rewrite flat_map_nil, (flat_map_single (albums_call access_token)).
      reflexivity.
    - intros h id _.
      pose proof (no_data_albums remote access_token id 10 h (Halb h id))
        as H.
      rewrite H. reflexivity.
    - intros id a _ [].
    - intros id a _ [].
    - apply incl_refl. }
  unfold generate_playlist, try_except. unfold bind at 1.
  rewrite Hdisc. rewrite <- app_assoc. reflexivity.
Qed.

(** C9.  The four listing calls (followed artists, related artists,
    albums of an artist, tracks of an album) guard the answer with its
    truth value only.  An answer that decodes to a false value (the
    [None] that stands for a 401, an empty object, an empty array) is no
    data: the call gives the empty list, the walk ends with the artists
    it has, the seed adds only itself, the artist or the album adds no
    track, and the run goes on; when every related-artists and album
    answer of a run is such, the route replies that nothing was found.
    A true answer is subscripted with the name of the field: the call
    raises what the subscript raises, [KeyError] for an object without
    the field and [TypeError] for an answer that is not an object; the
    run makes no call after that one and the route replies with the
    failure. *)
Theorem false_answer_is_no_data_absent_field_fails remote set_iter clk fuel
    access_token :
  (forall id limit fuel0 artists after log,
     let albums :=
       GET (ArtistAlbums id) access_token (Some (albums_params limit)) in
     (no_data (remote log (related_call access_token id)) ->
      get_related_artists remote access_token id log
      = (Ok (PList []), log ++ [related_call access_token id]))
     /\ (no_data (remote log albums) ->
         get_artist_albums remote access_token id limit log
         = (Ok (PList []), log ++ [albums]))
     /\ (no_data (remote log (tracks_call access_token id)) ->
         get_album_tracks remote access_token id log
         = (Ok (PList []), log ++ [tracks_call access_token id]))
     /\ (no_data (remote log (following_call access_token limit after)) ->
         get_followed_artists_loop remote (S fuel0) access_token limit
           artists after log
         = (Ok artists, log ++ [following_call access_token limit after])))
  /\ (forall artist all_artists log,
        has_id artist ->
        no_data (remote log (related_call access_token (field "id" artist))) ->
        expand_seed remote access_token artist all_artists log
        = (Ok (all_artists ++ [field "id" artist]),
           log ++ [related_call access_token (field "id" artist)]))
  /\ (forall window_start id recent_tracks log,
        no_data (remote log (albums_call access_token id)) ->
        check_artist remote access_token window_start id recent_tracks log
        = (Ok recent_tracks, log ++ [albums_call access_token id]))
  /\ (forall album recent_tracks log,
        (exists id, Py.getitem album "id" = Ok id) ->
        no_data (remote log (tracks_call access_token (field "id" album))) ->
        flatten remote access_token album recent_tracks log
        = (Ok recent_tracks,
           log ++ [tracks_call access_token (field "id" album)]))
  /\ (forall log followed_artists log1,
        get_followed_artists remote fuel access_token 50 log
        = (Ok followed_artists, log1) ->
        Forall has_id followed_artists ->
        a_week_exists (now clk) ->
        (forall h id, no_data (remote h (related_call access_token id))) ->
        (forall h id, no_data (remote h (albums_call access_token id))) ->
        generate_playlist remote set_iter clk fuel (Some access_token) log
        = (Ok NothingFound,
           log1
           ++ map (fun a => related_call access_token (field "id" a))
                followed_artists
           ++ map (albums_call access_token)
                (firstn 50
                   (set_iter (map (field "id") followed_artists)))))
  /\ (forall id limit fuel0 artists after log data,
        let albums :=
          GET (ArtistAlbums id) access_token (Some (albums_params limit)) in
        Py.truthy data = true ->
        (decode (remote log (related_call access_token id)) = Ok data ->
         get_related_artists remote access_token id log
         = (Py.getitem data "artists",
            log ++ [related_call access_token id]))
        /\ (decode (remote log albums) = Ok data ->
            get_artist_albums remote access_token id limit log
            = (Py.getitem data "items", log ++ [albums]))
        /\ (decode (remote log (tracks_call access_token id)) = Ok data ->
            get_album_tracks remote access_token id log
            = (Py.getitem data "items",
               log ++ [tracks_call access_token id]))
        /\ (decode (remote log (following_call access_token limit after))
            = Ok data ->
            forall e,
              Py.getitem data "artists" = Raise e ->
              get_followed_artists_loop remote (S fuel0) access_token limit
                artists after log
              = (Raise e,
                 log ++ [following_call access_token limit after])))
  /\ (forall d key,
        Py.lookup key d = None -> Py.getitem (PDict d) key = Raise KeyError)
  /\ (forall data key,
        (forall d, data <> PDict d) -> Py.getitem data key = Raise TypeError)
  /\ (forall h c key data e,
        listing_key c = Some key ->
        decode (remote h c) = Ok data ->
        Py.truthy data = true ->
        Py.getitem data key = Raise e ->
        bad_answer remote h c e)
  /\ (forall log,
        exists ext,
          snd (generate_playlist remote set_iter clk fuel
                 (Some access_token) log) = log ++ ext
          /\ forall h c rest e,
               ext = h ++ c :: rest ->
               bad_answer remote (log ++ h) c e ->
               fst (generate_playlist remote set_iter clk fuel
                      (Some access_token) log) = Ok (Failed e)
               /\ rest = []).
Proof.
  split.
  { intros id limit fuel0 artists after log albums.
    split; [apply no_data_related|].
    split; [apply no_data_albums|].
    split; [apply no_data_tracks|apply no_data_page]. }
  split; [intros; apply no_data_seed; assumption|].
  split; [intros; apply no_data_artist; assumption|].
  split; [intros; apply no_data_album; assumption|].
  split; [intros; eapply no_data_run; eassumption|].
  split.
  { intros id limit fuel0 artists after log data albums Ht.
    split; [|split; [|split]].
    - intros Hd. rewrite get_related_artists_spec.
      unfold related_call in Hd. rewrite Hd. simpl. rewrite Ht.
      reflexivity.
    - intros Hd. rewrite get_artist_albums_spec. fold albums.
      rewrite Hd. simpl. rewrite Ht. reflexivity.
    - intros Hd. rewrite get_album_tracks_spec.
      unfold tracks_call in Hd. rewrite Hd. simpl. rewrite Ht.
      reflexivity.
    - intros Hd e He. rewrite get_followed_artists_loop_unfold.
      rewrite Hd. cbv zeta. rewrite Ht, He. reflexivity. }
  split; [intros d key H; simpl; rewrite H; reflexivity|].
  split.
  { intros data key Hnot. destruct data; try reflexivity.
    exfalso. eapply Hnot. reflexivity. }
  split.
  { intros h c key data e Hkey Hd Ht He.
    destruct c as [[]| ]; simpl in Hkey; try discriminate;
      injection Hkey as <-; simpl; exists data;
      (split; [exact Hd|split; [exact Ht|]]);
      try exact He.
    rewrite He. reflexivity. }
  intros log. apply generate_playlist_stops.
Qed.

Lemma false_answer_is_no_data_absent_field_fails_witness :
  generate_playlist silent insertion_order sample_clock 2 (Some "token") []
  = (Ok NothingFound,
     [following_call "token" 50 PNone;
      related_call "token" (PStr "artist1");
      albums_call "token" (PStr "artist1")])
  /\ generate_playlist throttled insertion_order sample_clock 2
       (Some "token") []
     = (Ok (Failed KeyError),
        [following_call "token" 50 PNone;
         related_call "token" (PStr "artist1")])
  /\ generate_playlist array_answers insertion_order sample_clock 2
       (Some "token") []
     = (Ok (Failed TypeError),
        [following_call "token" 50 PNone;
         related_call "token" (PStr "artist1")]).
Proof.
  assert (Hnow : a_week_exists (now sample_clock)).
  { unfold a_week_exists. vm_compute. split; [discriminate|reflexivity]. }
  assert (Hstop : forall remote e,
    snd (generate_playlist remote insertion_order sample_clock 2
           (Some "token") [])
    = [following_call "token" 50 PNone;
       related_call "token" (PStr "artist1")] ->
    bad_answer remote [following_call "token" 50 PNone]
      (related_call "token" (PStr "artist1")) e ->
    generate_playlist remote insertion_order sample_clock 2 (Some "token") []
    = (Ok (Failed e),
       [following_call "token" 50 PNone;
        related_call "token" (PStr "artist1")])).
  { intros remote e Hlog Hbad.
    destruct (false_answer_is_no_data_absent_field_fails remote
                insertion_order sample_clock 2 "token")
      as (_ & _ & _ & _ & _ & _ & _ & _ & _ & Hrun).
    destruct (Hrun []) as (ext & Hext & Hfail).
    rewrite Hlog in Hext. cbn [app] in Hext.
    destruct (Hfail [following_call "token" 50 PNone]
                (related_call "token" (PStr "artist1")) [] e
                (eq_sym Hext) Hbad) as [Hr _].
    rewrite (surjective_pairing (generate_playlist remote insertion_order
                                   sample_clock 2 (Some "token") [])).
    rewrite Hr, Hlog. reflexivity. }
  split; [|split].
  - destruct (false_answer_is_no_data_absent_field_fails silent
                insertion_order sample_clock 2 "token")
      as (_ & _ & _ & _ & Hrun & _).
    refine (Hrun [] [artist_obj "artist1" "Artist One"]
              [following_call "token" 50 PNone] eq_refl _ Hnow _ _).
    + repeat constructor. eexists. split; reflexivity.
    + intros h id. exists (PDict []). split; reflexivity.
    + intros h id. exists (PDict []). split; reflexivity.
  - apply Hstop; [vm_compute; reflexivity|].
    eexists. split; [reflexivity|]. split; reflexivity.
  - apply Hstop; [vm_compute; reflexivity|].
    eexists. split; [reflexivity|]. split; reflexivity.
Defined.
